(** * saraavdata-backend: the auto-tagger (backend/autotagger.py)

    A shallow embedding of the question-bank walker, of its two retrying
    API clients and of the two key rotators, with the properties of the
    design document stated over it.

    Conventions of the model.
    - A Python [str] is a [string] that holds its UTF-8 encoding: a
      character is one byte or a leading byte and its continuation bytes.
      [PyStr.len] and [PyStr.slice_to] count characters, [PyStr.strip]
      strips the white space of Unicode.  [str.lower] is modelled on the
      ASCII range.  A [str] with a lone surrogate, which has no
      encoding, is not modelled.
    - The module globals ([client], [current_groq_key_index], [youtube],
      [current_yt_key_index]), the output file and the log queue live in a
      [World] that every function threads; the external services and the
      cancellation flag are oracles of an [Env].
    - Everything the program does to the outside is appended to the
      [trace] of the world, oldest event first. *)

From Stdlib Require Import String Ascii List Arith Lia ZArith DecimalString.
From stdpp Require Import base list.
Import ListNotations.
Set Warnings "-abstract-large-number".

(** ** Python string operations *)

Module PyStr.
Local Open Scope string_scope.
Local Open Scope nat_scope.

(** [c.lower()] on the ASCII range. *)
Definition lower_ascii (c : ascii) : ascii :=
  let n := nat_of_ascii c in
  if (65 <=? n) && (n <=? 90) then ascii_of_nat (n + 32) else c.

(** [s.lower()] *)
Fixpoint lower (s : string) : string :=
  match s with
  | EmptyString => EmptyString
  | String c s' => String (lower_ascii c) (lower s')
  end.

(** [kw in s] *)
Fixpoint contains (kw s : string) : bool :=
  String.prefix kw s ||
  match s with
  | EmptyString => false
  | String _ s' => contains kw s'
  end.

(** The UTF-8 encoding of the character of code point [cp]. *)
Definition utf8 (cp : nat) : string :=
  if cp <? 128 then String (ascii_of_nat cp) EmptyString
  else if cp <? 2048 then
    String (ascii_of_nat (192 + cp / 64))
      (String (ascii_of_nat (128 + cp mod 64)) EmptyString)
  else if cp <? 65536 then
    String (ascii_of_nat (224 + cp / 4096))
      (String (ascii_of_nat (128 + (cp / 64) mod 64))
         (String (ascii_of_nat (128 + cp mod 64)) EmptyString))
  else
    String (ascii_of_nat (240 + cp / 262144))
      (String (ascii_of_nat (128 + (cp / 4096) mod 64))
         (String (ascii_of_nat (128 + (cp / 64) mod 64))
            (String (ascii_of_nat (128 + cp mod 64)) EmptyString))).

(** A continuation byte of UTF-8, [10xxxxxx]. *)
Definition is_continuation (c : ascii) : bool :=
  let n := nat_of_ascii c in (128 <=? n) && (n <=? 191).

(** [len(s)]: the number of characters, that is of the bytes that are
    not continuation bytes. *)
Fixpoint len (s : string) : nat :=
  match s with
  | EmptyString => 0
  | String c s' => if is_continuation c then len s' else S (len s')
  end.

(** [s[:n]]: the first [n] characters, each with its continuation
    bytes. *)
Fixpoint slice_to (n : nat) (s : string) : string :=
  match s with
  | EmptyString => EmptyString
  | String c s' =>
      if is_continuation c then String c (slice_to n s')
      else
        match n with
        | 0 => EmptyString
        | S n' => String c (slice_to n' s')
        end
  end.

(** The code points [c] with [c.isspace()]: TAB, LF, VT, FF, CR, the
    four separators FS, GS, RS, US, the space, NEL, the no-break space,
    the Ogham space mark, the spaces U+2000 to U+200A, the line and the
    paragraph separators, the narrow no-break space, the medium
    mathematical space and the ideographic space. *)
Definition whitespace : list nat :=
  [ 9; 10; 11; 12; 13; 28; 29; 30; 31; 32; 133; 160; 5760;
    8192; 8193; 8194; 8195; 8196; 8197; 8198; 8199; 8200; 8201; 8202;
    8232; 8233; 8239; 8287; 12288 ].

(** The white space characters, encoded. *)
Definition space_chars : list string := List.map utf8 whitespace.

(** [s.startswith(p)] *)
Fixpoint starts_with (p s : string) : bool :=
  match p with
  | EmptyString => true
  | String a p' =>
      match s with
      | EmptyString => false
      | String b s' => Ascii.eqb a b && starts_with p' s'
      end
  end.

(** [s] without its prefix [p]. *)
Fixpoint skip (p s : string) : string :=
  match p, s with
  | String _ p', String _ s' => skip p' s'
  | _, _ => s
  end.

(** [s] without the white space character it starts with, when it
    starts with one. *)
Definition drop_space (s : string) : option string :=
  match List.find (fun ws => starts_with ws s) space_chars with
  | Some ws => Some (skip ws s)
  | None => None
  end.

(** [s.lstrip()]; [fuel] is a string as long as [s]. *)
Fixpoint lstrip_from (fuel s : string) : string :=
  match fuel with
  | EmptyString => s
  | String _ fuel' =>
      match drop_space s with
      | Some rest => lstrip_from fuel' rest
      | None => s
      end
  end.

Definition lstrip (s : string) : string := lstrip_from s s.

(** [s] is made of white space only. *)
Definition all_space (s : string) : bool :=
  match lstrip s with EmptyString => true | _ => false end.

(** [s.rstrip()]: [s] up to the point from which all is white space. *)
Fixpoint rstrip (s : string) : string :=
  match s with
  | EmptyString => EmptyString
  | String c s' => if all_space s then EmptyString else String c (rstrip s')
  end.

(** [s.strip()] *)
Definition strip (s : string) : string := rstrip (lstrip s).

(** [s.split(sep)[0]] for a one-character separator. *)
Fixpoint split_head (sep : ascii) (s : string) : string :=
  match s with
  | EmptyString => EmptyString
  | String c s' =>
      if Ascii.eqb c sep then EmptyString else String c (split_head sep s')
  end.

(** Truthiness of a [str]: non-empty. *)
Definition truthy (s : string) : bool :=
  match s with EmptyString => false | _ => true end.

(** [x * n] for a string [x]. *)
Fixpoint repeat (x : string) (n : nat) : string :=
  match n with
  | 0 => EmptyString
  | S n' => x ++ repeat x n'
  end.

(** [str(n)] for a natural number. *)
Definition of_nat (n : nat) : string := NilEmpty.string_of_uint (Nat.to_uint n).

(** The double quote character. *)
Definition dquote : string := String (ascii_of_nat 34) EmptyString.

(** Truthiness of an optional [str], for [x] that is [None] or a string. *)
Definition truthy_opt (o : option string) : bool :=
  match o with Some s => truthy s | None => false end.

End PyStr.

(** ** Prompt construction *)

Section Prompts.
Local Open Scope string_scope.

Inductive Role := System | User.

(** A message of a chat request: [{"role": ..., "content": ...}]. *)
Record Message := { role : Role; content : string }.

(** The [marks] entry of a history record, as [int(h.get('marks', 7))]
    sees it: the key is missing, the value converts to an integer, or the
    conversion raises. *)
Inductive Marks :=
| MarksMissing
| MarksInt (z : Z)
| MarksInvalid.

(** [is_comparison_question]: the keyword list. *)
Definition keywords : list string :=
  [ "compare"; "difference"; "distinguish"; "versus"; " vs ";
    "differentiate"; "comparison"; "similarities"; "contrast" ].

(** [is_comparison_question(text)] *)
Definition is_comparison_question (text : string) : bool :=
  let text_lower := PyStr.lower text in
  existsb (fun keyword => PyStr.contains keyword text_lower) keywords.

(** [[int(h.get('marks', 7)) for h in marks_history]]; [None] when a
    conversion raises. *)
Fixpoint marks_list (marks_history : list Marks) : option (list Z) :=
  match marks_history with
  | [] => Some []
  | h :: rest =>
      match h, marks_list rest with
      | MarksInvalid, _ => None
      | _, None => None
      | MarksMissing, Some l => Some (7%Z :: l)
      | MarksInt z, Some l => Some (z :: l)
      end
  end.

Definition sum_Z (l : list Z) : Z := fold_right Z.add 0%Z l.

(** The depth of the answer.  [avg_marks] is [sum / len], the quotient
    of two integers rounded to the nearest float; the division raises
    [OverflowError] when the rounded quotient is out of the range of the
    floats, that is when its absolute value is at least
    [2^1024 - 2^970], and the bare [except] then leaves the default 7.
    The floats next to 5 and 10 are [5 - 2^-50] and [10 + 2^-49], and
    the quotients half way round to 5 and to 10, so [avg_marks < 5] is
    [sum / len < 5 - 2^-51] and [avg_marks > 10] is
    [sum / len > 10 + 2^-50].  An empty history, or one where a
    conversion raises, leaves the default 7 too. *)
Inductive Depth := Concise | Standard | Extensive.

(** The least absolute value of a quotient that does not round to a
    float. *)
Definition float_overflow : Z := (2 ^ 1024 - 2 ^ 970)%Z.

Definition depth_of (marks_history : list Marks) : Depth :=
  match marks_history with
  | [] => Standard
  | _ =>
      match marks_list marks_history with
      | None => Standard
      | Some l =>
          let n := Z.of_nat (length l) in
          let total := sum_Z l in
          if (float_overflow * n <=? Z.abs total)%Z then Standard
          else if (total * 2 ^ 51 <? (5 * 2 ^ 51 - 1) * n)%Z then Concise
          else if ((10 * 2 ^ 50 + 1) * n <? total * 2 ^ 50)%Z then Extensive
          else Standard
      end
  end.

Definition depth_instruction (d : Depth) : string :=
  match d with
  | Standard => "Provide a comprehensive answer (approx. 2-3 pages)."
  | Concise => "Provide a concise answer (3-4 marks)."
  | Extensive => "Provide an extensive, in-depth answer (13 marks)."
  end.

Definition nl : string := String (ascii_of_nat 10) EmptyString.

(** The mandatory-table instruction of [get_detailed_solution]. *)
Definition table_instruction : string :=
  nl ++ nl ++ "🚨 **MANDATORY FORMATTING FOR THIS QUESTION** 🚨" ++ nl ++
  "This question asks for a COMPARISON or DIFFERENCE." ++ nl ++
  "1. You MUST present the core differences in a **Markdown Table**." ++ nl ++
  "2. The table must have clear columns (e.g., Parameter | Concept A | Concept B)." ++ nl ++
  "3. Do NOT write the differences as paragraphs. Use the table.".

Definition formatting_override (question_text : string) : string :=
  if is_comparison_question question_text then table_instruction else EmptyString.

(** The rules of the system prompt, before the override. *)
Definition core_rules : string :=
  "You are an expert Engineering Professor for Sant Gadge Baba Amravati University." ++ nl ++
  "Your task is to write detailed, academic exam solutions." ++ nl ++ nl ++
  "**CORE RULES (STRICT ADHERENCE REQUIRED):**" ++ nl ++
  "1. **NO REPETITION:** Do NOT repeat the question. Do NOT output your internal instructions. Start the answer immediately." ++ nl ++
  "2. **MATH FORMATTING:** Use `$$` for ALL distinct equations. " ++ nl ++
  "   - Syntax: `$$ equation $$` (with blank lines before and after)." ++ nl ++
  "   - NEVER use inline math `$` for formulas." ++ nl ++
  "3. **DERIVATIONS:** Show every step clearly on new lines." ++ nl ++
  "4. **STRUCTURE:** Use `## Headings` and bullet points." ++ nl ++
  "5. **DIAGRAMS:** If needed, use Mermaid.js syntax inside ```mermaid blocks." ++ nl.

Definition system_prompt (question_text : string) : string :=
  core_rules ++ formatting_override question_text.

Definition user_prompt (question_text unit_title : string)
    (marks_history : list Marks) : string :=
  "**Subject Unit:** " ++ unit_title ++ nl ++
  "**Target Depth:** " ++ depth_instruction (depth_of marks_history) ++ nl ++ nl ++
  "**Question:**" ++ nl ++ question_text.

(** The [messages] of [get_detailed_solution]. *)
Definition solution_messages (question_text unit_title : string)
    (marks_history : list Marks) : list Message :=
  [ {| role := System; content := system_prompt question_text |};
    {| role := User; content := user_prompt question_text unit_title marks_history |} ].

(** The [messages] of [get_youtube_search_query]. *)
Definition query_messages (question_text : string) : list Message :=
  let search_text := PyStr.strip (PyStr.split_head "/" question_text) in
  [ {| role := System;
       content := "You are a helpful assistant that generates YouTube search queries." |};
    {| role := User;
       content := "Write a specific YouTube search query for: " ++ PyStr.dquote ++
                  search_text ++ PyStr.dquote ++ ". Only return the query string." |} ].

End Prompts.


(** ** The question bank *)

(** The value stored under [video]: the four fields of a found video. *)
Record VideoRef := {
  videoId : string;
  title : string;
  channelTitle : string;
  searchQuery : string
}.

(** A question.  [q_text] is the [text] key ([None]: missing).  [video]
    is [None] when the key is missing, [Some None] when it holds the
    explicit null and [Some (Some v)] when it holds a video.  [solution]
    is [None] when the key is missing or null. *)
Record Question := {
  q_text : option string;
  history : list Marks;
  video : option (option VideoRef);
  solution : option string
}.

Record Unit_ := {
  u_title : option string;
  questions : list Question
}.

Record Document := {
  d_title : option string;
  units : list Unit_
}.

(** [question.get('video')]: the missing key and the null both read as
    [None]. *)
Definition get_video (question : Question) : option VideoRef :=
  match video question with
  | Some (Some v) => Some v
  | _ => None
  end.

(** Truthiness of [question.get('video')]: a video record is a non-empty
    dict. *)
Definition video_truthy (question : Question) : bool :=
  match get_video question with Some _ => true | None => false end.

(** Truthiness of [question.get('solution')]. *)
Definition solution_truthy (question : Question) : bool :=
  PyStr.truthy_opt (solution question).

Definition set_video (v : option VideoRef) (question : Question) : Question :=
  {| q_text := q_text question; history := history question;
     video := Some v; solution := solution question |}.

Definition set_solution (s : string) (question : Question) : Question :=
  {| q_text := q_text question; history := history question;
     video := video question; solution := Some s |}.

Definition alter_questions (f : list Question -> list Question) (u : Unit_) : Unit_ :=
  {| u_title := u_title u; questions := f (questions u) |}.

(** The document after [f] has been applied in place to the question at
    position [q_idx] of the unit at position [u_idx]. *)
Definition alter_question (f : Question -> Question) (u_idx q_idx : nat)
    (data : Document) : Document :=
  {| d_title := d_title data;
     units := alter (alter_questions (alter f q_idx)) u_idx (units data) |}.

Definition lookup_question (data : Document) (u_idx q_idx : nat) : option Question :=
  match units data !! u_idx with
  | Some u => questions u !! q_idx
  | None => None
  end.

(** [count_total_questions(data)] *)
Definition count_total_questions (data : Document) : nat :=
  fold_right (fun unit acc => length (questions unit) + acc) 0 (units data).

(** ** The outside world *)

(** What [client.chat.completions.create(...)] followed by
    [.choices[0].message.content] gives: a text, a [RateLimitError], or
    any other exception (a malformed response included). *)
Inductive GroqResponse :=
| Completion (text : string)
| RateLimitError
| GroqException.

(** One item of a search response. *)
Record SearchItem := {
  item_videoId : string;
  item_title : string;
  item_channelTitle : string
}.

(** What [request.execute()] gives: a response with its [items], an
    [HttpError] with its status, or any other exception (a malformed
    response included). *)
Inductive YouTubeResponse :=
| SearchItems (items : list SearchItem)
| HttpError (status : nat)
| YouTubeException.

(** The external collaborators.  [groq_api n key messages max_tokens] is
    the answer to the [n]-th completion request of the run, [youtube_api
    n key q] the answer to the [n]-th search, and [stop_event_at n] what
    the [n]-th reading of [stop_event.is_set()] returns. *)
Record Env := {
  groq_api : nat -> string -> list Message -> option nat -> GroqResponse;
  youtube_api : nat -> string -> string -> YouTubeResponse;
  stop_event_at : nat -> bool
}.

Inductive Service := Groq | YouTube.
Inductive KeyStatus := Active | Exhausted | Switching.
Inductive RunStatus := Complete | Stopped.

(** The [active_step] texts, by the step and the number of the question. *)
Inductive ActiveStep :=
| GeneratingQuery (q : nat)
| SearchingYouTube (q : nat)
| GeneratingSolution (q : nat).

(** The [q_details] records, by field.  Elapsed times are read off the
    clock and carry no value here. *)
Inductive QDetail :=
| DText (value : string)
| DSearchQuery (value : string)
| DVideoTime
| DCharCount (chars : nat)
| DAnomaly (chars : nat)
| DSolutionTime
| DTotalTime.

(** The structured records put on [log_queue] with [json.dumps]. *)
Inductive ProgressEvent :=
| EvProgress (current_q total_qs : nat) (processing : option nat)
| EvApiKey (service : Service) (current total : nat) (status : KeyStatus)
| EvQDetails (detail : QDetail)
| EvActiveStep (step : ActiveStep)
| EvStatus (value : RunStatus).

(** An entry of [anomalies_list]: unit number, question number, length. *)
Record Anomaly := { a_unit : nat; a_question : nat; a_chars : nat }.

(** The lines written with [print] (which also puts them on [log_queue]),
    by the statement that writes them and the values it formats. *)
Inductive Line :=
| LnSwitchingGroq (key_no : nat)
| LnSwitchingYouTube (key_no : nat)
| LnNoGroqClient
| LnGroqRateLimit (key_no : nat)
| LnGroqCoolingDown
| LnGroqRetrying
| LnGroqError
| LnMaxRetries
| LnNoYouTubeClient
| LnYouTubeKeyFailed (status key_no : nat)
| LnNoOtherKeys
| LnYouTubeApiError
| LnYouTubeUnknownError
| LnYouTubeExhausted
| LnRule
| LnStarting (subject_title : string)
| LnTotalQuestions (total_qs : nat)
| LnCancelled
| LnQuestion (global_counter total_qs unit_no q_no : nat) (short_text : string)
| LnStep1
| LnGeneratingQuery
| LnQueryDone (search_query : string)
| LnSearching
| LnFound (video_id : string)
| LnNoResults
| LnQueryFailed
| LnStepTime
| LnVideoExists
| LnStep2
| LnDetectedComparison
| LnGenerating
| LnGenerated (chars : nat) (anomaly : bool)
| LnSolutionFailed
| LnSolutionExists
| LnProgressSaved
| LnWatchlist
| LnAnomaly (a : Anomaly)
| LnStoppedByUser
| LnComplete.

(** What happens during a run, in order.  The two assignments to a
    question carry the document as it is once they are done. *)
Inductive Event :=
| PrintLine (line : Line)
| LogPut (ev : ProgressEvent)
| Sleep (seconds : nat)
| GroqCreate (key : string) (messages : list Message) (max_tokens : option nat)
    (response : GroqResponse)
| YouTubeSearch (key : string) (q : string) (response : YouTubeResponse)
| StopEventIsSet (value : bool)
| AssignVideo (u_idx q_idx : nat) (v : option VideoRef) (data : Document)
| AssignSolution (u_idx q_idx : nat) (s : string) (data : Document)
| SaveJsonFile (data : Document).

(** The mutable state of the process.  [GROQ_API_KEYS] and
    [YOUTUBE_API_KEYS] are set when the module is loaded and never
    change; [client] and [youtube] hold the key the client object was
    built with, [None] when no client was built.  [output_file] is the
    content of [OUTPUT_FILENAME]. *)
Record World := {
  GROQ_API_KEYS : list string;
  current_groq_key_index : nat;
  client : option string;
  YOUTUBE_API_KEYS : list string;
  current_yt_key_index : nat;
  youtube : option string;
  output_file : option Document;
  groq_requests : nat;
  youtube_requests : nat;
  stop_readings : nat;
  trace : list Event
}.

(** The state of the module once it is loaded with the two key lists. *)
Definition load_module (groq_keys youtube_keys : list string) : World :=
  {| GROQ_API_KEYS := groq_keys;
     current_groq_key_index := 0;
     client := head groq_keys;
     YOUTUBE_API_KEYS := youtube_keys;
     current_yt_key_index := 0;
     youtube := head youtube_keys;
     output_file := None;
     groq_requests := 0;
     youtube_requests := 0;
     stop_readings := 0;
     trace := [] |}.

Definition is_log (e : Event) : bool :=
  match e with PrintLine _ | LogPut _ => true | _ => false end.

(** The contents of [log_queue], oldest first: the printed lines and the
    structured records. *)
Definition log_queue (w : World) : list Event := List.filter is_log (trace w).

(** ** A state monad over the world *)

Definition M (A : Type) : Type := World -> A * World.

Definition ret {A} (a : A) : M A := fun w => (a, w).

Definition bind {A B} (m : M A) (k : A -> M B) : M B :=
  fun w => let (a, w') := m w in k a w'.

Declare Scope py_scope.
Delimit Scope py_scope with py.
Notation "x <- m ;; k" := (bind m (fun x => k))
  (at level 100, m at next level, right associativity) : py_scope.
Notation "m ;; k" := (bind m (fun _ => k))
  (at level 100, right associativity) : py_scope.
Open Scope py_scope.

(** Reading a global. *)
Definition gets {A} (f : World -> A) : M A := fun w => (f w, w).

Definition emit (e : Event) : M unit := fun w =>
  (tt,
   {| GROQ_API_KEYS := GROQ_API_KEYS w;
      current_groq_key_index := current_groq_key_index w;
      client := client w;
      YOUTUBE_API_KEYS := YOUTUBE_API_KEYS w;
      current_yt_key_index := current_yt_key_index w;
      youtube := youtube w;
      output_file := output_file w;
      groq_requests := groq_requests w;
      youtube_requests := youtube_requests w;
      stop_readings := stop_readings w;
      trace := trace w ++ [e] |}).

(** [print(...)]: the line goes to the queue and to the standard output. *)
Definition print (l : Line) : M unit := emit (PrintLine l).

(** [log_queue.put(json.dumps(...))] *)
Definition log_put (ev : ProgressEvent) : M unit := emit (LogPut ev).

(** [time.sleep(seconds)] *)
Definition sleep (seconds : nat) : M unit := emit (Sleep seconds).

(** [current_groq_key_index = i; client = Groq(api_key=key)] *)
Definition set_groq_client (i : nat) (key : string) : M unit := fun w =>
  (tt,
   {| GROQ_API_KEYS := GROQ_API_KEYS w;
      current_groq_key_index := i;
      client := Some key;
      YOUTUBE_API_KEYS := YOUTUBE_API_KEYS w;
      current_yt_key_index := current_yt_key_index w;
      youtube := youtube w;
      output_file := output_file w;
      groq_requests := groq_requests w;
      youtube_requests := youtube_requests w;
      stop_readings := stop_readings w;
      trace := trace w |}).

(** [current_yt_key_index = i; youtube = build(..., developerKey=key)] *)
Definition set_youtube_client (i : nat) (key : string) : M unit := fun w =>
  (tt,
   {| GROQ_API_KEYS := GROQ_API_KEYS w;
      current_groq_key_index := current_groq_key_index w;
      client := client w;
      YOUTUBE_API_KEYS := YOUTUBE_API_KEYS w;
      current_yt_key_index := i;
      youtube := Some key;
      output_file := output_file w;
      groq_requests := groq_requests w;
      youtube_requests := youtube_requests w;
      stop_readings := stop_readings w;
      trace := trace w |}).

(** [stop_event.is_set()] *)
Definition stop_event_is_set (env : Env) : M bool := fun w =>
  let value := stop_event_at env (stop_readings w) in
  (value,
   {| GROQ_API_KEYS := GROQ_API_KEYS w;
      current_groq_key_index := current_groq_key_index w;
      client := client w;
      YOUTUBE_API_KEYS := YOUTUBE_API_KEYS w;
      current_yt_key_index := current_yt_key_index w;
      youtube := youtube w;
      output_file := output_file w;
      groq_requests := groq_requests w;
      youtube_requests := youtube_requests w;
      stop_readings := S (stop_readings w);
      trace := trace w ++ [StopEventIsSet value] |}).

(** [save_json_file(OUTPUT_FILENAME, data)]: the file is rewritten with
    the whole document.  (A failing write, which the source reports and
    ignores, is not modelled.) *)
Definition save_json_file (data : Document) : M unit := fun w =>
  (tt,
   {| GROQ_API_KEYS := GROQ_API_KEYS w;
      current_groq_key_index := current_groq_key_index w;
      client := client w;
      YOUTUBE_API_KEYS := YOUTUBE_API_KEYS w;
      current_yt_key_index := current_yt_key_index w;
      youtube := youtube w;
      output_file := Some data;
      groq_requests := groq_requests w;
      youtube_requests := youtube_requests w;
      stop_readings := stop_readings w;
      trace := trace w ++ [SaveJsonFile data] |}).

(** The body of the [try] of [generate_with_retry]: the request through
    the current [client], and the stripped text of its first choice.
    With no client object the attribute access raises, which the generic
    handler catches. *)
Definition chat_completions_create (env : Env) (messages_list : list Message)
    (max_tokens : option nat) : M GroqResponse := fun w =>
  match client w with
  | None => (GroqException, w)
  | Some key =>
      let response := groq_api env (groq_requests w) key messages_list max_tokens in
      (response,
       {| GROQ_API_KEYS := GROQ_API_KEYS w;
          current_groq_key_index := current_groq_key_index w;
          client := client w;
          YOUTUBE_API_KEYS := YOUTUBE_API_KEYS w;
          current_yt_key_index := current_yt_key_index w;
          youtube := youtube w;
          output_file := output_file w;
          groq_requests := S (groq_requests w);
          youtube_requests := youtube_requests w;
          stop_readings := stop_readings w;
          trace := trace w ++ [GroqCreate key messages_list max_tokens response] |})
  end.

(** [youtube.search().list(...).execute()] through the current [youtube]
    object. *)
Definition youtube_search_execute (env : Env) (query : string) : M YouTubeResponse :=
  fun w =>
  match youtube w with
  | None => (YouTubeException, w)
  | Some key =>
      let response := youtube_api env (youtube_requests w) key query in
      (response,
       {| GROQ_API_KEYS := GROQ_API_KEYS w;
          current_groq_key_index := current_groq_key_index w;
          client := client w;
          YOUTUBE_API_KEYS := YOUTUBE_API_KEYS w;
          current_yt_key_index := current_yt_key_index w;
          youtube := youtube w;
          output_file := output_file w;
          groq_requests := groq_requests w;
          youtube_requests := S (youtube_requests w);
          stop_readings := stop_readings w;
          trace := trace w ++ [YouTubeSearch key query response] |})
  end.

(** ** The key rotators *)

(** [switch_groq_api_key()] *)
Definition switch_groq_api_key : M (option string) :=
  keys <- gets GROQ_API_KEYS ;;
  match keys with
  | [] => ret None
  | _ :: _ =>
      i <- gets current_groq_key_index ;;
      let i' := (i + 1) mod length keys in
      let new_key := nth i' keys EmptyString in
      print (LnSwitchingGroq (i' + 1)) ;;
      log_put (EvApiKey Groq (i' + 1) (length keys) Switching) ;;
      set_groq_client i' new_key ;;
      ret (Some new_key)
  end.

(** [switch_youtube_key()] *)
Definition switch_youtube_key : M (option string) :=
  keys <- gets YOUTUBE_API_KEYS ;;
  match keys with
  | [] => ret None
  | _ :: _ =>
      i <- gets current_yt_key_index ;;
      let i' := (i + 1) mod length keys in
      let new_key := nth i' keys EmptyString in
      print (LnSwitchingYouTube (i' + 1)) ;;
      log_put (EvApiKey YouTube (i' + 1) (length keys) Switching) ;;
      set_youtube_client i' new_key ;;
      ret (Some new_key)
  end.

(** ** The generation client *)

(** The [for attempt in range(max_retries)] loop of
    [generate_with_retry], by the number of attempts left;
    [keys_tried_in_this_attempt] is the counter of the source. *)
Fixpoint generate_attempts (env : Env) (attempts_left : nat)
    (keys_tried_in_this_attempt : nat) (messages_list : list Message)
    (max_tokens : option nat) : M (option string) :=
  match attempts_left with
  | 0 =>
      print LnMaxRetries ;;
      ret None
  | S attempts_left' =>
      response <- chat_completions_create env messages_list max_tokens ;;
      match response with
      | Completion text => ret (Some (PyStr.strip text))
      | RateLimitError =>
          i <- gets current_groq_key_index ;;
          keys <- gets GROQ_API_KEYS ;;
          print (LnGroqRateLimit (i + 1)) ;;
          log_put (EvApiKey Groq (i + 1) (length keys) Exhausted) ;;
          switch_groq_api_key ;;
          let keys_tried := keys_tried_in_this_attempt + 1 in
          if length keys <=? keys_tried then
            print LnGroqCoolingDown ;;
            sleep 20 ;;
            print LnGroqRetrying ;;
            generate_attempts env attempts_left' 0 messages_list max_tokens
          else
            sleep 1 ;;
            print LnGroqRetrying ;;
            generate_attempts env attempts_left' keys_tried messages_list max_tokens
      | GroqException =>
          print LnGroqError ;;
          sleep 5 ;;
          generate_attempts env attempts_left' keys_tried_in_this_attempt
            messages_list max_tokens
      end
  end.

(** [generate_with_retry(messages_list, task_name, max_retries, **kwargs)];
    [task_name] is not used by the source and is left out, [max_tokens]
    is the only keyword argument a caller passes. *)
Definition generate_with_retry (env : Env) (messages_list : list Message)
    (max_retries : nat) (max_tokens : option nat) : M (option string) :=
  c <- gets client ;;
  match c with
  | None =>
      print LnNoGroqClient ;;
      ret None
  | Some _ => generate_attempts env max_retries 0 messages_list max_tokens
  end.

(** The default of [max_retries]. *)
Definition default_max_retries : nat := 10.

(** [get_youtube_search_query(question_text)] *)
Definition get_youtube_search_query (env : Env) (question_text : string)
    : M (option string) :=
  generate_with_retry env (query_messages question_text) default_max_retries None.

(** [get_detailed_solution(question_text, unit_title, marks_history)] *)
Definition get_detailed_solution (env : Env) (question_text unit_title : string)
    (marks_history : list Marks) : M (option string) :=
  generate_with_retry env (solution_messages question_text unit_title marks_history)
    default_max_retries (Some 4096).

(** ** The video-search client *)

(** [e.resp.status in [403, 400]] *)
Definition auth_or_quota (status : nat) : bool :=
  (status =? 403) || (status =? 400).

(** The record built from the first item of a response. *)
Definition video_of_item (query : string) (item : SearchItem) : VideoRef :=
  {| videoId := item_videoId item;
     title := item_title item;
     channelTitle := item_channelTitle item;
     searchQuery := query |}.

(** The [while keys_tried < max_attempts] loop of [search_youtube_video],
    by [max_attempts - keys_tried], the number of attempts left:
    [keys_tried] is incremented on the one path that loops. *)
Fixpoint search_attempts (env : Env) (attempts_left : nat) (query : string)
    : M (option VideoRef) :=
  match attempts_left with
  | 0 =>
      print LnYouTubeExhausted ;;
      ret None
  | S attempts_left' =>
      response <- youtube_search_execute env query ;;
      match response with
      | SearchItems [] => ret None
      | SearchItems (item :: _) => ret (Some (video_of_item query item))
      | HttpError status =>
          if auth_or_quota status then
            i <- gets current_yt_key_index ;;
            keys <- gets YOUTUBE_API_KEYS ;;
            print (LnYouTubeKeyFailed status (i + 1)) ;;
            if 1 <? length keys then
              switch_youtube_key ;;
              search_attempts env attempts_left' query
            else
              print LnNoOtherKeys ;;
              ret None
          else
            print LnYouTubeApiError ;;
            ret None
      | YouTubeException =>
          print LnYouTubeUnknownError ;;
          ret None
      end
  end.

(** [max_attempts = len(YOUTUBE_API_KEYS) if YOUTUBE_API_KEYS else 1] *)
Definition max_attempts (keys : list string) : nat :=
  match keys with
  | [] => 1
  | _ => length keys
  end.

(** [search_youtube_video(query)] *)
Definition search_youtube_video (env : Env) (query : string) : M (option VideoRef) :=
  if negb (PyStr.truthy query) then ret None
  else
    y <- gets youtube ;;
    match y with
    | None =>
        print LnNoYouTubeClient ;;
        ret None
    | Some _ =>
        keys <- gets YOUTUBE_API_KEYS ;;
        search_attempts env (max_attempts keys) query
    end.

(** ** The question-bank walker *)

(** [FORCE_REGENERATE_SOLUTIONS] *)
Definition FORCE_REGENERATE_SOLUTIONS : bool := true.

(** How a block of the loop body ends: it falls through, or it executes
    [return data]. *)
Inductive Flow := Continue | Return.

(** The question the loop is at and the document it belongs to.  The
    source holds one object under two names ([question] and its place in
    [data]); an assignment to a key of [question] changes both. *)
Record Focus := {
  question : Question;
  data : Document
}.

(** [question['video'] = v] *)
Definition assign_video (u_idx q_idx : nat) (v : option VideoRef) (f : Focus)
    : M Focus :=
  let data' := alter_question (set_video v) u_idx q_idx (data f) in
  emit (AssignVideo u_idx q_idx v data') ;;
  ret {| question := set_video v (question f); data := data' |}.

(** [question['solution'] = s] *)
Definition assign_solution (u_idx q_idx : nat) (s : string) (f : Focus)
    : M Focus :=
  let data' := alter_question (set_solution s) u_idx q_idx (data f) in
  emit (AssignSolution u_idx q_idx s data') ;;
  ret {| question := set_solution s (question f); data := data' |}.

(** Step 1 of the loop body, from [if not question.get('video')] to the
    end of its [else].  The result is the flow, the focus and
    [modified_this_step]. *)
Definition video_step (env : Env) (u_idx q_idx global_counter : nat)
    (q_text : string) (f : Focus) : M (Flow * Focus * bool) :=
  if negb (video_truthy (question f)) then
    print LnStep1 ;;
    print LnGeneratingQuery ;;
    log_put (EvActiveStep (GeneratingQuery global_counter)) ;;
    search_query <- get_youtube_search_query env q_text ;;
    stop <- stop_event_is_set env ;;
    if stop then ret (Return, f, false)
    else
      r <- match search_query with
           | Some query =>
               if PyStr.truthy query then
                 print (LnQueryDone query) ;;
                 log_put (EvQDetails (DSearchQuery query)) ;;
                 print LnSearching ;;
                 log_put (EvActiveStep (SearchingYouTube global_counter)) ;;
                 video_data <- search_youtube_video env query ;;
                 match video_data with
                 | Some v =>
                     f' <- assign_video u_idx q_idx (Some v) f ;;
                     print (LnFound (videoId v)) ;;
                     save_json_file (data f') ;;
                     ret (f', true)
                 | None =>
                     f' <- assign_video u_idx q_idx None f ;;
                     print LnNoResults ;;
                     ret (f', false)
                 end
               else
                 print LnQueryFailed ;;
                 ret (f, false)
           | None =>
               print LnQueryFailed ;;
               ret (f, false)
           end ;;
      print LnStepTime ;;
      log_put (EvQDetails DVideoTime) ;;
      sleep 1 ;;
      ret (Continue, fst r, snd r)
  else
    print LnVideoExists ;;
    ret (Continue, f, false).

(** The threshold of the anomaly test. *)
Definition anomaly_threshold : nat := 8000.

(** Step 2 of the loop body, from [if FORCE_REGENERATE_SOLUTIONS or not
    question.get('solution')] to the end of its [else].  The result is
    the flow, the focus, [anomalies_list] and whether the step set
    [modified_this_step]. *)
Definition solution_step (env : Env) (u_idx q_idx global_counter : nat)
    (q_text unit_title : string) (f : Focus) (anomalies_list : list Anomaly)
    : M (Flow * Focus * list Anomaly * bool) :=
  if FORCE_REGENERATE_SOLUTIONS || negb (solution_truthy (question f)) then
    print LnStep2 ;;
    log_put (EvActiveStep (GeneratingSolution global_counter)) ;;
    (if is_comparison_question q_text then print LnDetectedComparison
     else print LnGenerating) ;;
    let marks_history := history (question f) in
    solution_text <- get_detailed_solution env q_text unit_title marks_history ;;
    stop <- stop_event_is_set env ;;
    if stop then ret (Return, f, anomalies_list, false)
    else
      r <- match solution_text with
           | Some text =>
               if PyStr.truthy text then
                 let char_count := PyStr.len text in
                 f' <- assign_solution u_idx q_idx text f ;;
                 let anomaly := anomaly_threshold <? char_count in
                 let anomalies_list' :=
                   if anomaly then
                     anomalies_list ++
                       [ {| a_unit := u_idx + 1; a_question := q_idx + 1;
                            a_chars := char_count |} ]
                   else anomalies_list in
                 print (LnGenerated char_count anomaly) ;;
                 log_put (EvQDetails (DCharCount char_count)) ;;
                 (if anomaly then log_put (EvQDetails (DAnomaly char_count))
                  else ret tt) ;;
                 save_json_file (data f') ;;
                 ret (f', anomalies_list', true)
               else
                 print LnSolutionFailed ;;
                 ret (f, anomalies_list, false)
           | None =>
               print LnSolutionFailed ;;
               ret (f, anomalies_list, false)
           end ;;
      print LnStepTime ;;
      log_put (EvQDetails DSolutionTime) ;;
      sleep 1 ;;
      ret (Continue, fst (fst r), snd (fst r), snd r)
  else
    print LnSolutionExists ;;
    ret (Continue, f, anomalies_list, false).

(** The local variables of [process_subject] that outlive a question. *)
Record Locals := {
  l_data : Document;
  global_counter : nat;
  anomalies : list Anomaly
}.

(** [(q_text[:60] + '...') if len(q_text) > 60 else q_text] *)
Definition short_text (q_text : string) : string :=
  if 60 <? PyStr.len q_text
  then (PyStr.slice_to 60 q_text ++ "...")%string
  else q_text.

(** The body of the loop over the questions of a unit. *)
Definition process_question (env : Env) (total_qs u_idx : nat) (unit_title : string)
    (q_idx : nat) (q : Question) (st : Locals) : M (Flow * Locals) :=
  let counter := global_counter st + 1 in
  let q_text := default "No Text"%string (q_text q) in
  let leave f anoms := {| l_data := data f; global_counter := counter; anomalies := anoms |} in
  print (LnQuestion counter total_qs (u_idx + 1) (q_idx + 1) (short_text q_text)) ;;
  log_put (EvQDetails (DText q_text)) ;;
  log_put (EvProgress counter total_qs (Some counter)) ;;
  let f := {| question := q; data := l_data st |} in
  stop <- stop_event_is_set env ;;
  if stop then ret (Return, leave f (anomalies st))
  else
    r1 <- video_step env u_idx q_idx counter q_text f ;;
    let '(flow1, f1, modified1) := r1 in
    match flow1 with
    | Return => ret (Return, leave f1 (anomalies st))
    | Continue =>
        stop <- stop_event_is_set env ;;
        if stop then ret (Return, leave f1 (anomalies st))
        else
          r2 <- solution_step env u_idx q_idx counter q_text unit_title f1 (anomalies st) ;;
          let '(flow2, f2, anoms2, modified2) := r2 in
          match flow2 with
          | Return => ret (Return, leave f2 anoms2)
          | Continue =>
              (if modified1 || modified2 then
                 print LnProgressSaved ;;
                 log_put (EvQDetails DTotalTime)
               else ret tt) ;;
              ret (Continue, leave f2 anoms2)
          end
    end.

(** [for q_idx, question in enumerate(unit.get('questions', []))] *)
Fixpoint walk_questions (env : Env) (total_qs u_idx : nat) (unit_title : string)
    (qs : list Question) (q_idx : nat) (st : Locals) : M (Flow * Locals) :=
  match qs with
  | [] => ret (Continue, st)
  | q :: rest =>
      r <- process_question env total_qs u_idx unit_title q_idx q st ;;
      match r with
      | (Return, st') => ret (Return, st')
      | (Continue, st') =>
          walk_questions env total_qs u_idx unit_title rest (S q_idx) st'
      end
  end.

(** [unit.get('title', f"Unit {u_idx+1}")] *)
Definition unit_title_of (u_idx : nat) (unit : Unit_) : string :=
  default ("Unit " ++ PyStr.of_nat (u_idx + 1))%string (u_title unit).

(** [for u_idx, unit in enumerate(data.get('units', []))] *)
Fixpoint walk_units (env : Env) (total_qs : nat) (us : list Unit_) (u_idx : nat)
    (st : Locals) : M (Flow * Locals) :=
  match us with
  | [] => ret (Continue, st)
  | unit :: rest =>
      stop <- stop_event_is_set env ;;
      if stop then
        print LnCancelled ;;
        ret (Return, st)
      else
        r <- walk_questions env total_qs u_idx (unit_title_of u_idx unit)
               (questions unit) 0 st ;;
        match r with
        | (Return, st') => ret (Return, st')
        | (Continue, st') => walk_units env total_qs rest (S u_idx) st'
        end
  end.

(** [for anomaly in anomalies_list: print(...)] *)
Fixpoint print_anomalies (l : list Anomaly) : M unit :=
  match l with
  | [] => ret tt
  | a :: rest => print (LnAnomaly a) ;; print_anomalies rest
  end.

(** [process_subject(data)] *)
Definition process_subject (env : Env) (data : Document) : M Document :=
  let subject_title := default "Unknown Subject"%string (d_title data) in
  let total_qs := count_total_questions data in
  print LnRule ;;
  print (LnStarting subject_title) ;;
  print (LnTotalQuestions total_qs) ;;
  print LnRule ;;
  log_put (EvProgress 0 total_qs None) ;;
  gi <- gets current_groq_key_index ;;
  gkeys <- gets GROQ_API_KEYS ;;
  log_put (EvApiKey Groq (gi + 1) (length gkeys) Active) ;;
  yi <- gets current_yt_key_index ;;
  ykeys <- gets YOUTUBE_API_KEYS ;;
  log_put (EvApiKey YouTube (yi + 1) (length ykeys) Active) ;;
  r <- walk_units env total_qs (units data) 0
         {| l_data := data; global_counter := 0; anomalies := [] |} ;;
  match r with
  | (Return, st) => ret (l_data st)
  | (Continue, st) =>
      print LnRule ;;
      (match anomalies st with
       | [] => ret tt
       | _ :: _ =>
           print LnWatchlist ;;
           print_anomalies (anomalies st) ;;
           print LnRule
       end) ;;
      stop <- stop_event_is_set env ;;
      (if stop then
         print LnStoppedByUser ;;
         log_put (EvStatus Stopped)
       else
         print LnComplete ;;
         log_put (EvStatus Complete)) ;;
      print LnRule ;;
      ret (l_data st)
  end.

(** * Vocabulary of the statements *)

(** [occurs kw s]: [kw] is a contiguous part of [s]. *)
Definition occurs (kw s : string) : Prop :=
  exists pre post, s = (pre ++ kw ++ post)%string.

(** The world after one call of a rotator. *)
Definition groq_advance (w : World) : World := snd (switch_groq_api_key w).
Definition youtube_advance (w : World) : World := snd (switch_youtube_key w).

(** The two rotators, by service: the credential list, the cursor, the
    key the client object is built on, and the world after one call of
    the rotator. *)
Definition keys_of (s : Service) (w : World) : list string :=
  match s with Groq => GROQ_API_KEYS w | YouTube => YOUTUBE_API_KEYS w end.

Definition cursor_of (s : Service) (w : World) : nat :=
  match s with
  | Groq => current_groq_key_index w
  | YouTube => current_yt_key_index w
  end.

Definition client_of (s : Service) (w : World) : option string :=
  match s with Groq => client w | YouTube => youtube w end.

Definition advance (s : Service) (w : World) : World :=
  match s with Groq => groq_advance w | YouTube => youtube_advance w end.

(** The key a rotator is at. *)
Definition key_at (s : Service) (w : World) : string :=
  nth (cursor_of s w) (keys_of s w) EmptyString.

(** The number of events of a trace that satisfy [p]. *)
Fixpoint count (p : Event -> bool) (tr : list Event) : nat :=
  match tr with
  | [] => 0
  | e :: tr' => if p e then S (count p tr') else count p tr'
  end.

Definition is_groq_create (e : Event) : bool :=
  match e with GroqCreate _ _ _ _ => true | _ => false end.
Definition is_rate_limited (e : Event) : bool :=
  match e with GroqCreate _ _ _ RateLimitError => true | _ => false end.
Definition is_groq_exception (e : Event) : bool :=
  match e with GroqCreate _ _ _ GroqException => true | _ => false end.
Definition is_completion (e : Event) : bool :=
  match e with GroqCreate _ _ _ (Completion _) => true | _ => false end.
Definition is_groq_switch (e : Event) : bool :=
  match e with LogPut (EvApiKey Groq _ _ Switching) => true | _ => false end.
Definition is_youtube_switch (e : Event) : bool :=
  match e with LogPut (EvApiKey YouTube _ _ Switching) => true | _ => false end.
Definition is_sleep (e : Event) : bool :=
  match e with Sleep _ => true | _ => false end.
Definition is_sleep_of (n : nat) (e : Event) : bool :=
  match e with Sleep m => m =? n | _ => false end.
Definition is_youtube_search (e : Event) : bool :=
  match e with YouTubeSearch _ _ _ => true | _ => false end.

(** The events of a run of the generation client: lines, records,
    sleeps, and requests that carry the messages and the parameters of
    the call. *)
Definition groq_event (msgs : list Message) (mt : option nat) (e : Event) : Prop :=
  match e with
  | PrintLine _ | LogPut _ | Sleep _ => True
  | GroqCreate _ m t _ => m = msgs /\ t = mt
  | _ => False
  end.

(** What a run of [generate_attempts] with [n] attempts left and the
    counter at [k] does: [chunk] is what it adds to the trace. *)
Record attempts_post (n k : nat) (msgs : list Message) (mt : option nat)
    (w : World) (r : option string) (w' : World) (chunk : list Event) : Prop := {
  ap_trace : trace w' = trace w ++ chunk;
  ap_keys : GROQ_API_KEYS w' = GROQ_API_KEYS w;
  ap_client : client w' <> None;
  ap_events : Forall (groq_event msgs mt) chunk;
  ap_index :
    current_groq_key_index w' =
    if count is_rate_limited chunk =? 0 then current_groq_key_index w
    else (current_groq_key_index w + count is_rate_limited chunk)
           mod length (GROQ_API_KEYS w);
  ap_calls : count is_groq_create chunk <= n;
  ap_switch : count is_groq_switch chunk = count is_rate_limited chunk;
  ap_sleep5 : count (is_sleep_of 5) chunk = count is_groq_exception chunk;
  ap_sleep_rl :
    count (is_sleep_of 20) chunk + count (is_sleep_of 1) chunk =
    count is_rate_limited chunk;
  ap_cool :
    exists k', k' < length (GROQ_API_KEYS w) /\
      length (GROQ_API_KEYS w) * count (is_sleep_of 20) chunk + k' =
      k + count is_rate_limited chunk;
  ap_sleeps :
    count is_sleep chunk =
    count (is_sleep_of 20) chunk + count (is_sleep_of 1) chunk +
    count (is_sleep_of 5) chunk;
  ap_result :
    match r with
    | None => count is_groq_create chunk = n /\ count is_completion chunk = 0
    | Some s =>
        exists pre key text,
          chunk = pre ++ [GroqCreate key msgs mt (Completion text)] /\
          s = PyStr.strip text /\ count is_completion pre = 0
    end
}.

(** The responses of the searches of a trace, in order. *)
Fixpoint searches (tr : list Event) : list YouTubeResponse :=
  match tr with
  | [] => []
  | YouTubeSearch _ _ response :: tr' => response :: searches tr'
  | _ :: tr' => searches tr'
  end.

(** The responses after which [search_youtube_video] may try again. *)
Definition auth_failure (response : YouTubeResponse) : bool :=
  match response with
  | HttpError status => auth_or_quota status
  | _ => false
  end.

Definition is_auth_failure (e : Event) : bool :=
  match e with YouTubeSearch _ _ response => auth_failure response | _ => false end.

(** What [search_youtube_video] returns on a response that ends it. *)
Definition video_of_response (query : string) (response : option YouTubeResponse)
    : option VideoRef :=
  match response with
  | Some (SearchItems (item :: _)) => Some (video_of_item query item)
  | _ => None
  end.

(** The events of a run of the video-search client: lines, records, and
    searches for the query of the call. *)
Definition youtube_event (query : string) (e : Event) : Prop :=
  match e with
  | PrintLine _ | LogPut _ => True
  | YouTubeSearch _ q _ => q = query
  | _ => False
  end.

(** What a run of the video-search client with at most [n] attempts
    does: [chunk] is what it adds to the trace. *)
Record search_post (n : nat) (query : string) (w : World)
    (r : option VideoRef) (w' : World) (chunk : list Event) : Prop := {
  sp_trace : trace w' = trace w ++ chunk;
  sp_keys : YOUTUBE_API_KEYS w' = YOUTUBE_API_KEYS w;
  sp_events : Forall (youtube_event query) chunk;
  sp_calls : length (searches chunk) <= n;
  sp_retry :
    forall i response,
      searches chunk !! i = Some response ->
      S i < length (searches chunk) ->
      auth_failure response = true /\ 1 < length (YOUTUBE_API_KEYS w);
  sp_switch :
    count is_youtube_switch chunk =
    if 1 <? length (YOUTUBE_API_KEYS w) then count is_auth_failure chunk else 0;
  sp_result : r = video_of_response query (last (searches chunk))
}.

(** An environment that answers from three scripts: the [n]-th request,
    search and reading of the flag get the [n]-th entry of their script,
    and an exception, an exception and [false] past its end. *)
Definition scripted (groq : list GroqResponse) (yt : list YouTubeResponse)
    (stops : list bool) : Env :=
  {| groq_api := fun n _ _ _ => nth n groq GroqException;
     youtube_api := fun n _ _ => nth n yt YouTubeException;
     stop_event_at := fun n => nth n stops false |}.

(** ** What a computation adds to the trace *)

(** The content of the output file after the events of [chunk], when it
    was [o] before them. *)
Fixpoint saved (chunk : list Event) (o : option Document) : option Document :=
  match chunk with
  | [] => o
  | SaveJsonFile d :: rest => saved rest (Some d)
  | _ :: rest => saved rest o
  end.

(** [does m Q]: from any world, [m] appends to the trace a [chunk] and
    returns a value [a] with [Q a chunk], and the output file is the one
    the saves of [chunk] leave. *)
Definition does {A} (m : M A) (Q : A -> list Event -> Prop) : Prop :=
  forall w,
    exists chunk,
      trace (snd (m w)) = trace w ++ chunk /\
      output_file (snd (m w)) = saved chunk (output_file w) /\
      Q (fst (m w)) chunk.

Definition is_save (e : Event) : bool :=
  match e with SaveJsonFile _ => true | _ => false end.

(** The events that neither change a question nor write the file. *)
Definition quiet (e : Event) : Prop :=
  match e with
  | AssignVideo _ _ _ _ | AssignSolution _ _ _ _ | SaveJsonFile _ => False
  | _ => True
  end.





(** The focus after [question['video'] = v]. *)
Definition with_video (u_idx q_idx : nat) (v : option VideoRef) (f : Focus) : Focus :=
  {| question := set_video v (question f);
     data := alter_question (set_video v) u_idx q_idx (data f) |}.

(** The focus after [question['solution'] = s]. *)
Definition with_solution (u_idx q_idx : nat) (s : string) (f : Focus) : Focus :=
  {| question := set_solution s (question f);
     data := alter_question (set_solution s) u_idx q_idx (data f) |}.

(** ** What a run may do to a question *)




(** Successive runs of the walker, each on the document the previous one
    returned, each with its own behaviour of the services. *)
Fixpoint runs (envs : list Env) (data : Document) : M Document :=
  match envs with
  | [] => ret data
  | env :: rest => data' <- process_subject env data ;; runs rest data'
  end.





(** What the generation client returns, read off the events [c] of the
    call: a text is the stripped text of the last request, which is the
    only one that gave a text; [None] means that no request gave one. *)
Definition generated (msgs : list Message) (mt : option nat)
    (r : option string) (c : list Event) : Prop :=
  Forall (groq_event msgs mt) c /\
  match r with
  | Some s =>
      exists pre key text,
        c = pre ++ [GroqCreate key msgs mt (Completion text)] /\
        s = PyStr.strip text /\ count is_completion pre = 0
  | None => count is_completion c = 0
  end.

(** What the video step does, for the question at [u_idx], [q_idx] with
    the number [counter].  A question that holds a video is skipped with
    one line.  Otherwise the step announces itself, the generation
    client is asked for a query ([gen] is what it adds to the trace) and
    the flag is read.  When the flag is set the step returns at once.
    When the client gave no query, or an empty one, nothing is stored or
    saved.  Otherwise one search is run for the query ([search] is what
    it adds to the trace) and its result [v], a video or the null, is
    stored on the question; the document is saved, after one line, when
    [v] is a video, and it is not saved when [v] is the null. *)
Definition video_outcome (u_idx q_idx counter : nat) (q_text : string)
    (f : Focus) (r : Flow * Focus * bool) (c : list Event) : Prop :=
  let '(flow, f', modified) := r in
  if video_truthy (question f) then
    flow = Continue /\ f' = f /\ modified = false /\
    c = [PrintLine LnVideoExists]
  else
    exists query gen b rest,
      c = [PrintLine LnStep1; PrintLine LnGeneratingQuery;
           LogPut (EvActiveStep (GeneratingQuery counter))] ++
          gen ++ StopEventIsSet b :: rest /\
      generated (query_messages q_text) None query gen /\
      if b then
        flow = Return /\ f' = f /\ modified = false /\ rest = []
      else
        flow = Continue /\
        let closing := [PrintLine LnStepTime; LogPut (EvQDetails DVideoTime);
                        Sleep 1] in
        match query with
        | Some qy =>
            if PyStr.truthy qy then
              exists search,
                let v := video_of_response qy (last (searches search)) in
                Forall (youtube_event qy) search /\
                f' = with_video u_idx q_idx v f /\
                modified = (match v with Some _ => true | None => false end) /\
                rest =
                  [PrintLine (LnQueryDone qy);
                   LogPut (EvQDetails (DSearchQuery qy));
                   PrintLine LnSearching;
                   LogPut (EvActiveStep (SearchingYouTube counter))] ++
                  search ++
                  AssignVideo u_idx q_idx v (data f') ::
                  match v with
                  | Some found =>
                      PrintLine (LnFound (videoId found)) ::
                      SaveJsonFile (data f') :: closing
                  | None => PrintLine LnNoResults :: closing
                  end
            else
              f' = f /\ modified = false /\
              rest = PrintLine LnQueryFailed :: closing
        | None =>
            f' = f /\ modified = false /\
            rest = PrintLine LnQueryFailed :: closing
        end.

Definition is_anomaly_record (e : Event) : bool :=
  match e with LogPut (EvQDetails (DAnomaly _)) => true | _ => false end.

Definition is_status (e : Event) : bool :=
  match e with LogPut (EvStatus _) => true | _ => false end.

(** What the solution step does, for the question at [u_idx], [q_idx]
    with the number [counter].  The step announces itself, the
    generation client is asked for a solution ([gen] is what it adds to
    the trace) and the flag is read.  When the flag is set the step
    returns at once.  When the client gave no text, or an empty one,
    nothing is stored or saved.  Otherwise the text [s] is stored on the
    question whatever its length, its number [n] of characters is
    reported, the document is saved, and [s] is recorded as an anomaly
    (an entry of the list and, before the save, a record on the queue)
    exactly when [n] exceeds the threshold. *)
Definition solution_outcome (u_idx q_idx counter : nat)
    (q_text unit_title : string) (f : Focus) (anoms : list Anomaly)
    (r : Flow * Focus * list Anomaly * bool) (c : list Event) : Prop :=
  let '(flow, f', anoms', modified) := r in
  if FORCE_REGENERATE_SOLUTIONS || negb (solution_truthy (question f)) then
    exists text gen b rest,
      c = [PrintLine LnStep2;
           LogPut (EvActiveStep (GeneratingSolution counter));
           PrintLine (if is_comparison_question q_text
                      then LnDetectedComparison else LnGenerating)] ++
          gen ++ StopEventIsSet b :: rest /\
      generated (solution_messages q_text unit_title (history (question f)))
        (Some 4096) text gen /\
      if b then
        flow = Return /\ f' = f /\ anoms' = anoms /\ modified = false /\
        rest = []
      else
        flow = Continue /\
        let closing := [PrintLine LnStepTime;
                        LogPut (EvQDetails DSolutionTime); Sleep 1] in
        let failed :=
          f' = f /\ anoms' = anoms /\ modified = false /\
          rest = PrintLine LnSolutionFailed :: closing in
        match text with
        | Some s =>
            if PyStr.truthy s then
              let n := PyStr.len s in
              let anomaly := anomaly_threshold <? n in
              f' = with_solution u_idx q_idx s f /\
              modified = true /\
              anoms' =
                (if anomaly then
                   anoms ++ [ {| a_unit := u_idx + 1; a_question := q_idx + 1;
                                 a_chars := n |} ]
                 else anoms) /\
              rest =
                AssignSolution u_idx q_idx s (data f') ::
                PrintLine (LnGenerated n anomaly) ::
                LogPut (EvQDetails (DCharCount n)) ::
                (if anomaly then [LogPut (EvQDetails (DAnomaly n))] else []) ++
                SaveJsonFile (data f') :: closing
            else failed
        | None => failed
        end
  else
    flow = Continue /\ f' = f /\ anoms' = anoms /\ modified = false /\
    c = [PrintLine LnSolutionExists].

(** ** Sample data *)

Definition sample_video : VideoRef :=
  {| videoId := "v1"; title := "A video"; channelTitle := "A channel";
     searchQuery := "a query" |}.

Definition sample_item : SearchItem :=
  {| item_videoId := "v2"; item_title := "Another video";
     item_channelTitle := "Another channel" |}.

(** A question with the given [video] and [solution] fields. *)
Definition sample_question (v : option (option VideoRef)) (s : option string)
    : Question :=
  {| q_text := Some "What is X?"%string; history := []; video := v; solution := s |}.

(** A bank of one unit that holds one question. *)
Definition single (q : Question) : Document :=
  {| d_title := Some "Subject"%string;
     units := [ {| u_title := Some "Unit one"%string; questions := [q] |} ] |}.




Definition is_anomaly_line (e : Event) : bool :=
  match e with PrintLine (LnAnomaly _) => true | _ => false end.

(** The solution the document holds at a position. *)
Definition solution_at (d : Document) (u_idx q_idx : nat) : option string :=
  match lookup_question d u_idx q_idx with
  | Some q => solution q
  | None => None
  end.

(** * More of the module *)

(** ** The configuration *)

(** [s.split(sep)] for a one-character separator. *)
Fixpoint split_on (sep : ascii) (s : string) : list string :=
  match s with
  | EmptyString => [EmptyString]
  | String c s' =>
      if Ascii.eqb c sep then EmptyString :: split_on sep s'
      else
        match split_on sep s' with
        | [] => [String c EmptyString]
        | h :: t => String c h :: t
        end
  end.

(** [[k.strip() for k in keys_env.split(",") if k.strip()]], the list
    made of a variable of the environment ([""] when it is not set). *)
Definition parse_keys (keys_env : string) : list string :=
  List.filter PyStr.truthy (List.map PyStr.strip (split_on "," keys_env)).

(** A string with no white space character at either end. *)
Definition trimmed (s : string) : Prop :=
  forall ws, In ws PyStr.space_chars ->
    (forall rest, s <> (ws ++ rest)%string) /\
    (forall pre, s <> (pre ++ ws)%string).

(** [sep.join(l)] for a one-character separator. *)
Fixpoint join_with (sep : ascii) (l : list string) : string :=
  match l with
  | [] => EmptyString
  | [k] => k
  | k :: rest => (k ++ String sep (join_with sep rest))%string
  end.

(** A key as [parse_keys] returns them: not empty, no white space at
    either end, no comma. *)
Definition clean_key (k : string) : Prop :=
  PyStr.truthy k = true /\ trimmed k /\ ~ occurs "," k.

(** The value [YOUTUBE_API_KEYS] is parsed from: the variable of that
    name, and [YOUTUBE_API_KEY] when it is empty or not set. *)
Definition youtube_keys_env (youtube_api_keys youtube_api_key : string) : string :=
  if negb (PyStr.truthy youtube_api_keys) then youtube_api_key
  else youtube_api_keys.

(** The state of the module once it is loaded in an environment with the
    three variables [GROQ_API_KEYS], [YOUTUBE_API_KEYS] and
    [YOUTUBE_API_KEY]. *)
Definition configure (groq_api_keys youtube_api_keys youtube_api_key : string)
    : World :=
  load_module (parse_keys groq_api_keys)
    (parse_keys (youtube_keys_env youtube_api_keys youtube_api_key)).

(** The rotator of a service is in order: with no key there is no client;
    otherwise the cursor is in the list and the client is built on the
    key at the cursor. *)
Definition rotator_ok (s : Service) (w : World) : Prop :=
  match keys_of s w with
  | [] => client_of s w = None
  | _ :: _ =>
      cursor_of s w < length (keys_of s w) /\
      client_of s w = Some (key_at s w)
  end.

(** ** The course of a walk *)

(** The events of the two clients: lines, key records, sleeps and
    requests. *)
Definition client_event (e : Event) : Prop :=
  match e with
  | PrintLine _ | Sleep _ | GroqCreate _ _ _ _ | YouTubeSearch _ _ _ => True
  | LogPut (EvApiKey _ _ _ _) => True
  | _ => False
  end.

(** A reading of the stop flag that found it set. *)
Definition is_set_reading (e : Event) : bool :=
  match e with StopEventIsSet true => true | _ => false end.

(** No reading of [c] found the flag set. *)
Definition undisturbed (c : list Event) : Prop := count is_set_reading c = 0.

(** One reading of [c] found the flag set, and only entries of the log
    queue follow it. *)
Definition halted (c : list Event) : Prop :=
  exists pre logs,
    c = pre ++ StopEventIsSet true :: logs /\
    undisturbed pre /\
    Forall (fun e => is_log e = true) logs.

(** The status records of a trace, in order. *)
Fixpoint statuses (c : list Event) : list RunStatus :=
  match c with
  | [] => []
  | LogPut (EvStatus s) :: c' => s :: statuses c'
  | _ :: c' => statuses c'
  end.

(** The progress records of a trace, in order: the number of the
    question and the total. *)
Fixpoint progress_records (c : list Event) : list (nat * nat) :=
  match c with
  | [] => []
  | LogPut (EvProgress current_q total_qs _) :: c' =>
      (current_q, total_qs) :: progress_records c'
  | _ :: c' => progress_records c'
  end.

(** The progress records of the questions numbered from [first], [j] of
    them, with the total [total_qs]. *)
Definition numbered (total_qs first j : nat) : list (nat * nat) :=
  List.map (fun i => (i, total_qs)) (seq first j).

(** How a part of the walk that ends with [flow] relates to the flag:
    it goes on when no reading found the flag set, it returns at the
    first reading that does; it puts no status record on the queue. *)
Definition course (flow : Flow) (c : list Event) : Prop :=
  statuses c = [] /\
  match flow with
  | Continue => undisturbed c
  | Return => halted c
  end.

(** The number of questions of a list of units. *)
Definition total_questions (us : list Unit_) : nat :=
  fold_right (fun unit acc => length (questions unit) + acc) 0 us.

(** A reading of the stop flag is a value the flag takes in [env]. *)
Definition reading_of (env : Env) (e : Event) : Prop :=
  match e with
  | StopEventIsSet b => exists n, stop_event_at env n = b
  | _ => True
  end.

(** What the walk of [j] questions, numbered from [first + 1], leaves on
    the queue and in the counter: no status record, one progress record
    for each question started, readings of the flag of [env] only. *)
Definition walked (env : Env) (total_qs first j : nat) (r : Flow * Locals)
    (c : list Event) : Prop :=
  course (fst r) c /\
  Forall (reading_of env) c /\
  progress_records c = numbered total_qs (first + 1) j /\
  global_counter (snd r) = first + j.

(** What a whole walk of [data] leaves on the queue.  The progress
    records count the questions started; either the walk returned at a
    reading that found the flag set, with no status record, or every
    question was started, the last reading [b] decides the status, and
    only entries of the log follow it. *)
Definition finished (env : Env) (data : Document) (c : list Event) : Prop :=
  Forall (reading_of env) c /\
  exists j,
    j <= count_total_questions data /\
    progress_records c =
      (0, count_total_questions data) ::
      numbered (count_total_questions data) 1 j /\
    ((halted c /\ statuses c = []) \/
     (exists pre b tail,
        c = pre ++ StopEventIsSet b :: tail /\
        undisturbed pre /\
        Forall (fun e => is_log e = true) tail /\
        j = count_total_questions data /\
        statuses c = [if b then Stopped else Complete])).

(** ** The cost of a walk *)

(** The seconds a trace sleeps. *)
Fixpoint sleep_time (c : list Event) : nat :=
  match c with
  | [] => 0
  | Sleep seconds :: c' => seconds + sleep_time c'
  | _ :: c' => sleep_time c'
  end.

(** At most [requests] completion requests and [seconds] seconds of
    sleep. *)
Definition within (requests seconds : nat) (c : list Event) : Prop :=
  count is_groq_create c <= requests /\ sleep_time c <= seconds.

(** ** The keys of a walk *)

(** A world of the module loaded with the keys [gk] and [yk]: the lists
    are those, and both rotators are in order. *)
Definition configured (gk yk : list string) (w : World) : Prop :=
  GROQ_API_KEYS w = gk /\ YOUTUBE_API_KEYS w = yk /\
  rotator_ok Groq w /\ rotator_ok YouTube w.

(** [m], run in a world configured with [gk] and [yk], ends in such a
    world; [Q] holds of its result and of what it adds to the trace. *)
Definition steady (gk yk : list string) {A} (m : M A)
    (Q : A -> list Event -> Prop) : Prop :=
  forall w,
    configured gk yk w ->
    configured gk yk (snd (m w)) /\
    exists chunk,
      trace (snd (m w)) = trace w ++ chunk /\ Q (fst (m w)) chunk.

(** A request carries a key of the list of its service; a key record
    gives the length of the list of its service as the total and, when
    the list has a key, a position of the list as the current key. *)
Definition keyed (gk yk : list string) (e : Event) : Prop :=
  match e with
  | GroqCreate key _ _ _ => In key gk
  | YouTubeSearch key _ _ => In key yk
  | LogPut (EvApiKey s current total _) =>
      let keys := match s with Groq => gk | YouTube => yk end in
      total = length keys /\ (keys <> [] -> 1 <= current <= total)
  | _ => True
  end.

(** Requests and key records in order, and at most [n] searches. *)
Definition searching (gk yk : list string) (n : nat) (c : list Event) : Prop :=
  Forall (keyed gk yk) c /\ length (searches c) <= n.

(** ** What is stored *)

(** What an assignment stores is clean: a solution is a non-empty text
    with no white space at either end; a video carries such a text as
    the query it was found with. *)
Definition stored_clean (e : Event) : Prop :=
  match e with
  | AssignSolution _ _ s _ => PyStr.truthy s = true /\ PyStr.strip s = s
  | AssignVideo _ _ (Some v) _ =>
      PyStr.truthy (searchQuery v) = true /\
      PyStr.strip (searchQuery v) = searchQuery v
  | _ => True
  end.

(** A found video is stored on a question. *)
Definition is_found_assignment (e : Event) : bool :=
  match e with AssignVideo _ _ (Some _) _ => true | _ => false end.

(** Every video stored in [c] carries as its search query the stripped
    text of a completion that a request without [max_tokens], as the
    requests for a query are, received earlier in [c]. *)
Definition query_answered (c : list Event) : Prop :=
  forall pre u_idx q_idx v d post,
    c = pre ++ AssignVideo u_idx q_idx (Some v) d :: post ->
    exists key msgs text,
      In (GroqCreate key msgs None (Completion text)) pre /\
      searchQuery v = PyStr.strip text.

(** ** The files and the entry point *)
















(** ** The endpoints of the files *)




(** * Properties *)

(** ** Facts on strings *)

Section StringFacts.
Local Open Scope string_scope.

Lemma prefix_app (kw s : string) :
  String.prefix kw s = true <-> exists post, s = kw ++ post.
Proof.
  revert s. induction kw as [|c kw IH]; intros s; cbn.
  - split; [intros _; exists s; reflexivity | intros _; destruct s; reflexivity].
  - destruct s as [|d s].
    + split; [discriminate | intros [post H]; discriminate].
    + cbn [String.prefix]. destruct (ascii_dec c d) as [->|Hne].
      * rewrite IH. split; intros [post H]; exists post; congruence.
      * split; [discriminate | intros [post H]; congruence].
Qed.

Lemma contains_occurs (kw s : string) :
  PyStr.contains kw s = true <-> occurs kw s.
Proof.
  induction s as [|c s IH]; cbn [PyStr.contains].
  - rewrite orb_false_r, prefix_app. split.
    + intros [post H]. exists "", post. exact H.
    + intros [pre [post H]]. destruct pre; simpl in H.
      * exists post. exact H.
      * discriminate.
  - rewrite orb_true_iff, prefix_app, IH. split.
    + intros [[post H] | [pre [post H]]].
      * exists "", post. exact H.
      * exists (String c pre), post. simpl. congruence.
    + intros [pre [post H]]. destruct pre as [|d pre]; simpl in H.
      * left. exists post. exact H.
      * right. exists pre, post. congruence.
Qed.

Lemma lower_app (a b : string) :
  PyStr.lower (a ++ b) = PyStr.lower a ++ PyStr.lower b.
Proof. induction a as [|c a IH]; simpl; [reflexivity | now rewrite IH]. Qed.

End StringFacts.


(** ** The key rotators *)

Lemma advance_step (s : Service) (w : World) :
  keys_of s w <> [] ->
  keys_of s (advance s w) = keys_of s w /\
  cursor_of s (advance s w) = (cursor_of s w + 1) mod length (keys_of s w) /\
  client_of s (advance s w) = Some (key_at s (advance s w)).
Proof.
  intros Hne. unfold key_at.
  destruct s; cbn [keys_of cursor_of client_of advance] in *.
  - unfold groq_advance, switch_groq_api_key, bind, gets.
    destruct (GROQ_API_KEYS w) as [|k ks] eqn:Hk; [congruence |].
    cbn. rewrite Hk. auto.
  - unfold youtube_advance, switch_youtube_key, bind, gets.
    destruct (YOUTUBE_API_KEYS w) as [|k ks] eqn:Hk; [congruence |].
    cbn. rewrite Hk. auto.
Qed.

Lemma advance_iter (s : Service) (n : nat) (w : World) :
  keys_of s w <> [] ->
  cursor_of s w < length (keys_of s w) ->
  keys_of s (Nat.iter n (advance s) w) = keys_of s w /\
  cursor_of s (Nat.iter n (advance s) w) =
    (cursor_of s w + n) mod length (keys_of s w).
Proof.
  intros Hne Hlt. induction n as [|n [IHk IHi]]; [cbn | rewrite Nat.iter_succ].
  - split; [reflexivity |]. rewrite Nat.add_0_r, Nat.mod_small; auto.
  - destruct (advance_step s (Nat.iter n (advance s) w)) as (Hk & Hi & _).
    { now rewrite IHk. }
    split; [congruence |].
    rewrite Hi, IHk, IHi.
    rewrite Nat.Div0.add_mod_idemp_l. f_equal; lia.
Qed.

Lemma mod_cycle (i L : nat) : i < L -> (i + L) mod L = i.
Proof.
  intros H. replace (i + L) with (i + 1 * L) by lia.
  rewrite Nat.Div0.mod_add. now apply Nat.mod_small.
Qed.

(** ** The generation client *)

Lemma count_app p (a b : list Event) : count p (a ++ b) = count p a + count p b.
Proof.
  induction a as [|e a IH]; cbn; [reflexivity |].
  destruct (p e); cbn; now rewrite IH.
Qed.

Section GenerateProofs.
#[local] Arguments Nat.modulo : simpl never.
#[local] Arguments Nat.leb : simpl never.
#[local] Arguments Nat.add : simpl never.
#[local] Arguments Nat.mul : simpl never.
#[local] Arguments nth : simpl never.
#[local] Arguments length : simpl never.
#[local] Arguments PyStr.strip : simpl never.

Tactic Notation "run" "in" hyp(H) :=
  unfold bind, gets, print, log_put, sleep, emit, set_groq_client, ret in H; cbn in H.

Ltac trace_chunk H :=
  match type of H with
  | _ = ?t ++ ?chunk =>
      let rec go t acc :=
        lazymatch t with
        | ?t' ++ [?e] => go t' (e :: acc)
        | _ => exists acc
        end in
      go t chunk
  end.

Lemma generate_attempts_post env n : forall k msgs mt w r w',
  client w <> None ->
  k < length (GROQ_API_KEYS w) ->
  generate_attempts env n k msgs mt w = (r, w') ->
  exists chunk, attempts_post n k msgs mt w r w' chunk.
Proof.
  induction n as [|n IH]; intros k msgs mt w r w' Hc Hk Hrun.
  - exists [PrintLine LnMaxRetries]. cbn [generate_attempts] in Hrun. run in Hrun.
    inversion Hrun; subst; clear Hrun.
    split; cbn; try (auto; fail); try lia.
    + repeat constructor.
    + exists k. lia.
  - cbn [generate_attempts] in Hrun. unfold bind at 1 in Hrun.
    unfold chat_completions_create at 1 in Hrun.
    destruct (client w) as [key|] eqn:Hkey; [|congruence].
    destruct (groq_api env (groq_requests w) key msgs mt) as [text| |] eqn:Hr.
    + (* a completion *)
      run in Hrun. inversion Hrun; subst; clear Hrun.
      exists [GroqCreate key msgs mt (Completion text)].
      split; cbn; rewrite ?Hkey; try (auto; fail); try lia; try congruence.
      * repeat constructor.
      * exists k. lia.
      * exists [], key, text. auto.
    + (* a rate limit *)
      unfold switch_groq_api_key in Hrun. run in Hrun.
      destruct (GROQ_API_KEYS w) as [|k0 ks] eqn:Hks; [cbn in Hk; unfold length in Hk; lia |].
      run in Hrun.
      match type of Hrun with
      | context [(if ?c then _ else _) ?w1] =>
          destruct c eqn:Hleb;
          [ apply Nat.leb_le in Hleb | apply Nat.leb_gt in Hleb ]
      end.
      * apply IH in Hrun; [| cbn; congruence | cbn; lia].
        destruct Hrun as [chunk P]. destruct P. cbn in *.
        trace_chunk ap_trace0.
        destruct ap_cool0 as (k' & Hk' & Hcool).
        split; rewrite ?count_app; cbn; try (auto; fail); try lia.
        -- rewrite ap_trace0. rewrite <- !app_assoc. reflexivity.
        -- congruence.
        -- repeat (constructor; [cbn; auto|]). assumption.
        -- rewrite ap_index0, ?Hks.
           destruct (count is_rate_limited chunk =? 0) eqn:E.
           ++ apply Nat.eqb_eq in E. rewrite E. f_equal; lia.
           ++ rewrite Nat.Div0.add_mod_idemp_l. f_equal; lia.
        -- exists k'. rewrite ?Hks, ?Nat.mul_succ_r. split; lia.
        -- destruct r.
           ++ destruct ap_result0 as (pre & key' & text & -> & -> & Hpre).
              eexists (_ :: _ :: _ :: _ :: _ :: _ :: _ :: _ :: pre), key', text.
              split; [reflexivity | split; [reflexivity | cbn; assumption]].
           ++ lia.
      * apply IH in Hrun; [| cbn; congruence | cbn; lia].
        destruct Hrun as [chunk P]. destruct P. cbn in *.
        trace_chunk ap_trace0.
        destruct ap_cool0 as (k' & Hk' & Hcool).
        split; rewrite ?count_app; cbn; try (auto; fail); try lia.
        -- rewrite ap_trace0. rewrite <- !app_assoc. reflexivity.
        -- congruence.
        -- repeat (constructor; [cbn; auto|]). assumption.
        -- rewrite ap_index0, ?Hks.
           destruct (count is_rate_limited chunk =? 0) eqn:E.
           ++ apply Nat.eqb_eq in E. rewrite E. f_equal; lia.
           ++ rewrite Nat.Div0.add_mod_idemp_l. f_equal; lia.
        -- exists k'. rewrite ?Hks, ?Nat.mul_succ_r. split; lia.
        -- destruct r.
           ++ destruct ap_result0 as (pre & key' & text & -> & -> & Hpre).
              eexists (_ :: _ :: _ :: _ :: _ :: _ :: _ :: pre), key', text.
              split; [reflexivity | split; [reflexivity | cbn; assumption]].
           ++ lia.
    + (* another error *)
      run in Hrun.
      apply IH in Hrun; [| cbn; congruence | cbn; lia].
      destruct Hrun as [chunk P]. destruct P. cbn in *.
      trace_chunk ap_trace0.
      destruct ap_cool0 as (k' & Hk' & Hcool).
      split; rewrite ?count_app; cbn; try (auto; fail); try lia.
      * rewrite ap_trace0. rewrite <- !app_assoc. reflexivity.
      * repeat (constructor; [cbn; auto|]). assumption.
      * exists k'. rewrite ?Hks, ?Nat.mul_succ_r. split; lia.
      * destruct r.
        -- destruct ap_result0 as (pre & key' & text & -> & -> & Hpre).
           eexists (_ :: _ :: _ :: pre), key', text.
           split; [reflexivity | split; [reflexivity | cbn; assumption]].
        -- lia.
Qed.
End GenerateProofs.

Section GenerateTheorems.
Local Open Scope string_scope.

Lemma generate_with_retry_post env msgs N mt w r w' :
  client w <> None ->
  GROQ_API_KEYS w <> [] ->
  generate_with_retry env msgs N mt w = (r, w') ->
  exists chunk, attempts_post N 0 msgs mt w r w' chunk.
Proof.
  intros Hc Hk Hrun. unfold generate_with_retry, bind, gets in Hrun.
  destruct (client w) eqn:Hcl; [|congruence].
  apply generate_attempts_post in Hrun; [assumption | congruence |].
  destruct (GROQ_API_KEYS w); [congruence | cbn; lia].
Qed.

Lemma generate_with_retry_no_client env msgs N mt w :
  client w = None ->
  generate_with_retry env msgs N mt w = (None, snd (print LnNoGroqClient w)).
Proof.
  intros Hc. unfold generate_with_retry, bind, gets. rewrite Hc. reflexivity.
Qed.

End GenerateTheorems.

(** ** The video-search client *)

Lemma max_attempts_max (keys : list string) :
  max_attempts keys = Nat.max 1 (length keys).
Proof. destruct keys as [|k [|k' ks]]; cbn; lia. Qed.

Section SearchProofs.
#[local] Arguments Nat.modulo : simpl never.
#[local] Arguments Nat.ltb : simpl never.
#[local] Arguments Nat.add : simpl never.
#[local] Arguments nth : simpl never.
#[local] Arguments auth_or_quota : simpl never.

Tactic Notation "run" "in" hyp(H) :=
  unfold bind, gets, print, log_put, sleep, emit, set_youtube_client, ret in H;
  cbn in H.

Ltac leaf_solve :=
  try solve
    [ auto
    | lia
    | now rewrite <- !app_assoc
    | repeat constructor
    | intros [|i] response H Hi; cbn in *; solve [lia | discriminate]
    | match goal with |- context [1 <? ?l] => now destruct (1 <? l) end ].

Ltac search_leaf := split; [split|]; cbn; leaf_solve.

Lemma search_attempts_post env n : forall query w r w',
  youtube w <> None ->
  search_attempts env n query w = (r, w') ->
  exists chunk,
    search_post n query w r w' chunk /\
    (1 <= n -> 1 <= length (searches chunk)).
Proof.
  induction n as [|n IH]; intros query w r w' Hy Hrun.
  - exists [PrintLine LnYouTubeExhausted]. cbn [search_attempts] in Hrun. run in Hrun.
    inversion Hrun; subst; clear Hrun. search_leaf.
  - cbn [search_attempts] in Hrun. unfold bind at 1 in Hrun.
    unfold youtube_search_execute at 1 in Hrun.
    destruct (youtube w) as [key|] eqn:Hkey; [|congruence].
    destruct (youtube_api env (youtube_requests w) key query)
      as [[|item items]|status|] eqn:Hr.
    + run in Hrun. inversion Hrun; subst; clear Hrun.
      exists [YouTubeSearch key query (SearchItems [])]. search_leaf.
    + run in Hrun. inversion Hrun; subst; clear Hrun.
      exists [YouTubeSearch key query (SearchItems (item :: items))]. search_leaf.
    + destruct (auth_or_quota status) eqn:Hauth.
      * run in Hrun. rewrite ?Hauth in Hrun. run in Hrun.
        destruct (1 <? length (YOUTUBE_API_KEYS w)) eqn:Hlt.
        -- unfold switch_youtube_key in Hrun. run in Hrun.
           destruct (YOUTUBE_API_KEYS w) as [|k0 ks] eqn:Hks; [discriminate |].
           run in Hrun.
           apply IH in Hrun; [| cbn; congruence].
           destruct Hrun as (chunk & P & Hleast). destruct P. cbn in *.
           match type of sp_trace0 with
           | _ = ((((trace w ++ [?a]) ++ [?b]) ++ [?c]) ++ [?d]) ++ _ =>
               exists ([a; b; c; d] ++ chunk)
           end.
           rewrite Hlt in sp_switch0.
           split; [split|]; cbn; rewrite ?Hauth, ?Hlt, ?Hks;
             try solve
               [ auto | lia | congruence
               | rewrite sp_trace0, <- !app_assoc; reflexivity
               | repeat (constructor; [cbn; auto|]); assumption
               | rewrite sp_result0; destruct (searches chunk); reflexivity ].
           intros [|i] response H Hi; cbn in H.
           ++ inversion H; subst. cbn. rewrite Hauth.
              apply Nat.ltb_lt in Hlt. auto.
           ++ apply (sp_retry0 i response H). cbn in Hi. lia.
           ++ cbn [length]. rewrite Hlt. lia.
        -- run in Hrun. inversion Hrun; subst; clear Hrun.
           match goal with
           | |- context [((trace w ++ [?a]) ++ [?b]) ++ [?c]] => exists [a; b; c]
           end.
           search_leaf; rewrite ?Hauth, ?Hlt; leaf_solve.
      * run in Hrun. rewrite ?Hauth in Hrun. run in Hrun.
        inversion Hrun; subst; clear Hrun.
        match goal with
        | |- context [(trace w ++ [?a]) ++ [?b]] => exists [a; b]
        end.
        search_leaf; rewrite ?Hauth; leaf_solve.
    + run in Hrun. inversion Hrun; subst; clear Hrun.
      match goal with
      | |- context [(trace w ++ [?a]) ++ [?b]] => exists [a; b]
      end.
      search_leaf.
Qed.





Lemma search_youtube_video_post env query w r w' :
  search_youtube_video env query w = (r, w') ->
  exists chunk,
    search_post (max_attempts (YOUTUBE_API_KEYS w)) query w r w' chunk /\
    (PyStr.truthy query = true -> youtube w <> None ->
     1 <= length (searches chunk)).
Proof.
  intros Hrun. unfold search_youtube_video in Hrun.
  destruct (PyStr.truthy query) eqn:Hq; cbn in Hrun.
  - unfold bind, gets in Hrun. destruct (youtube w) eqn:Hy.
    + apply search_attempts_post in Hrun; [| congruence].
      destruct Hrun as (chunk & P & Hleast). exists chunk. split; [assumption |].
      intros _ _. apply Hleast. rewrite max_attempts_max. lia.
    + unfold print, emit, ret in Hrun. cbn in Hrun.
      inversion Hrun; subst; clear Hrun.
      exists [PrintLine LnNoYouTubeClient]. search_leaf. intros _ H. now destruct H.
  - unfold ret in Hrun. inversion Hrun; subst; clear Hrun.
    exists []. search_leaf; try discriminate. now rewrite app_nil_r.
Qed.

End SearchProofs.

(** ** Rules for [does] *)

Lemma saved_app (a b : list Event) (o : option Document) :
  saved (a ++ b) o = saved b (saved a o).
Proof.
  revert o. induction a as [|e a IH]; intros o; cbn; [reflexivity |].
  destruct e; apply IH.
Qed.

Lemma does_ret {A} (a : A) (Q : A -> list Event -> Prop) :
  Q a [] -> does (ret a) Q.
Proof.
  intros H w. exists []. cbn. rewrite app_nil_r. auto.
Qed.

Lemma does_bind {A B} (m : M A) (k : A -> M B) (Q1 : A -> list Event -> Prop)
    (Q : B -> list Event -> Prop) :
  does m Q1 ->
  (forall a c1, Q1 a c1 -> does (k a) (fun b c2 => Q b (c1 ++ c2))) ->
  does (bind m k) Q.
Proof.
  intros Hm Hk w. unfold bind.
  destruct (Hm w) as (c1 & Ht1 & Ho1 & H1).
  destruct (m w) as [a w1]. cbn in *.
  destruct (Hk a c1 H1 w1) as (c2 & Ht2 & Ho2 & H2).
  exists (c1 ++ c2). rewrite Ht2, Ht1, Ho2, Ho1, saved_app, app_assoc. auto.
Qed.

Lemma does_conseq {A} (m : M A) (Q Q' : A -> list Event -> Prop) :
  does m Q -> (forall a c, Q a c -> Q' a c) -> does m Q'.
Proof.
  intros Hm HQ w. destruct (Hm w) as (c & Ht & Ho & H). exists c. auto.
Qed.

Lemma does_bind_assoc {A B C} (m : M A) (k1 : A -> M B) (k2 : B -> M C)
    (Q : C -> list Event -> Prop) :
  does (bind m (fun a => bind (k1 a) k2)) Q -> does (bind (bind m k1) k2) Q.
Proof.
  intros H w. specialize (H w). unfold bind in *.
  destruct (m w) as [a w1]. exact H.
Qed.

Lemma does_emit (e : Event) (Q : unit -> list Event -> Prop) :
  is_save e = false -> Q tt [e] -> does (emit e) Q.
Proof.
  intros He H w. exists [e]. cbn. destruct e; try discriminate; auto.
Qed.

Lemma does_emit_bind {B} (e : Event) (k : unit -> M B)
    (Q : B -> list Event -> Prop) :
  is_save e = false ->
  does (k tt) (fun b c => Q b (e :: c)) ->
  does (bind (emit e) k) Q.
Proof.
  intros He H. apply does_bind with (Q1 := fun _ c => c = [e]).
  - now apply does_emit.
  - intros [] c1 ->. exact H.
Qed.

Lemma does_save_bind {B} (d : Document) (k : unit -> M B)
    (Q : B -> list Event -> Prop) :
  does (k tt) (fun b c => Q b (SaveJsonFile d :: c)) ->
  does (bind (save_json_file d) k) Q.
Proof.
  intros H. apply does_bind with (Q1 := fun _ c => c = [SaveJsonFile d]).
  - intros w. exists [SaveJsonFile d]. cbn. auto.
  - intros [] c1 ->. exact H.
Qed.

Lemma does_gets_bind {A B} (f : World -> A) (k : A -> M B)
    (Q : B -> list Event -> Prop) :
  (forall a, does (k a) Q) -> does (bind (gets f) k) Q.
Proof.
  intros H. apply does_bind with (Q1 := fun _ c => c = []).
  - intros w. exists []. cbn. rewrite app_nil_r. auto.
  - intros a c1 ->. apply H.
Qed.

Lemma does_stop_bind {B} (env : Env) (k : bool -> M B)
    (Q : B -> list Event -> Prop) :
  (forall b, does (k b) (fun r c => Q r (StopEventIsSet b :: c))) ->
  does (bind (stop_event_is_set env) k) Q.
Proof.
  intros H. apply does_bind with (Q1 := fun b c => c = [StopEventIsSet b]).
  - intros w. eexists. cbn. auto.
  - intros b c1 ->. apply H.
Qed.

Lemma does_set_groq_bind {B} (i : nat) (key : string) (k : unit -> M B)
    (Q : B -> list Event -> Prop) :
  does (k tt) Q -> does (bind (set_groq_client i key) k) Q.
Proof.
  intros H. apply does_bind with (Q1 := fun _ c => c = []).
  - intros w. exists []. cbn. rewrite app_nil_r. auto.
  - intros [] c1 ->. exact H.
Qed.

Lemma does_set_youtube_bind {B} (i : nat) (key : string) (k : unit -> M B)
    (Q : B -> list Event -> Prop) :
  does (k tt) Q -> does (bind (set_youtube_client i key) k) Q.
Proof.
  intros H. apply does_bind with (Q1 := fun _ c => c = []).
  - intros w. exists []. cbn. rewrite app_nil_r. auto.
  - intros [] c1 ->. exact H.
Qed.

Lemma does_chat_bind {B} (env : Env) (msgs : list Message) (mt : option nat)
    (k : GroqResponse -> M B) (Q : B -> list Event -> Prop) :
  does (k GroqException) Q ->
  (forall key r, does (k r) (fun b c => Q b (GroqCreate key msgs mt r :: c))) ->
  does (bind (chat_completions_create env msgs mt) k) Q.
Proof.
  intros H0 H.
  apply does_bind with
    (Q1 := fun r c => (r = GroqException /\ c = []) \/
                      exists key, c = [GroqCreate key msgs mt r]).
  - intros w. unfold chat_completions_create. destruct (client w) as [key|].
    + eexists. cbn. eauto.
    + exists []. cbn. rewrite app_nil_r. auto.
  - intros r c1 [[-> ->] | [key ->]]; [exact H0 | apply H].
Qed.

Lemma does_search_bind {B} (env : Env) (query : string)
    (k : YouTubeResponse -> M B) (Q : B -> list Event -> Prop) :
  does (k YouTubeException) Q ->
  (forall key r, does (k r) (fun b c => Q b (YouTubeSearch key query r :: c))) ->
  does (bind (youtube_search_execute env query) k) Q.
Proof.
  intros H0 H.
  apply does_bind with
    (Q1 := fun r c => (r = YouTubeException /\ c = []) \/
                      exists key, c = [YouTubeSearch key query r]).
  - intros w. unfold youtube_search_execute. destruct (youtube w) as [key|].
    + eexists. cbn. eauto.
    + exists []. cbn. rewrite app_nil_r. auto.
  - intros r c1 [[-> ->] | [key ->]]; [exact H0 | apply H].
Qed.

(** One step of a proof of [does]: the first statement of the program is
    consumed and its event is pushed on the chunk of the postcondition. *)
Ltac does_step :=
  lazymatch goal with
  | |- does (bind (bind _ _) _) _ => apply does_bind_assoc
  | |- does (bind (print _) _) _ =>
      unfold print at 1; apply does_emit_bind; [reflexivity |]
  | |- does (bind (log_put _) _) _ =>
      unfold log_put at 1; apply does_emit_bind; [reflexivity |]
  | |- does (bind (sleep _) _) _ =>
      unfold sleep at 1; apply does_emit_bind; [reflexivity |]
  | |- does (bind (emit _) _) _ => apply does_emit_bind; [reflexivity |]
  | |- does (bind (save_json_file _) _) _ => apply does_save_bind
  | |- does (bind (gets _) _) _ => apply does_gets_bind; intro
  | |- does (bind (stop_event_is_set _) _) _ => apply does_stop_bind; intro
  | |- does (bind (set_groq_client _ _) _) _ => apply does_set_groq_bind
  | |- does (bind (set_youtube_client _ _) _) _ => apply does_set_youtube_bind
  | |- does (ret _) _ => apply does_ret
  | |- does (print _) _ => unfold print; apply does_emit; [reflexivity |]
  | |- does (log_put _) _ => unfold log_put; apply does_emit; [reflexivity |]
  | |- does (sleep _) _ => unfold sleep; apply does_emit; [reflexivity |]
  | |- does (if ?c then _ else _) _ => destruct c eqn:?
  | |- does (bind (if ?c then _ else _) _) _ => destruct c eqn:?
  | |- does (match ?x with _ => _ end) _ => destruct x eqn:?
  | |- does (bind (match ?x with _ => _ end) _) _ => destruct x eqn:?
  end.

Ltac does_steps := repeat does_step.

(** The two clients add neither an assignment nor a save. *)

Lemma switch_groq_api_key_does :
  does switch_groq_api_key (fun _ c => Forall (fun e => is_log e = true) c).
Proof.
  unfold switch_groq_api_key. does_steps; repeat constructor.
Qed.

Lemma switch_youtube_key_does :
  does switch_youtube_key (fun _ c => Forall (fun e => is_log e = true) c).
Proof.
  unfold switch_youtube_key. does_steps; repeat constructor.
Qed.

Lemma log_groq_event msgs mt e : is_log e = true -> groq_event msgs mt e.
Proof. destruct e; cbn; auto; discriminate. Qed.

Lemma log_youtube_event query e : is_log e = true -> youtube_event query e.
Proof. destruct e; cbn; auto; discriminate. Qed.

Lemma log_quiet e : is_log e = true -> quiet e.
Proof. destruct e; cbn; auto; discriminate. Qed.

Lemma groq_event_quiet msgs mt e : groq_event msgs mt e -> quiet e.
Proof. destruct e; cbn; auto. Qed.

Lemma youtube_event_quiet query e : youtube_event query e -> quiet e.
Proof. destruct e; cbn; auto. Qed.

(** Splitting a goal [Forall P l] along the conses and appends of [l]. *)
Ltac forall_split :=
  repeat match goal with
         | |- Forall _ [] => constructor
         | |- Forall _ (_ :: _) => constructor
         | |- Forall _ (_ ++ _) => apply Forall_app; split
         end.

Lemma generate_attempts_does env msgs mt n : forall k,
  does (generate_attempts env n k msgs mt)
       (fun _ c => Forall (groq_event msgs mt) c).
Proof.
  induction n as [|n IH]; intros k; cbn [generate_attempts].
  - does_steps. forall_split. exact I.
  - assert (Hrec : forall k' pre,
               Forall (groq_event msgs mt) pre ->
               does (generate_attempts env n k' msgs mt)
                    (fun _ c => Forall (groq_event msgs mt) (pre ++ c))).
    { intros k' pre Hpre. apply does_conseq with (1 := IH k').
      intros ? c Hc; cbn beta in Hc. apply Forall_app. auto. }
    apply does_chat_bind.
    + does_steps. apply (Hrec _ [_; _]). forall_split; exact I.
    + intros key r. destruct r as [text| |].
      * does_steps. forall_split; cbn; auto.
      * do 4 does_step.
        eapply does_bind; [apply switch_groq_api_key_does |].
        intros ? c1 Hc1; cbn beta in Hc1. does_steps.
        -- apply does_conseq with (1 := IH 0). intros ? c Hc; cbn beta in Hc.
           forall_split; cbn; auto.
           eapply Forall_impl; [exact Hc1 |]. apply log_groq_event.
        -- apply does_conseq with (1 := IH (k + 1)). intros ? c Hc; cbn beta in Hc.
           forall_split; cbn; auto.
           eapply Forall_impl; [exact Hc1 |]. apply log_groq_event.
      * does_steps. apply does_conseq with (1 := IH k). intros ? c Hc; cbn beta in Hc.
        forall_split; cbn; auto.
Qed.

Lemma generate_with_retry_does env msgs N mt :
  does (generate_with_retry env msgs N mt)
       (fun _ c => Forall (groq_event msgs mt) c).
Proof.
  unfold generate_with_retry. apply does_gets_bind. intros [key|].
  - apply generate_attempts_does.
  - does_steps. forall_split. exact I.
Qed.

Lemma search_attempts_does env query n :
  does (search_attempts env n query)
       (fun _ c => Forall (youtube_event query) c).
Proof.
  induction n as [|n IH]; cbn [search_attempts].
  - does_steps. forall_split. exact I.
  - apply does_search_bind.
    + does_steps. forall_split; exact I.
    + intros key r. destruct r as [[|item items]|status|].
      * does_steps. forall_split; cbn; auto.
      * does_steps. forall_split; cbn; auto.
      * destruct (auth_or_quota status).
        -- do 3 does_step. destruct (1 <? length a0).
           ++ eapply does_bind; [apply switch_youtube_key_does |].
              intros ? c1 Hc1; cbn beta in Hc1. apply does_conseq with (1 := IH).
              intros ? c Hc; cbn beta in Hc. forall_split; cbn; auto.
              eapply Forall_impl; [exact Hc1 |]. apply log_youtube_event.
           ++ does_steps. forall_split; cbn; auto.
        -- does_steps. forall_split; cbn; auto.
      * does_steps. forall_split; cbn; auto.
Qed.

Lemma search_youtube_video_does env query :
  does (search_youtube_video env query)
       (fun _ c => Forall (youtube_event query) c).
Proof.
  unfold search_youtube_video. destruct (negb (PyStr.truthy query)).
  - does_steps. constructor.
  - apply does_gets_bind. intros [key|].
    + apply does_gets_bind. intros keys. apply search_attempts_does.
    + does_steps. forall_split. exact I.
Qed.

Lemma does_ret_bind {A B} (a : A) (k : A -> M B) (Q : B -> list Event -> Prop) :
  does (k a) Q -> does (bind (ret a) k) Q.
Proof. intros H w. exact (H w). Qed.

(** ** The snapshot discipline *)












Lemma get_youtube_search_query_does env question_text :
  does (get_youtube_search_query env question_text)
       (fun _ c => Forall (groq_event (query_messages question_text) None) c).
Proof. apply generate_with_retry_does. Qed.

Lemma get_detailed_solution_does env question_text unit_title marks_history :
  does (get_detailed_solution env question_text unit_title marks_history)
       (fun _ c =>
          Forall (groq_event
                    (solution_messages question_text unit_title marks_history)
                    (Some 4096)) c).
Proof. apply generate_with_retry_does. Qed.

(** A step of a proof of [does] for the walker: the calls of the clients
    are consumed with what is known of their events. *)
Ltac walker_step :=
  lazymatch goal with
  | |- does (bind (get_youtube_search_query _ _) _) _ =>
      eapply does_bind; [apply get_youtube_search_query_does | intros ? ? ?]
  | |- does (bind (get_detailed_solution _ _ _ _) _) _ =>
      eapply does_bind; [apply get_detailed_solution_does | intros ? ? ?]
  | |- does (bind (search_youtube_video _ _) _) _ =>
      eapply does_bind; [apply search_youtube_video_does | intros ? ? ?]
  | |- does (bind (assign_video _ _ _ _) _) _ => unfold assign_video at 1
  | |- does (bind (assign_solution _ _ _ _) _) _ => unfold assign_solution at 1
  | |- does (bind (ret _) _) _ => apply does_ret_bind
  | _ => does_step
  end.







Lemma print_anomalies_does l :
  does (print_anomalies l) (fun _ c => Forall (fun e => is_log e = true) c).
Proof.
  induction l as [|a l IH]; cbn [print_anomalies].
  - walker_step. constructor.
  - walker_step. apply does_conseq with (1 := IH).
    intros ? c Hc. constructor; [reflexivity | assumption].
Qed.



(** ** The outcome of the video step *)

Lemma searches_app a b : searches (a ++ b) = searches a ++ searches b.
Proof.
  induction a as [|e a IH]; cbn; [reflexivity |].
  destruct e; cbn; now rewrite ?IH.
Qed.

Lemma searches_groq msgs mt c :
  Forall (groq_event msgs mt) c -> searches c = [].
Proof.
  induction 1 as [|e c He _ IH]; cbn; [reflexivity |].
  destruct e; cbn in *; auto; contradiction.
Qed.

Lemma saved_quiet c o : Forall quiet c -> saved c o = o.
Proof.
  induction 1 as [|e c He _ IH]; cbn; [reflexivity |].
  destruct e; cbn in *; auto; contradiction.
Qed.

Lemma saved_groq msgs mt c o : Forall (groq_event msgs mt) c -> saved c o = o.
Proof.
  intros H. apply saved_quiet. eapply Forall_impl; [exact H |].
  apply groq_event_quiet.
Qed.

Lemma saved_youtube query c o : Forall (youtube_event query) c -> saved c o = o.
Proof.
  intros H. apply saved_quiet. eapply Forall_impl; [exact H |].
  apply youtube_event_quiet.
Qed.

Lemma search_youtube_video_result env query :
  does (search_youtube_video env query)
       (fun r c => Forall (youtube_event query) c /\
                   r = video_of_response query (last (searches c))).
Proof.
  intros w. destruct (search_youtube_video_does env query w) as (c & Ht & Ho & Hc).
  exists c. repeat split; try assumption.
  destruct (search_youtube_video_post env query w
              (fst (search_youtube_video env query w))
              (snd (search_youtube_video env query w))) as (c' & P & _).
  { now destruct (search_youtube_video env query w). }
  destruct P. rewrite sp_trace0 in Ht. apply app_inv_head in Ht. subst c'.
  assumption.
Qed.

Ltac quiet_solve :=
  cbn beta in *;
  forall_split;
  try solve
    [ exact I
    | eapply Forall_impl; [eassumption |]; apply groq_event_quiet
    | eapply Forall_impl; [eassumption |]; apply youtube_event_quiet ].

Ltac walker_step_before_search :=
  lazymatch goal with
  | |- does (bind (search_youtube_video _ _) _) _ => fail
  | _ => walker_step
  end.

Ltac rewrite_chunks :=
  repeat match goal with
         | H : Forall (groq_event _ _) ?c |- _ =>
             progress rewrite ?(searches_groq _ _ _ H), ?(saved_groq _ _ _ _ H)
         | H : Forall (youtube_event _) ?c |- _ =>
             progress rewrite ?(saved_youtube _ _ _ H)
         | |- _ => progress rewrite ?searches_app, ?saved_app
         | |- _ => progress cbn [searches saved app]
         end.

Ltac in_solve :=
  repeat first [ apply in_eq | apply in_cons | apply in_or_app; right ].

(** ** Questions are kept *)























(** ** The text the generation client returns *)

Lemma generated_after msgs mt (pre : list Event) r c :
  Forall (groq_event msgs mt) pre ->
  count is_completion pre = 0 ->
  generated msgs mt r c -> generated msgs mt r (pre ++ c).
Proof.
  intros Hpre H0 [Hc Hr]. split; [apply Forall_app; auto |].
  destruct r as [s|].
  - destruct Hr as (p & key & text & -> & -> & Hp).
    exists (pre ++ p), key, text. rewrite app_assoc, count_app. repeat split; lia.
  - rewrite count_app. lia.
Qed.

Lemma generated_cons msgs mt e r c :
  groq_event msgs mt e -> is_completion e = false ->
  generated msgs mt r c -> generated msgs mt r (e :: c).
Proof.
  intros He H0 H. apply (generated_after msgs mt [e]); auto.
  cbn. now rewrite H0.
Qed.

Ltac generated_solve :=
  repeat first
    [ apply generated_cons; [cbn; auto | reflexivity |]
    | apply generated_after; [assumption | assumption |] ];
  try assumption.

Lemma generate_attempts_generated env msgs mt n : forall k,
  does (generate_attempts env n k msgs mt) (generated msgs mt).
Proof.
  induction n as [|n IH]; intros k; cbn [generate_attempts].
  - does_steps. split; [forall_split; exact I | reflexivity].
  - apply does_chat_bind.
    + does_steps. apply does_conseq with (1 := IH k). intros r c Hc.
      generated_solve.
    + intros key r. destruct r as [text| |].
      * does_steps. split; [forall_split; cbn; auto |].
        exists [], key, text. auto.
      * do 4 does_step.
        eapply does_bind; [apply switch_groq_api_key_does |].
        intros ? c1 Hc1; cbn beta in Hc1.
        assert (Hq1 : Forall (groq_event msgs mt) c1).
        { eapply Forall_impl; [exact Hc1 |]. apply log_groq_event. }
        assert (H01 : count is_completion c1 = 0).
        { clear -Hc1. induction Hc1 as [|e c He _ IH]; cbn; [reflexivity |].
          destruct e; cbn in *; auto; discriminate. }
        does_steps.
        -- apply does_conseq with (1 := IH 0). intros r c Hc. generated_solve.
        -- apply does_conseq with (1 := IH (k + 1)). intros r c Hc.
           generated_solve.
      * does_steps. apply does_conseq with (1 := IH k). intros r c Hc.
        generated_solve.
Qed.

Lemma generate_with_retry_generated env msgs N mt :
  does (generate_with_retry env msgs N mt) (generated msgs mt).
Proof.
  unfold generate_with_retry. apply does_gets_bind. intros [key|].
  - apply generate_attempts_generated.
  - does_steps. split; [forall_split; exact I | reflexivity].
Qed.

Lemma get_detailed_solution_generated env question_text unit_title marks_history :
  does (get_detailed_solution env question_text unit_title marks_history)
       (generated (solution_messages question_text unit_title marks_history)
          (Some 4096)).
Proof. apply generate_with_retry_generated. Qed.

(** ** The outcome of the video step *)

Ltac outcome_open gen :=
  eexists _, gen, false, _;
  (split; [cbn [app]; rewrite <- ?app_assoc; cbn [app]; reflexivity |]);
  (split; [eassumption |]);
  cbn [fst snd]; (split; [reflexivity |]);
  try match goal with H : PyStr.truthy _ = _ |- _ => rewrite H end.

Lemma video_step_outcome env u_idx q_idx counter q_text f :
  does (video_step env u_idx q_idx counter q_text f)
       (video_outcome u_idx q_idx counter q_text f).
Proof.
  unfold video_step, video_outcome.
  destruct (video_truthy (question f)); cbn [negb].
  - does_steps. auto.
  - do 3 does_step.
    eapply does_bind;
      [unfold get_youtube_search_query; apply generate_with_retry_generated |].
    intros query gen Hgen. apply does_stop_bind. intros [|].
    + apply does_ret. exists query, gen, true, [].
      split; [reflexivity | split; [assumption | repeat split]].
    + repeat walker_step_before_search.
      2, 3: outcome_open gen; repeat split.
      eapply does_bind; [apply search_youtube_video_result |].
      intros v search [Hs Hv]. subst v.
      destruct (video_of_response s (last (searches search))) as [found|] eqn:Ev;
        repeat walker_step; outcome_open gen;
        exists search; cbv zeta; rewrite Ev; repeat split; assumption.
Qed.

(** ** The outcome of the solution step *)

Ltac walker_step_before_solution :=
  lazymatch goal with
  | |- does (bind (get_detailed_solution _ _ _ _) _) _ => fail
  | _ => walker_step
  end.

Lemma solution_step_outcome env u_idx q_idx counter q_text unit_title f anoms :
  does (solution_step env u_idx q_idx counter q_text unit_title f anoms)
       (solution_outcome u_idx q_idx counter q_text unit_title f anoms).
Proof.
  unfold solution_step, solution_outcome.
  destruct (FORCE_REGENERATE_SOLUTIONS || negb (solution_truthy (question f))).
  - repeat walker_step_before_solution.
    all: (eapply does_bind; [apply get_detailed_solution_generated |]);
      intros text gen Hgen; apply does_stop_bind; intros [|];
      [ apply does_ret; exists text, gen, true, [];
        split; [reflexivity | split; [assumption | repeat split]]
      | repeat walker_step; outcome_open gen; cbv zeta;
        try match goal with
            | H : (anomaly_threshold <? _) = _ |- _ => rewrite H
            end;
        repeat split ].
  - does_steps. repeat split.
Qed.

(** * The properties of the specification *)

Section Specification.
Local Open Scope string_scope.
Local Open Scope list_scope.
Local Open Scope nat_scope.

(** C6.  A rotator (the Groq one or the YouTube one) with a credential
    list of length [L >= 1] and its cursor in [0, L): after any number
    of calls the cursor is still in [0, L); one more call moves the
    cursor [i] to [(i + 1) mod L] and builds the client on the key at
    the new cursor; [L] calls bring the cursor, and so the key, back. *)
Theorem rotator_cyclic (s : Service) (w : World)
    (HL : 1 <= length (keys_of s w))
    (Hi : cursor_of s w < length (keys_of s w)) :
  let L := length (keys_of s w) in
  forall n,
    let wn := Nat.iter n (advance s) w in
    cursor_of s wn < L /\
    cursor_of s (advance s wn) = (cursor_of s wn + 1) mod L /\
    client_of s (advance s wn) = Some (key_at s (advance s wn)) /\
    cursor_of s (Nat.iter L (advance s) wn) = cursor_of s wn /\
    key_at s (Nat.iter L (advance s) wn) = key_at s wn.
Proof.
  intros L n wn.
  assert (Hne : keys_of s w <> [])
    by (destruct (keys_of s w); cbn in HL; [lia | discriminate]).
  destruct (advance_iter s n w Hne Hi) as [Hk Hn]. fold wn in Hk, Hn.
  assert (Hlt : cursor_of s wn < L).
  { rewrite Hn. apply Nat.mod_upper_bound. unfold L. lia. }
  assert (Hne' : keys_of s wn <> []) by now rewrite Hk.
  destruct (advance_step s wn Hne') as (_ & Hs & Hc).
  destruct (advance_iter s L wn Hne') as [HkL HiL]; [now rewrite Hk |].
  rewrite Hk in Hs, HiL. fold L in Hs, HiL.
  assert (Hback : cursor_of s (Nat.iter L (advance s) wn) = cursor_of s wn).
  { rewrite HiL. now apply mod_cycle. }
  repeat split; try assumption.
  unfold key_at. now rewrite HkL, Hback.
Qed.

(** The Groq rotator of a module loaded with three keys, two calls after
    the start: three more calls bring it back to the third key. *)
Lemma rotator_cyclic_witness :
  let w := load_module ["k1"; "k2"; "k3"] ["y1"; "y2"] in
  (1 <= length (keys_of Groq w) /\
   cursor_of Groq w < length (keys_of Groq w)) /\
  cursor_of Groq (Nat.iter 3 (advance Groq) (Nat.iter 2 (advance Groq) w)) =
    cursor_of Groq (Nat.iter 2 (advance Groq) w) /\
  key_at Groq (Nat.iter 3 (advance Groq) (Nat.iter 2 (advance Groq) w)) =
    key_at Groq (Nat.iter 2 (advance Groq) w) /\
  key_at Groq (Nat.iter 2 (advance Groq) w) = "k3".
Proof.
  intros w.
  assert (H1 : 1 <= length (keys_of Groq w)) by (cbn; lia).
  assert (H2 : cursor_of Groq w < length (keys_of Groq w)) by (cbn; lia).
  split; [auto |].
  destruct (rotator_cyclic Groq w H1 H2 2) as (_ & _ & _ & Ha & Hb).
  split; [exact Ha |]. split; [exact Hb | reflexivity].
Defined.

(** C2, amended.  A call of [generate_with_retry] with [N] attempts ([N]
    is 10 by default) in a world where a client exists only if a key is
    configured.  With no client it returns [None] at once.  Otherwise it
    makes at most [N] requests; every rate limit is followed by one
    rotation, so the cursor moves by the number [R] of rate limits and
    by nothing else; the sleeps after rate limits are of 20 s or 1 s,
    with one cooldown of 20 s for every [L] rate limits counted from the
    start of the call; every other error is followed by a sleep of 5 s
    and these are all the sleeps; it returns [None] when all the [N]
    requests were made and none gave a text, and otherwise the stripped
    text of the last request. *)
Theorem generate_with_retry_policy (env : Env) (msgs : list Message) (N : nat)
    (mt : option nat) (w : World)
    (Hwf : client w <> None -> GROQ_API_KEYS w <> []) :
  let r := fst (generate_with_retry env msgs N mt w) in
  let w' := snd (generate_with_retry env msgs N mt w) in
  let L := length (GROQ_API_KEYS w) in
  default_max_retries = 10 /\
  exists chunk,
    trace w' = trace w ++ chunk /\
    match client w with
    | None => r = None /\ chunk = [PrintLine LnNoGroqClient]
    | Some _ =>
        let R := count is_rate_limited chunk in
        let cooldowns := count (is_sleep_of 20) chunk in
        count is_groq_create chunk <= N /\
        count is_groq_switch chunk = R /\
        current_groq_key_index w' =
          (if R =? 0 then current_groq_key_index w
           else (current_groq_key_index w + R) mod L) /\
        cooldowns + count (is_sleep_of 1) chunk = R /\
        L * cooldowns <= R < L * cooldowns + L /\
        count (is_sleep_of 5) chunk = count is_groq_exception chunk /\
        count is_sleep chunk = R + count is_groq_exception chunk /\
        match r with
        | None =>
            count is_groq_create chunk = N /\ count is_completion chunk = 0
        | Some s =>
            exists pre key text,
              chunk = pre ++ [GroqCreate key msgs mt (Completion text)] /\
              s = PyStr.strip text /\ count is_completion pre = 0
        end
    end.
Proof.
  intros r w' L. split; [reflexivity |].
  destruct (client w) as [key|] eqn:Hc.
  - assert (Hk : GROQ_API_KEYS w <> []) by (apply Hwf; discriminate).
    destruct (generate_with_retry_post env msgs N mt w r w') as [chunk P].
    { congruence. }
    { assumption. }
    { unfold r, w'. now destruct (generate_with_retry env msgs N mt w). }
    destruct P. exists chunk. destruct ap_cool0 as (k' & Hk' & Hcool).
    fold L in Hk', Hcool.
    repeat split; try assumption; try lia.
  - exists [PrintLine LnNoGroqClient]. unfold r, w'.
    rewrite generate_with_retry_no_client by assumption. cbn. auto.
Qed.

(** Two keys; the service answers a rate limit, a rate limit, an error
    and then a text. *)
Lemma generate_with_retry_policy_witness :
  let env := scripted [RateLimitError; RateLimitError; GroqException;
                       Completion " a query "] [] [] in
  let w := load_module ["k1"; "k2"] [] in
  (client w <> None -> GROQ_API_KEYS w <> []) /\
  fst (generate_with_retry env (query_messages "What is X?") 10 None w) =
    Some "a query" /\
  exists chunk,
    trace (snd (generate_with_retry env (query_messages "What is X?") 10 None w)) =
      trace w ++ chunk /\
    count is_groq_create chunk = 4 /\
    count (is_sleep_of 20) chunk = 1 /\
    count (is_sleep_of 1) chunk = 1 /\
    count (is_sleep_of 5) chunk = 1.
Proof.
  intros env w.
  assert (Hwf : client w <> None -> GROQ_API_KEYS w <> []) by (intros _; discriminate).
  split; [exact Hwf |]. split; [vm_compute; reflexivity |].
  destruct (generate_with_retry_policy env (query_messages "What is X?") 10 None w Hwf)
    as (_ & chunk & Ht & _).
  exists chunk. split; [exact Ht |].
  vm_compute in Ht. apply app_inv_head with (l := []) in Ht. subst chunk.
  vm_compute. auto.
Defined.

(** C2 as stated fails: with no key configured the call returns [None]
    and has made none of the ten attempts. *)
Lemma generate_with_retry_none_without_attempts :
  let env := scripted [Completion "text"] [] [] in
  let w := load_module [] [] in
  let run := generate_with_retry env (query_messages "What is X?")
               default_max_retries None w in
  ~ (fst run = None ->
     count is_groq_create (trace (snd run)) = default_max_retries).
Proof.
  intros env w run H. specialize (H eq_refl). vm_compute in H. discriminate.
Qed.

(** C10.  With no Groq client, [generate_with_retry] returns [None] and
    all it does is print one line: no request, no sleep, no rotation,
    whatever the messages, the number of attempts and the services. *)
Theorem generate_with_retry_without_client (env : Env) (msgs : list Message)
    (N : nat) (mt : option nat) (w : World) (Hc : client w = None) :
  let r := fst (generate_with_retry env msgs N mt w) in
  let w' := snd (generate_with_retry env msgs N mt w) in
  r = None /\
  trace w' = trace w ++ [PrintLine LnNoGroqClient] /\
  groq_requests w' = groq_requests w /\
  current_groq_key_index w' = current_groq_key_index w /\
  client w' = None /\
  count is_groq_create (trace w') = count is_groq_create (trace w) /\
  count is_sleep (trace w') = count is_sleep (trace w) /\
  count is_groq_switch (trace w') = count is_groq_switch (trace w).
Proof.
  intros r w'. unfold r, w'.
  rewrite generate_with_retry_no_client by assumption. cbn.
  rewrite !count_app. cbn. repeat split; auto.
Qed.

Lemma generate_with_retry_without_client_witness :
  let env := scripted [Completion "text"] [] [] in
  let w := load_module [] ["y1"] in
  client w = None /\
  fst (generate_with_retry env (query_messages "What is X?") 10 None w) = None /\
  trace (snd (generate_with_retry env (query_messages "What is X?") 10 None w)) =
    [PrintLine LnNoGroqClient].
Proof.
  intros env w.
  assert (Hc : client w = None) by reflexivity.
  split; [exact Hc |].
  destruct (generate_with_retry_without_client env (query_messages "What is X?")
              10 None w Hc) as (Hr & Ht & _).
  split; [exact Hr | exact Ht].
Defined.


(** C1, amended.  When the [video] field of the question holds a video,
    the video step is skipped: it prints one line and does nothing else,
    so no query is generated, the video-search client is not called, and
    the question and the document are as they were. *)
Theorem video_step_skips_found_video (env : Env) (u_idx q_idx counter : nat)
    (q_text : string) (f : Focus) (w : World) (v : VideoRef)
    (Hv : video (question f) = Some (Some v)) :
  let r := fst (video_step env u_idx q_idx counter q_text f w) in
  let w' := snd (video_step env u_idx q_idx counter q_text f w) in
  r = (Continue, f, false) /\
  trace w' = trace w ++ [PrintLine LnVideoExists] /\
  groq_requests w' = groq_requests w /\
  youtube_requests w' = youtube_requests w /\
  output_file w' = output_file w.
Proof.
  intros r w'. unfold r, w', video_step, video_truthy, get_video.
  rewrite Hv. cbn. auto.
Qed.

Lemma video_step_skips_found_video_witness :
  let f := {| question := sample_question (Some (Some sample_video)) None;
              data := single (sample_question (Some (Some sample_video)) None) |} in
  let env := scripted [Completion "a query"] [SearchItems [sample_item]] [] in
  let w := load_module ["k1"] ["y1"] in
  video (question f) = Some (Some sample_video) /\
  fst (video_step env 0 0 1 "What is X?" f w) = (Continue, f, false) /\
  trace (snd (video_step env 0 0 1 "What is X?" f w)) = [PrintLine LnVideoExists].
Proof.
  intros f env w.
  assert (Hv : video (question f) = Some (Some sample_video)) by reflexivity.
  split; [exact Hv |].
  destruct (video_step_skips_found_video env 0 0 1 "What is X?" f w sample_video Hv)
    as (Hr & Ht & _).
  split; [exact Hr | exact Ht].
Defined.

(** C1 as stated fails: a question whose [video] field holds the
    explicit null is searched again.  The walk of a bank with one such
    question generates a query and calls the video-search client. *)
Lemma null_video_is_searched_again :
  let q := sample_question (Some None) None in
  let env := scripted [Completion "a query"; Completion "a solution"]
               [SearchItems [sample_item]] [] in
  let w' := snd (process_subject env (single q) (load_module ["k1"] ["y1"])) in
  video q <> None /\
  count is_youtube_search (trace w') = 1 /\
  List.filter is_groq_create (trace w') =
    [ GroqCreate "k1" (query_messages "What is X?") None (Completion "a query");
      GroqCreate "k1" (solution_messages "What is X?" "Unit one" []) (Some 4096)
        (Completion "a solution") ].
Proof.
  intros q env w'. split; [discriminate |]. split; vm_compute; reflexivity.
Qed.



(** C4 fails on the code.  The stop flag is set while the query of the
    first question is generated: at the next checkpoint the walker
    returns the document, and the queue holds no status record. *)
Lemma cancelled_walk_emits_no_status :
  let q := sample_question None None in
  let env := scripted [Completion "a query"] [] [false; false; true] in
  let run := process_subject env (single q) (load_module ["k1"] ["y1"]) in
  fst run = single q /\
  count is_status (log_queue (snd run)) = 0 /\
  last (trace (snd run)) = Some (StopEventIsSet true) /\
  count is_groq_create (trace (snd run)) = 1.
Proof.
  intros q env run. repeat split; vm_compute; reflexivity.
Qed.


(** C8.  When the generation client returns a non-empty text, the
    solution step stores it on the question whatever its length and
    saves the document, and it records the text as an anomaly (an entry
    of the anomaly list and a record on the queue) exactly when its
    number of characters exceeds 8000.  A walk whose generated solution
    has 8001 characters stores it and flags it; one whose solution has
    8000 characters stores it and does not flag it, also when one of the
    characters takes two bytes. *)
Theorem anomaly_flagging (env : Env) (u_idx q_idx counter : nat)
    (q_text unit_title : string) (f : Focus) (anoms : list Anomaly) :
  does (solution_step env u_idx q_idx counter q_text unit_title f anoms)
       (solution_outcome u_idx q_idx counter q_text unit_title f anoms) /\
  anomaly_threshold = 8000 /\
  let walk text :=
    process_subject (scripted [Completion text] [] [])
      (single (sample_question (Some (Some sample_video)) None))
      (load_module ["k1"] []) in
  let flagged text n :=
    solution_at (fst (walk text)) 0 0 = Some text /\
    count is_anomaly_record (trace (snd (walk text))) = 1 /\
    List.filter is_anomaly_line (trace (snd (walk text))) =
      [PrintLine (LnAnomaly {| a_unit := 1; a_question := 1; a_chars := n |})] in
  let stored text :=
    solution_at (fst (walk text)) 0 0 = Some text /\
    count is_anomaly_record (trace (snd (walk text))) = 0 /\
    List.filter is_anomaly_line (trace (snd (walk text))) = [] in
  flagged (PyStr.repeat "a" 8001) 8001 /\
  stored (PyStr.repeat "a" 8000) /\
  flagged (PyStr.repeat "a" 8000 ++ PyStr.utf8 233)%string 8001 /\
  stored (PyStr.repeat "a" 7999 ++ PyStr.utf8 233)%string.
Proof.
  split; [apply solution_step_outcome |]. split; [reflexivity |].
  cbv zeta. repeat split; vm_compute; reflexivity.
Qed.

(** C9.  [is_comparison_question] is true exactly when the lowercased
    text contains one of the nine keywords.  The system prompt of the
    solution request is the core rules followed by the table instruction
    when the detector is true and by nothing when it is false; the core
    rules do not contain the instruction; every request the solution
    generation sends carries these messages.  A text that contains
    "difference between X and Y" triggers the detector. *)
Theorem comparison_detector (env : Env) (text unit_title : string)
    (marks_history : list Marks) :
  keywords = [ "compare"; "difference"; "distinguish"; "versus"; " vs ";
               "differentiate"; "comparison"; "similarities"; "contrast" ] /\
  (is_comparison_question text = true <->
     exists keyword, In keyword keywords /\ occurs keyword (PyStr.lower text)) /\
  solution_messages text unit_title marks_history =
    [ {| role := System;
         content := (core_rules ++
                     (if is_comparison_question text then table_instruction
                      else ""))%string |};
      {| role := User; content := user_prompt text unit_title marks_history |} ] /\
  PyStr.contains table_instruction core_rules = false /\
  does (get_detailed_solution env text unit_title marks_history)
       (fun _ chunk =>
          Forall (groq_event (solution_messages text unit_title marks_history)
                    (Some 4096)) chunk) /\
  (forall pre post,
     is_comparison_question
       (pre ++ "difference between X and Y" ++ post)%string = true).
Proof.
  split; [reflexivity |]. split; [| split; [| split; [| split]]].
  - unfold is_comparison_question. rewrite existsb_exists.
    split; intros [kw [Hin H]]; exists kw; split; try assumption;
      now apply contains_occurs.
  - reflexivity.
  - vm_compute. reflexivity.
  - apply get_detailed_solution_does.
  - intros pre post. unfold is_comparison_question. apply existsb_exists.
    exists "difference". split; [simpl; tauto |].
    apply contains_occurs. rewrite !lower_app.
    exists (PyStr.lower pre), (" between x and y" ++ PyStr.lower post)%string.
    reflexivity.
Qed.

End Specification.

(** * Further properties *)

(** ** Stripping *)

Section Stripping.
Local Open Scope string_scope.

Lemma append_assoc_s (a b c : string) : (a ++ b) ++ c = a ++ (b ++ c).
Proof. induction a as [|x a IH]; cbn; [reflexivity | now rewrite IH]. Qed.

Lemma append_nil_r (a : string) : a ++ "" = a.
Proof. induction a as [|x a IH]; cbn; [reflexivity | now rewrite IH]. Qed.

Lemma length_append (a b : string) :
  String.length (a ++ b) = String.length a + String.length b.
Proof. induction a as [|c a IH]; cbn; [reflexivity | now rewrite IH]. Qed.

Lemma starts_with_app (p s : string) :
  PyStr.starts_with p s = true <-> exists post, s = p ++ post.
Proof.
  revert s. induction p as [|c p IH]; intros s; cbn.
  - split; [intros _; now exists s | reflexivity].
  - destruct s as [|d s].
    + split; [discriminate | intros [post H]; discriminate].
    + destruct (Ascii.eqb_spec c d) as [->|Hne]; cbn.
      * rewrite IH. split; intros [post H]; exists post; congruence.
      * split; [discriminate | intros [post H]; congruence].
Qed.

Lemma skip_app p r : PyStr.skip p (p ++ r) = r.
Proof. induction p as [|c p IH]; cbn; [now destruct r | exact IH]. Qed.

Lemma drop_space_some s r :
  PyStr.drop_space s = Some r ->
  exists ws, In ws PyStr.space_chars /\ s = ws ++ r.
Proof.
  unfold PyStr.drop_space.
  destruct (find _ _) as [ws|] eqn:E; [| discriminate]. intros [= <-].
  apply find_some in E as [Hin Hp]. apply starts_with_app in Hp as [post ->].
  exists ws. now rewrite skip_app.
Qed.

Lemma drop_space_none s :
  PyStr.drop_space s = None ->
  forall ws rest, In ws PyStr.space_chars -> s <> ws ++ rest.
Proof.
  unfold PyStr.drop_space.
  destruct (find _ _) as [ws|] eqn:E; [discriminate |]. intros _ ws rest Hin ->.
  pose proof (find_none _ _ E ws Hin) as H. cbn beta in H.
  assert (Hp : PyStr.starts_with ws (ws ++ rest) = true)
    by (apply starts_with_app; now exists rest).
  congruence.
Qed.

Lemma drop_space_app ws rest :
  In ws PyStr.space_chars -> PyStr.drop_space (ws ++ rest) = Some rest.
Proof.
  intros Hin. vm_compute in Hin.
  repeat (destruct Hin as [<- | Hin]; [reflexivity |]). contradiction.
Qed.

Lemma space_char_length ws : In ws PyStr.space_chars -> 1 <= String.length ws.
Proof.
  intros Hin. vm_compute in Hin.
  repeat (destruct Hin as [<- | Hin]; [cbn; lia |]). contradiction.
Qed.

Lemma drop_space_shorter s r :
  PyStr.drop_space s = Some r -> String.length r < String.length s.
Proof.
  intros H. apply drop_space_some in H as (ws & Hin & ->).
  rewrite length_append. pose proof (space_char_length ws Hin). lia.
Qed.

Lemma lstrip_from_enough fuel1 : forall fuel2 s,
  String.length s <= String.length fuel1 ->
  String.length s <= String.length fuel2 ->
  PyStr.lstrip_from fuel1 s = PyStr.lstrip_from fuel2 s.
Proof.
  induction fuel1 as [|c fuel1 IH]; intros fuel2 s H1 H2.
  - destruct s; [| cbn in H1; lia]. now destruct fuel2.
  - destruct fuel2 as [|d fuel2].
    + destruct s; [reflexivity | cbn in H2; lia].
    + cbn [PyStr.lstrip_from]. destruct (PyStr.drop_space s) as [r|] eqn:E;
        [| reflexivity].
      apply drop_space_shorter in E. cbn in H1, H2. apply IH; lia.
Qed.

Lemma lstrip_unfold s :
  PyStr.lstrip s =
  match PyStr.drop_space s with
  | Some rest => PyStr.lstrip rest
  | None => s
  end.
Proof.
  unfold PyStr.lstrip. destruct s as [|c s]; [reflexivity |].
  cbn [PyStr.lstrip_from]. destruct (PyStr.drop_space (String c s)) as [r|] eqn:E;
    [| reflexivity].
  apply drop_space_shorter in E. cbn in E. apply lstrip_from_enough; lia.
Qed.

Lemma string_length_ind (P : string -> Prop) :
  (forall s, (forall t, String.length t < String.length s -> P t) -> P s) ->
  forall s, P s.
Proof.
  intros H s. remember (String.length s) as n eqn:En. revert s En.
  induction n as [n IH] using lt_wf_ind. intros s ->.
  apply H. intros t Ht. now apply (IH _ Ht).
Qed.

Lemma lstrip_space ws rest :
  In ws PyStr.space_chars -> PyStr.lstrip (ws ++ rest) = PyStr.lstrip rest.
Proof. intros Hin. now rewrite lstrip_unfold, drop_space_app. Qed.

Lemma lstrip_fix s : PyStr.drop_space s = None -> PyStr.lstrip s = s.
Proof. intros H. now rewrite lstrip_unfold, H. Qed.

Lemma lstrip_suffix s : exists pre, s = pre ++ PyStr.lstrip s.
Proof.
  induction s as [s IH] using string_length_ind. rewrite lstrip_unfold.
  destruct (PyStr.drop_space s) as [r|] eqn:E; [| now exists ""].
  destruct (IH r (drop_space_shorter _ _ E)) as [pre Hpre].
  apply drop_space_some in E as (ws & _ & ->).
  exists (ws ++ pre). now rewrite append_assoc_s, <- Hpre.
Qed.

Lemma lstrip_head s : PyStr.drop_space (PyStr.lstrip s) = None.
Proof.
  induction s as [s IH] using string_length_ind. rewrite lstrip_unfold.
  destruct (PyStr.drop_space s) as [r|] eqn:E; [| exact E].
  exact (IH r (drop_space_shorter _ _ E)).
Qed.

Lemma lstrip_app a b : PyStr.lstrip a = "" -> PyStr.lstrip (a ++ b) = PyStr.lstrip b.
Proof.
  induction a as [a IH] using string_length_ind. rewrite lstrip_unfold.
  destruct (PyStr.drop_space a) as [r|] eqn:E.
  - intros Hr. pose proof (drop_space_shorter _ _ E) as Hlt.
    apply drop_space_some in E as (ws & Hin & ->).
    rewrite append_assoc_s, lstrip_space by assumption. now apply IH.
  - now intros ->.
Qed.

Lemma all_space_ends t :
  PyStr.lstrip t = "" -> t <> "" ->
  exists pre ws, In ws PyStr.space_chars /\ t = pre ++ ws.
Proof.
  induction t as [t IH] using string_length_ind. rewrite lstrip_unfold.
  destruct (PyStr.drop_space t) as [r|] eqn:E; [| congruence].
  intros Hr _. pose proof (drop_space_shorter _ _ E) as Hlt.
  apply drop_space_some in E as (ws & Hin & ->).
  destruct r as [|c r].
  - exists "", ws. now rewrite append_nil_r.
  - destruct (IH _ Hlt Hr ltac:(discriminate)) as (pre & ws' & Hin' & ->).
    exists (ws ++ pre), ws'. now rewrite append_assoc_s.
Qed.

Lemma rstrip_cons c s :
  PyStr.rstrip (String c s) =
  if PyStr.all_space (String c s) then "" else String c (PyStr.rstrip s).
Proof. reflexivity. Qed.

Lemma all_space_true s : PyStr.all_space s = true <-> PyStr.lstrip s = "".
Proof. unfold PyStr.all_space. destruct (PyStr.lstrip s); split; congruence. Qed.

Lemma rstrip_decomp s :
  exists t, s = PyStr.rstrip s ++ t /\ PyStr.lstrip t = "".
Proof.
  induction s as [|c s (t & Ht & Hs)]; [now exists "" |]. rewrite rstrip_cons.
  destruct (PyStr.all_space (String c s)) eqn:E.
  - exists (String c s). split; [reflexivity | now apply all_space_true].
  - exists t. split; [cbn; now rewrite <- Ht | exact Hs].
Qed.

Lemma rstrip_prefix s : exists post, s = PyStr.rstrip s ++ post.
Proof. destruct (rstrip_decomp s) as (t & H & _). now exists t. Qed.

Lemma rstrip_idem s : PyStr.rstrip (PyStr.rstrip s) = PyStr.rstrip s.
Proof.
  induction s as [|c s IH]; [reflexivity |]. rewrite rstrip_cons.
  destruct (PyStr.all_space (String c s)) eqn:E; [reflexivity |].
  rewrite rstrip_cons, IH.
  destruct (PyStr.all_space (String c (PyStr.rstrip s))) eqn:E'; [| reflexivity].
  apply all_space_true in E'.
  destruct (rstrip_decomp s) as (t & Ht & Hs).
  assert (Hall : PyStr.lstrip (String c s) = "").
  { rewrite Ht. change (String c (PyStr.rstrip s ++ t))
      with (String c (PyStr.rstrip s) ++ t).
    now rewrite lstrip_app. }
  apply all_space_true in Hall. congruence.
Qed.

Lemma rstrip_end s pre ws :
  In ws PyStr.space_chars -> PyStr.rstrip s <> pre ++ ws.
Proof.
  intros Hin. revert pre. induction s as [|c s IH]; intros pre.
  - cbn. intros H. pose proof (space_char_length ws Hin) as Hl.
    apply (f_equal String.length) in H. rewrite length_append in H. cbn in H. lia.
  - rewrite rstrip_cons. destruct (PyStr.all_space (String c s)) eqn:E.
    + intros H. pose proof (space_char_length ws Hin) as Hl.
      apply (f_equal String.length) in H. rewrite length_append in H. cbn in H. lia.
    + intros H. destruct pre as [|d pre].
      * cbn in H. destruct (rstrip_decomp s) as (t & Ht & Hs).
        assert (Hall : PyStr.lstrip (String c s) = "").
        { rewrite Ht. change (String c (PyStr.rstrip s ++ t))
            with (String c (PyStr.rstrip s) ++ t).
          rewrite H, lstrip_space by assumption. exact Hs. }
        apply all_space_true in Hall. congruence.
      * cbn in H. injection H as _ H. exact (IH pre H).
Qed.

Lemma rstrip_head s :
  PyStr.drop_space s = None -> PyStr.drop_space (PyStr.rstrip s) = None.
Proof.
  intros H. destruct (PyStr.drop_space (PyStr.rstrip s)) as [r|] eqn:E;
    [| reflexivity].
  apply drop_space_some in E as (ws & Hin & E).
  destruct (rstrip_prefix s) as [post Hpost]. rewrite E, append_assoc_s in Hpost.
  now destruct (drop_space_none s H ws (r ++ post) Hin).
Qed.

Lemma rstrip_fix s :
  (forall pre ws, In ws PyStr.space_chars -> s <> pre ++ ws) ->
  PyStr.rstrip s = s.
Proof.
  induction s as [|c s IH]; [reflexivity |]. intros H. rewrite rstrip_cons.
  destruct (PyStr.all_space (String c s)) eqn:E.
  - apply all_space_true in E.
    destruct (all_space_ends _ E ltac:(discriminate)) as (pre & ws & Hin & Hs).
    now destruct (H pre ws Hin).
  - rewrite IH; [reflexivity |]. intros pre ws Hin ->.
    now apply (H (String c pre) ws Hin).
Qed.

Lemma strip_trimmed s : trimmed (PyStr.strip s).
Proof.
  unfold PyStr.strip. intros ws Hin. split.
  - intros rest. apply drop_space_none; [| exact Hin].
    apply rstrip_head, lstrip_head.
  - intros pre. now apply rstrip_end.
Qed.

Lemma strip_of_trimmed s : trimmed s -> PyStr.strip s = s.
Proof.
  intros H. unfold PyStr.strip.
  assert (Hl : PyStr.lstrip s = s).
  { apply lstrip_fix. destruct (PyStr.drop_space s) as [r|] eqn:E; [| reflexivity].
    apply drop_space_some in E as (ws & Hin & E).
    now destruct (proj1 (H ws Hin) r). }
  rewrite Hl. apply rstrip_fix. intros pre ws Hin. exact (proj2 (H ws Hin) pre).
Qed.

Lemma strip_idem s : PyStr.strip (PyStr.strip s) = PyStr.strip s.
Proof. apply strip_of_trimmed, strip_trimmed. Qed.

Lemma trimmed_of_strip s : PyStr.strip s = s -> trimmed s.
Proof. intros <-. apply strip_trimmed. Qed.

Lemma len_append a b : PyStr.len (a ++ b) = PyStr.len a + PyStr.len b.
Proof.
  induction a as [|c a IH]; cbn; [reflexivity |].
  destruct (PyStr.is_continuation c); lia.
Qed.

Lemma slice_to_split n s : exists rest, s = PyStr.slice_to n s ++ rest.
Proof.
  revert n. induction s as [|c s IH]; intros n; [now exists "" |]. cbn.
  destruct (PyStr.is_continuation c).
  - destruct (IH n) as [rest H]. exists rest. cbn. now rewrite <- H.
  - destruct n as [|n]; [now exists (String c s) |].
    destruct (IH n) as [rest H]. exists rest. cbn. now rewrite <- H.
Qed.

Lemma len_slice_to n s : PyStr.len (PyStr.slice_to n s) = Nat.min n (PyStr.len s).
Proof.
  revert n. induction s as [|c s IH]; intros n; cbn; [lia |].
  destruct (PyStr.is_continuation c) eqn:E; cbn; rewrite ?E; [apply IH |].
  destruct n as [|n]; cbn; rewrite ?E, ?IH; lia.
Qed.

End Stripping.

(** ** The configuration *)

Section Configuration.
Local Open Scope string_scope.

Lemma occurs_cons_inv kw c s :
  occurs kw s -> occurs kw (String c s).
Proof. intros (pre & post & ->). now exists (String c pre), post. Qed.

Lemma occurs_app_l kw a b : occurs kw b -> occurs kw (a ++ b).
Proof.
  induction a as [|c a IH]; cbn; [auto |]. intros H.
  now apply occurs_cons_inv, IH.
Qed.

Lemma occurs_app_r kw a b : occurs kw a -> occurs kw (a ++ b).
Proof.
  intros (pre & post & ->). exists pre, (post ++ b).
  now rewrite !append_assoc_s.
Qed.

Lemma occurs_strip kw s : occurs kw (PyStr.strip s) -> occurs kw s.
Proof.
  unfold PyStr.strip. intros H.
  destruct (lstrip_suffix s) as [pre Hpre].
  destruct (rstrip_prefix (PyStr.lstrip s)) as [post Hpost].
  rewrite Hpre. apply occurs_app_l. rewrite Hpost. now apply occurs_app_r.
Qed.

Lemma occurs_char_cons c d s :
  occurs (String c "") (String d s) <-> c = d \/ occurs (String c "") s.
Proof.
  split.
  - intros (pre & post & H). destruct pre as [|e pre]; simpl in H.
    + left. congruence.
    + right. exists pre, post. simpl. congruence.
  - intros [-> | H]; [now exists "", s | now apply occurs_cons_inv].
Qed.

Lemma occurs_nil kw : occurs kw "" -> kw = "".
Proof.
  intros (pre & post & H). destruct pre; [| discriminate].
  destruct kw; [reflexivity | discriminate].
Qed.

Lemma split_on_fields sep s :
  Forall (fun k => ~ occurs (String sep "") k) (split_on sep s).
Proof.
  induction s as [|c s IH]; cbn.
  - constructor; [| constructor]. intros H. apply occurs_nil in H. discriminate.
  - destruct (Ascii.eqb_spec c sep) as [->|Hne].
    + constructor; [| assumption]. intros H. apply occurs_nil in H. discriminate.
    + destruct (split_on sep s) as [|h t].
      * constructor; [| constructor]. rewrite occurs_char_cons.
        intros [E | H]; [now symmetry in E |]. apply occurs_nil in H. discriminate.
      * inversion IH as [|? ? Hh Ht]; subst. constructor; [| assumption].
        rewrite occurs_char_cons. intros [E | H]; [now symmetry in E | auto].
Qed.

Lemma split_on_join sep k rest :
  Forall (fun k => ~ occurs (String sep "") k) (k :: rest) ->
  split_on sep (join_with sep (k :: rest)) = k :: rest.
Proof.
  revert k. induction rest as [|k' rest IH]; intros k Hk.
  - cbn. inversion Hk as [|? ? Hno _]; subst. clear Hk.
    induction k as [|c k IHk]; [reflexivity |]. cbn.
    rewrite occurs_char_cons in Hno.
    destruct (Ascii.eqb_spec c sep) as [->|Hne]; [tauto |].
    rewrite IHk by tauto. reflexivity.
  - inversion Hk as [|? ? Hno Hrest]; subst.
    change (join_with sep (k :: k' :: rest))
      with (k ++ String sep (join_with sep (k' :: rest))).
    specialize (IH k' Hrest). clear Hk Hrest.
    induction k as [|c k IHk].
    + cbn [append split_on]. rewrite Ascii.eqb_refl. now rewrite IH.
    + cbn [append split_on]. rewrite occurs_char_cons in Hno.
      destruct (Ascii.eqb_spec c sep) as [->|Hne]; [tauto |].
      rewrite IHk by tauto. reflexivity.
Qed.

(** X1.  The keys parsed from a variable of the environment are clean:
    none is empty, none starts or ends with white space, none holds a
    comma. *)
Theorem parse_keys_clean (keys_env : string) :
  Forall clean_key (parse_keys keys_env).
Proof.
  unfold parse_keys. apply List.Forall_forall. intros k Hk.
  apply filter_In in Hk as [Hin Ht]. apply in_map_iff in Hin as (field & <- & Hf).
  split; [assumption |]. split; [apply strip_trimmed |].
  intros Hc. apply occurs_strip in Hc.
  pose proof (split_on_fields "," keys_env) as Hall.
  rewrite List.Forall_forall in Hall. exact (Hall field Hf Hc).
Qed.

(** X2.  Writing clean keys in a variable, separated by commas, and
    parsing the variable gives the keys back, in order. *)
Theorem parse_keys_join (keys : list string) (Hkeys : Forall clean_key keys) :
  parse_keys (join_with "," keys) = keys.
Proof.
  unfold parse_keys. destruct keys as [|k rest]; [reflexivity |].
  rewrite split_on_join.
  - induction Hkeys as [|x l (Ht & Htr & _) _ IH]; [reflexivity |].
    cbn [List.map List.filter]. rewrite strip_of_trimmed by assumption.
    rewrite Ht. now rewrite IH.
  - eapply Forall_impl; [exact Hkeys |]. intros x (_ & _ & H). exact H.
Qed.

Lemma parse_keys_join_witness :
  Forall clean_key ["gsk_1"; "gsk_2"] /\
  parse_keys "gsk_1,gsk_2" = ["gsk_1"; "gsk_2"].
Proof.
  assert (H : Forall clean_key ["gsk_1"; "gsk_2"]).
  { constructor; [| constructor; [| constructor]];
      (split; [reflexivity |]);
      (split; [apply trimmed_of_strip; reflexivity |]);
      intros Hc; apply contains_occurs in Hc; vm_compute in Hc; discriminate. }
  split; [exact H | exact (parse_keys_join ["gsk_1"; "gsk_2"] H)].
Defined.

End Configuration.

(** ** The prompts *)

Section PromptFacts.
Local Open Scope string_scope.

Lemma split_head_split_on sep s :
  PyStr.split_head sep s = hd "" (split_on sep s).
Proof.
  induction s as [|c s IH]; [reflexivity |]. cbn.
  destruct (Ascii.eqb c sep); [reflexivity |].
  rewrite IH. now destruct (split_on sep s).
Qed.

Lemma split_head_before sep a b :
  ~ occurs (String sep "") a ->
  PyStr.split_head sep (a ++ String sep b) = a.
Proof.
  induction a as [|c a IH]; intros Hno; cbn.
  - now rewrite Ascii.eqb_refl.
  - rewrite occurs_char_cons in Hno.
    destruct (Ascii.eqb_spec c sep) as [->|Hne]; [tauto |].
    rewrite IH by tauto. reflexivity.
Qed.

Lemma split_head_none sep a :
  ~ occurs (String sep "") a -> PyStr.split_head sep a = a.
Proof.
  induction a as [|c a IH]; intros Hno; cbn; [reflexivity |].
  rewrite occurs_char_cons in Hno.
  destruct (Ascii.eqb_spec c sep) as [->|Hne]; [tauto |].
  rewrite IH by tauto. reflexivity.
Qed.

Lemma split_head_no_sep sep s :
  ~ occurs (String sep "") (PyStr.split_head sep s).
Proof.
  rewrite split_head_split_on.
  pose proof (split_on_fields sep s) as H.
  destruct (split_on sep s) as [|h t]; cbn.
  - intros Ho. apply occurs_nil in Ho. discriminate.
  - now inversion H.
Qed.

(** X3.  The query prompt is made of the text before the first slash of
    the question, stripped: what follows the slash never reaches the
    generation service, and the prompt of a question is the prompt of
    that stripped text. *)
Theorem query_messages_before_slash (a b : string)
    (Ha : ~ occurs "/" a) :
  query_messages (a ++ "/" ++ b) = query_messages a /\
  query_messages a = query_messages (PyStr.strip a) /\
  forall t,
    query_messages t = query_messages (PyStr.strip (PyStr.split_head "/" t)).
Proof.
  assert (Hnorm : forall t,
             query_messages t =
             query_messages (PyStr.strip (PyStr.split_head "/" t))).
  { intros t. unfold query_messages.
    rewrite (split_head_none "/" (PyStr.strip (PyStr.split_head "/" t))).
    - now rewrite strip_idem.
    - intros H. apply occurs_strip in H. now apply split_head_no_sep in H. }
  split; [| split; [| exact Hnorm]].
  - unfold query_messages. cbn [append].
    rewrite split_head_before, split_head_none by assumption. reflexivity.
  - rewrite (Hnorm a). now rewrite split_head_none.
Qed.

Lemma query_messages_before_slash_witness :
  ~ occurs "/" "Define entropy " /\
  query_messages ("Define entropy " ++ "/" ++ " Explain it") =
    query_messages "Define entropy ".
Proof.
  assert (H : ~ occurs "/" "Define entropy ").
  { intros H. apply contains_occurs in H. vm_compute in H. discriminate. }
  split; [exact H |].
  exact (proj1 (query_messages_before_slash "Define entropy " " Explain it" H)).
Defined.

End PromptFacts.

(** ** The returned text *)

(** X4.  A text that [generate_with_retry] returns is stripped: it is
    its own strip and has no white space at either end. *)
Theorem generated_text_is_stripped (env : Env) (msgs : list Message) (N : nat)
    (mt : option nat) (w : World) (s : string)
    (Hs : fst (generate_with_retry env msgs N mt w) = Some s) :
  PyStr.strip s = s /\ trimmed s.
Proof.
  destruct (generate_with_retry_generated env msgs N mt w) as (c & _ & _ & _ & Hr).
  rewrite Hs in Hr. destruct Hr as (pre & key & text & _ & -> & _).
  split; [apply strip_idem | apply strip_trimmed].
Qed.

Lemma generated_text_is_stripped_witness :
  let env := scripted [Completion "  an answer  "%string] [] [] in
  let w := load_module ["k1"%string] [] in
  fst (generate_with_retry env [] 10 None w) = Some "an answer"%string /\
  trimmed "an answer"%string.
Proof.
  intros env w.
  assert (H : fst (generate_with_retry env [] 10 None w) = Some "an answer"%string)
    by reflexivity.
  split; [exact H |].
  exact (proj2 (generated_text_is_stripped env [] 10 None w _ H)).
Defined.

(** ** The depth of the answer *)

Section Depth.
Local Open Scope Z_scope.

Lemma marks_list_invalid h : In MarksInvalid h -> marks_list h = None.
Proof.
  induction h as [|x h IH]; [contradiction |]. intros [-> | Hin]; cbn.
  - reflexivity.
  - rewrite (IH Hin). now destruct x.
Qed.

Lemma marks_list_repeat m n :
  marks_list (repeat (MarksInt m) n) = Some (repeat m n).
Proof. induction n as [|n IH]; cbn; [reflexivity | now rewrite IH]. Qed.

Lemma marks_list_missing n :
  marks_list (repeat MarksMissing n) = Some (repeat 7 n).
Proof. induction n as [|n IH]; cbn; [reflexivity | now rewrite IH]. Qed.

Lemma sum_Z_repeat m n : sum_Z (repeat m n) = m * Z.of_nat n.
Proof.
  induction n as [|n IH]; cbn [repeat sum_Z fold_right]; [lia |].
  fold (sum_Z (repeat m n)). rewrite IH. lia.
Qed.

(** The marks of two histories agree: both fail to convert, or both
    convert to lists of the same length and sum. *)
Lemma marks_list_permutation h h' :
  Permutation h h' ->
  match marks_list h, marks_list h' with
  | Some l, Some l' => sum_Z l = sum_Z l' /\ length l = length l'
  | None, None => True
  | _, _ => False
  end.
Proof.
  induction 1 as [|x h h' _ IH|x y h|h1 h2 h3 _ IH1 _ IH2].
  - cbn. auto.
  - cbn. destruct (marks_list h), (marks_list h'), x; cbn; try tauto;
      destruct IH as [Hs Hl]; unfold sum_Z in *; cbn; split; lia.
  - cbn. destruct (marks_list h), x, y; cbn; auto; unfold sum_Z; cbn; split; lia.
  - destruct (marks_list h1), (marks_list h2), (marks_list h3); try tauto.
    destruct IH1, IH2. split; congruence.
Qed.

(** X5.  The depth of the answer does not depend on the order of the
    records of the history. *)
Theorem depth_of_permutation (h h' : list Marks) (Hp : Permutation h h') :
  depth_of h = depth_of h'.
Proof.
  pose proof (marks_list_permutation h h' Hp) as H.
  destruct h as [|x h].
  - apply Permutation_nil in Hp. now subst.
  - destruct h' as [|x' h'].
    + apply Permutation_sym, Permutation_nil in Hp. discriminate.
    + unfold depth_of.
      destruct (marks_list (x :: h)), (marks_list (x' :: h')); try tauto.
      destruct H as [-> ->]. reflexivity.
Qed.

Lemma depth_of_permutation_witness :
  Permutation [MarksInt 2; MarksMissing; MarksInt 13]
              [MarksInt 13; MarksInt 2; MarksMissing] /\
  depth_of [MarksInt 2; MarksMissing; MarksInt 13] =
  depth_of [MarksInt 13; MarksInt 2; MarksMissing].
Proof.
  assert (H : Permutation [MarksInt 2; MarksMissing; MarksInt 13]
                          [MarksInt 13; MarksInt 2; MarksMissing]).
  { apply Permutation_sym. apply (Permutation_cons_app [MarksInt 2; MarksMissing] []).
    cbn. reflexivity. }
  split; [exact H | exact (depth_of_permutation _ _ H)].
Defined.

(** X6.  One record of the history whose marks do not convert to an
    integer makes the depth the standard one, whatever the other
    records; a history of records without marks gives the standard
    depth; a history of one or more records with the same marks [m]
    gives the concise depth when [m < 5], the extensive one when
    [m > 10] and the standard one from 5 to 10, unless [m] is so large
    that the division overflows the floats: the depth is then the
    standard one. *)
Theorem depth_of_edges :
  (forall h, In MarksInvalid h -> depth_of h = Standard) /\
  (forall n, depth_of (repeat MarksMissing n) = Standard) /\
  (forall m n,
     depth_of (repeat (MarksInt m) (S n)) =
     if float_overflow <=? Z.abs m then Standard
     else if m <? 5 then Concise
     else if 10 <? m then Extensive
     else Standard) /\
  depth_of [MarksInt (10 ^ 400)] = Standard /\
  depth_of [MarksInt (- 10 ^ 400)] = Standard /\
  depth_of [MarksInt (10 ^ 300)] = Extensive.
Proof.
  assert (Hpos : 0 < float_overflow) by (vm_compute; reflexivity).
  split; [| split; [| split]].
  - intros h Hin. unfold depth_of. rewrite (marks_list_invalid h Hin).
    now destruct h.
  - intros [|n]; [reflexivity |]. unfold depth_of.
    rewrite marks_list_missing. cbn [repeat].
    change (7 :: repeat 7 n) with (repeat 7 (S n)).
    rewrite sum_Z_repeat, repeat_length.
    assert (H7 : 7 < float_overflow) by (vm_compute; reflexivity).
    destruct (Z.leb_spec (float_overflow * Z.of_nat (S n))
                (Z.abs (7 * Z.of_nat (S n)))); [nia |].
    destruct (Z.ltb_spec (7 * Z.of_nat (S n) * 2 ^ 51)
                ((5 * 2 ^ 51 - 1) * Z.of_nat (S n))); [nia |].
    destruct (Z.ltb_spec ((10 * 2 ^ 50 + 1) * Z.of_nat (S n))
                (7 * Z.of_nat (S n) * 2 ^ 50)); [nia |].
    reflexivity.
  - intros m n. unfold depth_of. rewrite marks_list_repeat.
    cbn [repeat]. change (m :: repeat m n) with (repeat m (S n)).
    rewrite sum_Z_repeat, repeat_length.
    set (k := Z.of_nat (S n)). assert (Hk : 0 < k) by (unfold k; lia).
    assert (Habs : Z.abs (m * k) = Z.abs m * k)
      by (rewrite Z.abs_mul, (Z.abs_eq k); lia).
    rewrite Habs.
    assert (H51 : 2 ^ 51 = 2251799813685248) by reflexivity.
    assert (H50 : 2 ^ 50 = 1125899906842624) by reflexivity.
    rewrite H51, H50.
    destruct (Z.leb_spec float_overflow (Z.abs m));
      destruct (Z.leb_spec (float_overflow * k) (Z.abs m * k));
      try reflexivity; try nia.
    destruct (Z.ltb_spec m 5), (Z.ltb_spec 10 m);
      destruct (Z.ltb_spec (m * k * 2251799813685248)
                  ((5 * 2251799813685248 - 1) * k));
      destruct (Z.ltb_spec ((10 * 1125899906842624 + 1) * k)
                  (m * k * 1125899906842624));
      try reflexivity; nia.
  - repeat split; vm_compute; reflexivity.
Qed.

End Depth.

(** ** The short text and the detector *)

Section Texts.
Local Open Scope string_scope.

(** X7.  The text shown for a question is the question when it has at
    most 60 characters; otherwise it is its first 60 characters followed
    by three dots.  It never has more than 63 characters.  A character
    counts for one whatever the number of its bytes: a text of 40
    two-byte characters is shown whole, one of 61 is cut to its first
    60. *)
Theorem short_text_bound (q_text : string) :
  PyStr.len (short_text q_text) <= 63 /\
  (PyStr.len q_text <= 60 -> short_text q_text = q_text) /\
  (60 < PyStr.len q_text ->
   exists head rest,
     q_text = head ++ rest /\ PyStr.len head = 60 /\
     short_text q_text = head ++ "...") /\
  short_text (PyStr.repeat (PyStr.utf8 233) 40) = PyStr.repeat (PyStr.utf8 233) 40 /\
  short_text (PyStr.repeat (PyStr.utf8 233) 61) =
    PyStr.repeat (PyStr.utf8 233) 60 ++ "...".
Proof.
  split; [| split; [| split; [| split; vm_compute; reflexivity]]];
    unfold short_text;
    destruct (slice_to_split 60 q_text) as (rest & Hs);
    pose proof (len_slice_to 60 q_text) as Hl;
    destruct (Nat.ltb_spec 60 (PyStr.len q_text)) as [Hlt | Hle].
  - rewrite len_append, Hl. change (PyStr.len "...") with 3. lia.
  - lia.
  - lia.
  - reflexivity.
  - intros _. exists (PyStr.slice_to 60 q_text), rest.
    repeat split; [assumption | lia].
  - lia.
Qed.

Lemma lower_ascii_idem c : PyStr.lower_ascii (PyStr.lower_ascii c) = PyStr.lower_ascii c.
Proof.
  destruct c as [[] [] [] [] [] [] [] []]; reflexivity.
Qed.

Lemma lower_idem s : PyStr.lower (PyStr.lower s) = PyStr.lower s.
Proof.
  induction s as [|c s IH]; cbn; [reflexivity |].
  now rewrite lower_ascii_idem, IH.
Qed.

(** X8.  The detector does not see the case of the letters, and a text
    that contains a detected text is detected. *)
Theorem is_comparison_question_stable (text : string) :
  is_comparison_question (PyStr.lower text) = is_comparison_question text /\
  (is_comparison_question text = true ->
   forall pre post, is_comparison_question (pre ++ text ++ post) = true).
Proof.
  split.
  - unfold is_comparison_question. now rewrite lower_idem.
  - unfold is_comparison_question. rewrite existsb_exists.
    intros (kw & Hin & Hkw) pre post. apply existsb_exists.
    exists kw. split; [assumption |].
    apply contains_occurs. apply contains_occurs in Hkw.
    rewrite !lower_app. now apply occurs_app_l, occurs_app_r.
Qed.

End Texts.

(** ** The events of the clients *)

Lemma switch_groq_api_key_client :
  does switch_groq_api_key (fun _ c => Forall client_event c).
Proof.
  unfold switch_groq_api_key. does_steps; repeat constructor.
Qed.

Lemma switch_youtube_key_client :
  does switch_youtube_key (fun _ c => Forall client_event c).
Proof.
  unfold switch_youtube_key. does_steps; repeat constructor.
Qed.

Lemma generate_attempts_client env msgs mt n : forall k,
  does (generate_attempts env n k msgs mt) (fun _ c => Forall client_event c).
Proof.
  induction n as [|n IH]; intros k; cbn [generate_attempts].
  - does_steps. forall_split. exact I.
  - apply does_chat_bind.
    + does_steps. apply does_conseq with (1 := IH k). intros ? c Hc.
      forall_split; cbn; auto.
    + intros key r. destruct r as [text| |].
      * does_steps. forall_split; cbn; auto.
      * do 4 does_step.
        eapply does_bind; [apply switch_groq_api_key_client |].
        intros ? c1 Hc1; cbn beta in Hc1. does_steps.
        -- apply does_conseq with (1 := IH 0). intros ? c Hc.
           forall_split; cbn; auto.
        -- apply does_conseq with (1 := IH (k + 1)). intros ? c Hc.
           forall_split; cbn; auto.
      * does_steps. apply does_conseq with (1 := IH k). intros ? c Hc.
        forall_split; cbn; auto.
Qed.

Lemma generate_with_retry_client env msgs N mt :
  does (generate_with_retry env msgs N mt) (fun _ c => Forall client_event c).
Proof.
  unfold generate_with_retry. apply does_gets_bind. intros [key|].
  - apply generate_attempts_client.
  - does_steps. forall_split. exact I.
Qed.

Lemma search_attempts_client env query n :
  does (search_attempts env n query) (fun _ c => Forall client_event c).
Proof.
  induction n as [|n IH]; cbn [search_attempts].
  - does_steps. forall_split. exact I.
  - apply does_search_bind.
    + does_steps. forall_split; exact I.
    + intros key r. destruct r as [[|item items]|status|].
      * does_steps. forall_split; cbn; auto.
      * does_steps. forall_split; cbn; auto.
      * destruct (auth_or_quota status).
        -- do 3 does_step. destruct (1 <? length a0).
           ++ eapply does_bind; [apply switch_youtube_key_client |].
              intros ? c1 Hc1; cbn beta in Hc1.
              apply does_conseq with (1 := IH).
              intros ? c Hc. forall_split; cbn; auto.
           ++ does_steps. forall_split; cbn; auto.
        -- does_steps. forall_split; cbn; auto.
      * does_steps. forall_split; cbn; auto.
Qed.

Lemma search_youtube_video_client env query :
  does (search_youtube_video env query) (fun _ c => Forall client_event c).
Proof.
  unfold search_youtube_video. destruct (negb (PyStr.truthy query)).
  - does_steps. constructor.
  - apply does_gets_bind. intros [key|].
    + apply does_gets_bind. intros keys. apply search_attempts_client.
    + does_steps. forall_split. exact I.
Qed.

Lemma get_youtube_search_query_client env question_text :
  does (get_youtube_search_query env question_text)
       (fun _ c => Forall client_event c).
Proof. apply generate_with_retry_client. Qed.

Lemma get_detailed_solution_client env question_text unit_title marks_history :
  does (get_detailed_solution env question_text unit_title marks_history)
       (fun _ c => Forall client_event c).
Proof. apply generate_with_retry_client. Qed.

(** ** The course of a walk *)

Lemma statuses_app a b : statuses (a ++ b) = statuses a ++ statuses b.
Proof.
  induction a as [|e a IH]; cbn; [reflexivity |].
  destruct e as [| [] | | | | | | |]; cbn; now rewrite ?IH.
Qed.

Lemma progress_records_app a b :
  progress_records (a ++ b) = progress_records a ++ progress_records b.
Proof.
  induction a as [|e a IH]; cbn; [reflexivity |].
  destruct e as [| [] | | | | | | |]; cbn; now rewrite ?IH.
Qed.

Lemma statuses_client c : Forall client_event c -> statuses c = [].
Proof.
  induction 1 as [|e c He _ IH]; cbn; [reflexivity |].
  destruct e as [| [] | | | | | | |]; cbn in *; auto; contradiction.
Qed.

Lemma progress_records_client c :
  Forall client_event c -> progress_records c = [].
Proof.
  induction 1 as [|e c He _ IH]; cbn; [reflexivity |].
  destruct e as [| [] | | | | | | |]; cbn in *; auto; contradiction.
Qed.

Lemma undisturbed_client c : Forall client_event c -> undisturbed c.
Proof.
  unfold undisturbed. induction 1 as [|e c He _ IH]; cbn; [reflexivity |].
  destruct e; cbn in *; auto; contradiction.
Qed.

Lemma undisturbed_nil : undisturbed [].
Proof. reflexivity. Qed.

Lemma undisturbed_cons e c :
  is_set_reading e = false -> undisturbed c -> undisturbed (e :: c).
Proof. unfold undisturbed. cbn. now intros ->. Qed.

Lemma undisturbed_app a b :
  undisturbed a -> undisturbed b -> undisturbed (a ++ b).
Proof. unfold undisturbed. rewrite count_app. lia. Qed.

Lemma undisturbed_logs c :
  Forall (fun e => is_log e = true) c -> undisturbed c.
Proof.
  unfold undisturbed. induction 1 as [|e c He _ IH]; cbn; [reflexivity |].
  destruct e; cbn in *; auto; discriminate.
Qed.

Lemma halted_here logs :
  Forall (fun e => is_log e = true) logs -> halted (StopEventIsSet true :: logs).
Proof. intros H. exists [], logs. repeat split; auto. Qed.

Lemma halted_cons e c :
  is_set_reading e = false -> halted c -> halted (e :: c).
Proof.
  intros He (pre & logs & -> & Hpre & Hlogs). exists (e :: pre), logs.
  repeat split; auto. now apply undisturbed_cons.
Qed.

Lemma halted_app a c : undisturbed a -> halted c -> halted (a ++ c).
Proof.
  intros Ha (pre & logs & -> & Hpre & Hlogs). exists (a ++ pre), logs.
  rewrite app_assoc. repeat split; auto. now apply undisturbed_app.
Qed.

Lemma halted_nil_r c : halted c -> halted (c ++ []).
Proof. now rewrite app_nil_r. Qed.

(** Solving a goal [undisturbed c] or [halted c] along the conses and
    appends of [c]. *)
Ltac undisturbed_solve :=
  repeat first
    [ apply undisturbed_nil
    | assumption
    | apply undisturbed_client; assumption
    | apply undisturbed_logs; assumption
    | apply undisturbed_cons; [reflexivity |]
    | apply undisturbed_app ].

Ltac halted_solve :=
  repeat first
    [ assumption
    | apply halted_nil_r
    | apply halted_here; solve [forall_split; reflexivity]
    | apply halted_cons; [reflexivity |]
    | apply halted_app; [solve [undisturbed_solve] |] ].

(** Rewriting the status and progress records of a chunk along its
    conses and appends. *)
Ltac records_norm :=
  repeat first
    [ progress cbn [statuses progress_records app]
    | rewrite statuses_app
    | rewrite progress_records_app
    | match goal with
      | H : Forall client_event ?c |- context [statuses ?c] =>
          rewrite (statuses_client c H)
      | H : Forall client_event ?c |- context [progress_records ?c] =>
          rewrite (progress_records_client c H)
      | H : statuses ?c = _ |- context [statuses ?c] => rewrite H
      | H : progress_records ?c = _ |- context [progress_records ?c] => rewrite H
      end ].

Ltac course_solve :=
  cbn [fst snd];
  repeat match goal with
         | H : course _ _ |- _ => destruct H
         | H : _ /\ _ |- _ => destruct H
         end;
  repeat split;
  try solve [records_norm; reflexivity];
  try solve [undisturbed_solve];
  try solve [halted_solve].

Lemma client_reading env c :
  Forall client_event c -> Forall (reading_of env) c.
Proof.
  intros H. eapply Forall_impl; [exact H |].
  intros [] He; cbn in *; auto; contradiction.
Qed.

Lemma logs_reading env c :
  Forall (fun e => is_log e = true) c -> Forall (reading_of env) c.
Proof.
  intros H. eapply Forall_impl; [exact H |].
  intros [] He; cbn in *; auto; discriminate.
Qed.

Lemma does_stop_bind_env {B} (env : Env) (k : bool -> M B)
    (Q : B -> list Event -> Prop) :
  (forall b, (exists n, stop_event_at env n = b) ->
             does (k b) (fun r c => Q r (StopEventIsSet b :: c))) ->
  does (bind (stop_event_is_set env) k) Q.
Proof.
  intros H w. unfold bind, stop_event_is_set at 1.
  destruct (H (stop_event_at env (stop_readings w)) (ex_intro _ _ eq_refl)
              (snd (stop_event_is_set env w))) as (c & Ht & Ho & HQ).
  unfold stop_event_is_set in Ht, Ho, HQ. cbn in Ht, Ho, HQ.
  exists (StopEventIsSet (stop_event_at env (stop_readings w)) :: c).
  cbn. rewrite Ht, Ho. rewrite <- app_assoc. auto.
Qed.

Ltac readings_solve :=
  forall_split;
  try solve
    [ exact I
    | assumption
    | apply client_reading; assumption
    | apply logs_reading; assumption ].

Ltac course_step :=
  lazymatch goal with
  | |- does (bind (get_youtube_search_query _ _) _) _ =>
      eapply does_bind; [apply get_youtube_search_query_client | intros ? ? ?]
  | |- does (bind (get_detailed_solution _ _ _ _) _) _ =>
      eapply does_bind; [apply get_detailed_solution_client | intros ? ? ?]
  | |- does (bind (search_youtube_video _ _) _) _ =>
      eapply does_bind; [apply search_youtube_video_client | intros ? ? ?]
  | |- does (bind (stop_event_is_set _) _) _ =>
      apply does_stop_bind_env; intros ? ?
  | _ => walker_step
  end.

Lemma video_step_course env u q counter q_text f :
  does (video_step env u q counter q_text f)
       (fun r c => course (fst (fst r)) c /\ Forall (reading_of env) c /\
                   progress_records c = []).
Proof.
  unfold video_step. repeat course_step; cbn beta in *;
    (split; [course_solve | split; [readings_solve | records_norm; reflexivity]]).
Qed.

Lemma solution_step_course env u q counter q_text unit_title f anoms :
  does (solution_step env u q counter q_text unit_title f anoms)
       (fun r c => course (fst (fst (fst r))) c /\ Forall (reading_of env) c /\
                   progress_records c = []).
Proof.
  unfold solution_step. repeat course_step; cbn beta in *;
    (split; [course_solve | split; [readings_solve | records_norm; reflexivity]]).
Qed.

Lemma numbered_nil total_qs first : numbered total_qs first 0 = [].
Proof. reflexivity. Qed.

Lemma numbered_cons total_qs first j :
  numbered total_qs first (S j) = (first, total_qs) :: numbered total_qs (S first) j.
Proof. reflexivity. Qed.

Lemma numbered_app total_qs first j k :
  numbered total_qs first (j + k) =
  numbered total_qs first j ++ numbered total_qs (first + j) k.
Proof. unfold numbered. now rewrite seq_app, map_app. Qed.

Ltac walked_solve :=
  cbn [fst snd];
  split; [solve [course_solve] |];
  split; [solve [readings_solve] |];
  split; [records_norm |]; solve [reflexivity | lia].

Lemma process_question_walked env total_qs u unit_title q_idx q st :
  does (process_question env total_qs u unit_title q_idx q st)
       (walked env total_qs (global_counter st) 1).
Proof.
  unfold process_question, walked.
  repeat course_step.
  - walked_solve.
  - eapply does_bind; [apply video_step_course |].
    intros [[[] f1] m1] c1 (Hc1 & Hr1 & Hp1); cbn [fst] in Hc1.
    + repeat course_step.
      * walked_solve.
      * eapply does_bind; [apply solution_step_course |].
        intros [[[[] f2] a2] m2] c2 (Hc2 & Hr2 & Hp2); cbn [fst] in Hc2;
          repeat course_step; walked_solve.
    + repeat course_step. walked_solve.
Qed.

Lemma course_app flow a b :
  course Continue a -> course flow b -> course flow (a ++ b).
Proof.
  intros [Hs Hu] [Hs' Hf]. split.
  - now rewrite statuses_app, Hs, Hs'.
  - destruct flow; [now apply undisturbed_app | now apply halted_app].
Qed.

Lemma walked_seq env total_qs first j1 j2 st1 r c1 c2 :
  walked env total_qs first j1 (Continue, st1) c1 ->
  walked env total_qs (global_counter st1) j2 r c2 ->
  walked env total_qs first (j1 + j2) r (c1 ++ c2).
Proof.
  intros (Hc1 & Hr1 & Hp1 & Hg1) (Hc2 & Hr2 & Hp2 & Hg2).
  cbn [fst snd] in *. repeat split.
  - apply (course_app _ _ _ Hc1 Hc2).
  - destruct Hc1 as [_ Hu], Hc2 as [_ Hf].
    destruct (fst r); [now apply undisturbed_app | now apply halted_app].
  - apply Forall_app; auto.
  - rewrite progress_records_app, Hp1, Hp2, Hg1, numbered_app.
    do 2 f_equal. lia.
  - lia.
Qed.

Lemma walked_nil env total_qs first st :
  global_counter st = first -> walked env total_qs first 0 (Continue, st) [].
Proof. intros H. repeat split; cbn; auto. lia. Qed.

Lemma walk_questions_walked env total_qs u unit_title qs :
  forall q_idx st,
    does (walk_questions env total_qs u unit_title qs q_idx st)
         (fun r c =>
            exists j, j <= length qs /\
                      (fst r = Continue -> j = length qs) /\
                      walked env total_qs (global_counter st) j r c).
Proof.
  induction qs as [|q qs IH]; intros q_idx st; cbn [walk_questions].
  - apply does_ret. exists 0. split; [cbn; lia |]. split; [reflexivity |].
    now apply walked_nil.
  - eapply does_bind; [apply process_question_walked |].
    intros [[] st1] c1 H1.
    + eapply does_conseq; [apply IH |].
      intros r c2 (j & Hj & Hall & H2). exists (1 + j).
      split; [cbn; lia |]. split; [intros E; cbn; rewrite (Hall E); reflexivity |].
      exact (walked_seq _ _ _ _ _ _ _ _ _ H1 H2).
    + apply does_ret. exists 1. split; [cbn; lia |].
      split; [discriminate |]. now rewrite app_nil_r.
Qed.

Lemma walked_reading env total_qs first j r c b :
  (exists n, stop_event_at env n = b) ->
  b = false ->
  walked env total_qs first j r c ->
  walked env total_qs first j r (StopEventIsSet b :: c).
Proof.
  intros Hb -> (Hc & Hr & Hp & Hg). repeat split; auto.
  - apply Hc.
  - destruct Hc as [_ Hf].
    destruct (fst r); [now apply undisturbed_cons | now apply halted_cons].
Qed.

Lemma walk_units_walked env total_qs us :
  forall u_idx st,
    does (walk_units env total_qs us u_idx st)
         (fun r c =>
            exists j, j <= total_questions us /\
                      (fst r = Continue -> j = total_questions us) /\
                      walked env total_qs (global_counter st) j r c).
Proof.
  induction us as [|unit us IH]; intros u_idx st; cbn [walk_units].
  - apply does_ret. exists 0. split; [cbn; lia |]. split; [reflexivity |].
    now apply walked_nil.
  - apply does_stop_bind_env. intros [] Hb.
    + repeat course_step. exists 0. split; [lia |]. split; [discriminate |].
      unfold walked. walked_solve.
    + eapply does_bind; [apply walk_questions_walked |].
      intros [[] st1] c1 (j1 & Hj1 & Hall1 & H1).
      * eapply does_conseq; [apply IH |].
        intros r c2 (j2 & Hj2 & Hall2 & H2). exists (j1 + j2).
        specialize (Hall1 eq_refl). cbn [total_questions fold_right].
        fold (total_questions us).
        split; [lia |]. split; [intros E; rewrite (Hall2 E); lia |].
        apply walked_reading; [assumption | reflexivity |].
        exact (walked_seq _ _ _ _ _ _ _ _ _ H1 H2).
      * apply does_ret. exists j1. cbn [total_questions fold_right].
        fold (total_questions us).
        split; [lia |]. split; [discriminate |].
        apply walked_reading; [assumption | reflexivity |].
        now rewrite app_nil_r.
Qed.

Lemma print_anomalies_client l :
  does (print_anomalies l) (fun _ c => Forall client_event c).
Proof.
  induction l as [|anomaly l IH]; cbn [print_anomalies].
  - apply does_ret. constructor.
  - does_step. eapply does_conseq; [apply IH |].
    intros ? c Hc. constructor; [exact I | exact Hc].
Qed.

Lemma client_logs c :
  Forall client_event c -> count is_set_reading c = 0.
Proof. apply undisturbed_client. Qed.

Lemma process_subject_finished env data :
  does (process_subject env data) (fun _ c => finished env data c).
Proof.
  unfold process_subject, finished. repeat course_step.
  eapply does_bind; [apply walk_units_walked |].
  intros [[] st] c (j & Hj & Hall & Hc & Hr & Hp & Hg); cbn [fst snd] in *.
  - specialize (Hall eq_refl). subst j.
    course_step.
    eapply does_bind with (Q1 := fun _ c => Forall client_event c).
    { destruct (anomalies st); [apply does_ret; constructor |].
      does_step. eapply does_bind; [apply print_anomalies_client |].
      intros ? c1 H1. does_step. constructor; [exact I |].
      apply Forall_app; split; [exact H1 | repeat constructor]. }
    intros ? c1 H1. apply does_stop_bind_env. intros b Hb.
    assert (Hfin : forall tail,
      Forall (fun e => is_log e = true) tail ->
      statuses tail = [if b then Stopped else Complete] ->
      progress_records tail = [] ->
      let whole :=
        PrintLine LnRule :: PrintLine (LnStarting (default "Unknown Subject"%string (d_title data))) ::
        PrintLine (LnTotalQuestions (count_total_questions data)) :: PrintLine LnRule ::
        LogPut (EvProgress 0 (count_total_questions data) None) ::
        LogPut (EvApiKey Groq (a + 1) (length a0) Active) ::
        LogPut (EvApiKey YouTube (a1 + 1) (length a2) Active) ::
        c ++ PrintLine LnRule :: c1 ++ StopEventIsSet b :: tail in
      Forall (reading_of env) whole /\
      exists j,
        j <= count_total_questions data /\
        progress_records whole =
          (0, count_total_questions data) ::
          numbered (count_total_questions data) 1 j /\
        ((halted whole /\ statuses whole = []) \/
         (exists pre b' tail',
            whole = pre ++ StopEventIsSet b' :: tail' /\
            undisturbed pre /\
            Forall (fun e => is_log e = true) tail' /\
            j = count_total_questions data /\
            statuses whole = [if b' then Stopped else Complete]))).
    { intros tail Htail Hst Hpr whole. subst whole. split.
      - readings_solve.
      - exists (total_questions (units data)). split; [exact Hj |].
        split; [records_norm; rewrite ?app_nil_r; reflexivity |].
        right.
        exists (PrintLine LnRule :: PrintLine (LnStarting (default "Unknown Subject"%string (d_title data))) ::
                PrintLine (LnTotalQuestions (count_total_questions data)) :: PrintLine LnRule ::
                LogPut (EvProgress 0 (count_total_questions data) None) ::
                LogPut (EvApiKey Groq (a + 1) (length a0) Active) ::
                LogPut (EvApiKey YouTube (a1 + 1) (length a2) Active) ::
                c ++ PrintLine LnRule :: c1), b, tail.
        split; [cbn; now rewrite <- !app_assoc |].
        split; [destruct Hc; undisturbed_solve |].
        split; [exact Htail |]. split; [reflexivity |].
        destruct Hc as [Hs _]. records_norm. reflexivity. }
    destruct b; repeat course_step;
      (rewrite <- ?app_assoc; cbn [app]; apply Hfin;
       [forall_split; reflexivity | reflexivity | reflexivity]).
  - apply does_ret. rewrite app_nil_r. split; [readings_solve |].
    exists j. split; [exact Hj |]. split; [records_norm; reflexivity |].
    left. destruct Hc as [Hs Hh]. split; [halted_solve | records_norm; reflexivity].
Qed.

Lemma set_reading_unique (pre0 : list Event) b0 tail0 :
  undisturbed pre0 ->
  Forall (fun e => is_log e = true) tail0 ->
  forall pre post,
    pre0 ++ StopEventIsSet b0 :: tail0 = pre ++ StopEventIsSet true :: post ->
    pre = pre0 /\ post = tail0.
Proof.
  intros Hpre Htail. induction pre0 as [|e0 pre0 IH]; intros pre post E.
  - destruct pre as [|e pre]; cbn in E.
    + injection E as _ E. auto.
    + injection E as _ E. subst tail0.
      apply Forall_app in Htail as [_ Htail].
      apply Forall_cons in Htail as [Habs _]. discriminate.
  - unfold undisturbed in Hpre. cbn in Hpre.
    destruct pre as [|e pre]; cbn in E; injection E as E1 E2.
    + subst e0. cbn in Hpre. discriminate.
    + subst e0.
      assert (Hpre0 : undisturbed pre0)
        by (unfold undisturbed; destruct (is_set_reading e); [discriminate | exact Hpre]).
      destruct (IH Hpre0 pre post E2) as [-> ->]. auto.
Qed.

Lemma halted_not_undisturbed c : halted c -> ~ undisturbed c.
Proof.
  intros (pre & logs & -> & _ & _). unfold undisturbed.
  rewrite count_app. cbn. lia.
Qed.

Lemma readings_never env c :
  (forall n, stop_event_at env n = false) ->
  Forall (reading_of env) c -> undisturbed c.
Proof.
  intros Hnever. unfold undisturbed.
  induction 1 as [|e c He _ IH]; cbn; [reflexivity |].
  destruct e as [| | | | | b | | |]; cbn in *; auto.
  destruct He as [n Hn]. rewrite Hnever in Hn. now subst b.
Qed.

Lemma count_logs p c :
  (forall e, is_log e = true -> p e = false) ->
  Forall (fun e => is_log e = true) c -> count p c = 0.
Proof.
  intros Hp. induction 1 as [|e l He _ IH]; cbn; [reflexivity |].
  now rewrite (Hp e He).
Qed.

Section Walk.
Local Open Scope string_scope.
Local Open Scope list_scope.
Local Open Scope nat_scope.

(** X9.  In the trace of a walk, a reading of the stop flag that finds
    it set is the only one that does, and only entries of the log queue
    follow it: from there on the walk sends no request, sleeps no more,
    changes no question, saves nothing and reads the flag no more. *)
Theorem set_flag_halts_walk (env : Env) (data : Document) :
  does (process_subject env data)
       (fun _ c =>
          forall pre post,
            c = pre ++ StopEventIsSet true :: post ->
            count is_set_reading pre = 0 /\
            Forall (fun e => is_log e = true) post /\
            count is_groq_create post = 0 /\
            count is_youtube_search post = 0 /\
            count is_sleep post = 0 /\
            Forall quiet post).
Proof.
  eapply does_conseq; [apply process_subject_finished |].
  intros _ c (_ & j & _ & _ & Hc) pre post E.
  assert (Hsplit : exists pre0 b0 tail0,
             c = pre0 ++ StopEventIsSet b0 :: tail0 /\ undisturbed pre0 /\
             Forall (fun e => is_log e = true) tail0).
  { destruct Hc as [[(pre0 & logs & -> & Hpre & Hlogs) _] |
                    (pre0 & b & tail & -> & Hpre & Htail & _)].
    - now exists pre0, true, logs.
    - now exists pre0, b, tail. }
  destruct Hsplit as (pre0 & b0 & tail0 & -> & Hpre & Htail).
  destruct (set_reading_unique _ _ _ Hpre Htail _ _ E) as [-> ->].
  split; [exact Hpre |]. split; [exact Htail |].
  repeat split; try (apply count_logs; [intros []; cbn; congruence | exact Htail]).
  eapply Forall_impl; [exact Htail |]. apply log_quiet.
Qed.

(** X10.  When the stop flag is never set, the walk starts every
    question: its progress records are the initial one and then one for
    each question, numbered from 1 to the total, and it puts exactly one
    status record on the queue, [Complete]. *)
Theorem uncancelled_walk_completes (env : Env) (data : Document)
    (Hnever : forall n, stop_event_at env n = false) :
  does (process_subject env data)
       (fun _ c =>
          statuses c = [Complete] /\
          progress_records c =
            (0, count_total_questions data) ::
            numbered (count_total_questions data) 1 (count_total_questions data)).
Proof.
  eapply does_conseq; [apply process_subject_finished |].
  intros _ c (Hr & j & Hj & Hp & Hc).
  pose proof (readings_never env c Hnever Hr) as Hu.
  destruct Hc as [[Hh _] | (pre & b & tail & E & Hpre & Htail & -> & Hs)].
  - now destruct (halted_not_undisturbed c Hh).
  - split; [| exact Hp]. destruct b; [| exact Hs].
    subst c. unfold undisturbed in Hu. rewrite count_app in Hu. cbn in Hu. lia.
Qed.

(** A bank of one question, services that answer, a flag never set. *)
Lemma uncancelled_walk_completes_witness :
  let env := scripted [Completion "a query"; Completion "a solution"]
               [SearchItems [sample_item]] [] in
  let data := single (sample_question None None) in
  (forall n, stop_event_at env n = false) /\
  exists c,
    trace (snd (process_subject env data (load_module ["k1"] ["y1"]))) = c /\
    statuses c = [Complete] /\
    progress_records c = [(0, 1); (1, 1)].
Proof.
  intros env data.
  assert (Hnever : forall n, stop_event_at env n = false)
    by (intros [|n]; reflexivity).
  split; [exact Hnever |].
  destruct (uncancelled_walk_completes env data Hnever (load_module ["k1"] ["y1"]))
    as (c & Ht & _ & Hs & Hp).
  exists c. split; [exact Ht |]. split; [exact Hs | exact Hp].
Defined.

(** X11.  The progress records of a walk are the initial record, with
    the number 0, and then one for each question started, numbered from
    1 without a gap and never beyond the total; the walk puts at most
    one status record on the queue, and when it puts one every question
    has been started. *)
Theorem progress_counts_questions (env : Env) (data : Document) :
  does (process_subject env data)
       (fun _ c =>
          let total_qs := count_total_questions data in
          exists j,
            j <= total_qs /\
            progress_records c = (0, total_qs) :: numbered total_qs 1 j /\
            (statuses c = [] \/
             (statuses c = [Complete] \/ statuses c = [Stopped]) /\ j = total_qs)).
Proof.
  eapply does_conseq; [apply process_subject_finished |].
  intros _ c (_ & j & Hj & Hp & Hc). exists j.
  split; [exact Hj |]. split; [exact Hp |].
  destruct Hc as [[_ Hs] | (pre & b & tail & _ & _ & _ & -> & Hs)]; [now left |].
  right. split; [| reflexivity]. destruct b; auto.
Qed.

End Walk.

(** ** The cost of a walk *)

Lemma sleep_time_app a b : sleep_time (a ++ b) = sleep_time a + sleep_time b.
Proof.
  induction a as [|e a IH]; cbn; [reflexivity |].
  destruct e; cbn; rewrite ?IH; lia.
Qed.

Lemma within_logs c : Forall (fun e => is_log e = true) c -> within 0 0 c.
Proof.
  unfold within. induction 1 as [|e c He _ IH]; cbn; [lia |].
  destruct e; cbn in *; try discriminate; exact IH.
Qed.

Lemma within_youtube query c : Forall (youtube_event query) c -> within 0 0 c.
Proof.
  unfold within. induction 1 as [|e c He _ IH]; cbn; [lia |].
  destruct e; cbn in *; try contradiction; exact IH.
Qed.

Ltac within_solve :=
  cbn beta in *;
  repeat match goal with
         | H : Forall (fun e => is_log e = true) _ |- _ => apply within_logs in H
         | H : Forall (youtube_event _) _ |- _ => apply within_youtube in H
         end;
  unfold within in *;
  repeat match goal with H : _ /\ _ |- _ => destruct H end;
  repeat (rewrite ?count_app, ?sleep_time_app;
          cbn [count sleep_time is_groq_create app]);
  unfold default_max_retries in *;
  lia.

Lemma generate_attempts_within env msgs mt n : forall k,
  does (generate_attempts env n k msgs mt) (fun _ c => within n (20 * n) c).
Proof.
  induction n as [|n IH]; intros k; cbn [generate_attempts].
  - does_steps. within_solve.
  - apply does_chat_bind.
    + does_steps. eapply does_conseq; [apply IH |]. intros ? c Hc. within_solve.
    + intros key [text | |].
      * does_steps. within_solve.
      * do 4 does_step.
        eapply does_bind; [apply switch_groq_api_key_does |]. intros ? c1 H1.
        does_steps; (eapply does_conseq; [apply IH |]); intros ? c Hc; within_solve.
      * does_steps. eapply does_conseq; [apply IH |]. intros ? c Hc. within_solve.
Qed.

Lemma generate_with_retry_within env msgs N mt :
  does (generate_with_retry env msgs N mt) (fun _ c => within N (20 * N) c).
Proof.
  unfold generate_with_retry. does_step. does_step.
  - apply generate_attempts_within.
  - does_steps. within_solve.
Qed.

Ltac budget_step :=
  lazymatch goal with
  | |- does (bind (get_youtube_search_query _ _) _) _ =>
      eapply does_bind;
      [unfold get_youtube_search_query; apply generate_with_retry_within
      | intros ? ? ?]
  | |- does (bind (get_detailed_solution _ _ _ _) _) _ =>
      eapply does_bind;
      [unfold get_detailed_solution; apply generate_with_retry_within
      | intros ? ? ?]
  | _ => walker_step
  end.

Lemma video_step_within env u q counter q_text f :
  does (video_step env u q counter q_text f) (fun _ c => within 10 201 c).
Proof. unfold video_step. repeat budget_step; within_solve. Qed.

Lemma solution_step_within env u q counter q_text unit_title f anoms :
  does (solution_step env u q counter q_text unit_title f anoms)
       (fun _ c => within 10 201 c).
Proof. unfold solution_step. repeat budget_step; within_solve. Qed.

Lemma process_question_within env total_qs u unit_title q_idx q st :
  does (process_question env total_qs u unit_title q_idx q st)
       (fun _ c => within 20 402 c).
Proof.
  unfold process_question. repeat budget_step; try within_solve.
  eapply does_bind; [apply video_step_within |].
  intros [[[] f1] m1] c1 H1; repeat budget_step; try within_solve.
  eapply does_bind; [apply solution_step_within |].
  intros [[[[] f2] a2] m2] c2 H2; repeat budget_step; within_solve.
Qed.

Lemma walk_questions_within env total_qs u unit_title qs :
  forall q_idx st,
    does (walk_questions env total_qs u unit_title qs q_idx st)
         (fun _ c => within (20 * length qs) (402 * length qs) c).
Proof.
  induction qs as [|q qs IH]; intros q_idx st; cbn [walk_questions].
  - apply does_ret. within_solve.
  - eapply does_bind; [apply process_question_within |].
    intros [[] st1] c1 H1.
    + eapply does_conseq; [apply IH |]. intros ? c2 H2. cbn [length]. within_solve.
    + apply does_ret. cbn [length]. within_solve.
Qed.

Lemma walk_units_within env total_qs us :
  forall u_idx st,
    does (walk_units env total_qs us u_idx st)
         (fun _ c => within (20 * total_questions us) (402 * total_questions us) c).
Proof.
  induction us as [|unit us IH]; intros u_idx st; cbn [walk_units].
  - apply does_ret. within_solve.
  - cbn [total_questions fold_right]. fold (total_questions us).
    does_step. does_step.
    + does_steps. within_solve.
    + eapply does_bind; [apply walk_questions_within |].
      intros [[] st1] c1 H1.
      * eapply does_conseq; [apply IH |]. intros ? c2 H2. within_solve.
      * apply does_ret. within_solve.
Qed.

Section Cost.
Local Open Scope list_scope.
Local Open Scope nat_scope.

(** X12.  A walk sends at most 20 completion requests and sleeps at most
    402 seconds for each question of the bank, whatever the services
    answer: each of the two steps of a question makes at most
    [default_max_retries] requests, sleeps at most 20 seconds after each
    and one second at its end. *)
Theorem walk_cost_bounded (env : Env) (data : Document) :
  does (process_subject env data)
       (fun _ c =>
          count is_groq_create c <= 2 * default_max_retries * count_total_questions data /\
          sleep_time c <= 402 * count_total_questions data).
Proof.
  unfold process_subject. repeat budget_step.
  eapply does_bind; [apply walk_units_within |].
  intros [[] st] c H.
  - does_step.
    eapply does_bind with (Q1 := fun _ c => Forall (fun e => is_log e = true) c).
    { destruct (anomalies st); [apply does_ret; constructor |].
      does_step. eapply does_bind; [apply print_anomalies_does |].
      intros ? c1 H1. does_step. constructor; [reflexivity |].
      apply Forall_app; split; [exact H1 | repeat constructor]. }
    intros ? c1 H1. does_steps;
      change (count_total_questions data) with (total_questions (units data));
      within_solve.
  - apply does_ret.
    change (count_total_questions data) with (total_questions (units data)).
    within_solve.
Qed.

End Cost.

(** ** The keys of a walk *)

Lemma configured_same gk yk w w' :
  GROQ_API_KEYS w' = GROQ_API_KEYS w ->
  current_groq_key_index w' = current_groq_key_index w ->
  client w' = client w ->
  YOUTUBE_API_KEYS w' = YOUTUBE_API_KEYS w ->
  current_yt_key_index w' = current_yt_key_index w ->
  youtube w' = youtube w ->
  configured gk yk w -> configured gk yk w'.
Proof.
  unfold configured, rotator_ok, key_at, keys_of, cursor_of, client_of.
  intros -> -> -> -> -> ->. auto.
Qed.

Lemma configured_client_in s gk yk w key :
  configured gk yk w -> client_of s w = Some key ->
  In key (match s with Groq => gk | YouTube => yk end).
Proof.
  intros (Hg & Hy & Hokg & Hoky) Ek.
  assert (Hok : rotator_ok s w) by (destruct s; assumption).
  assert (Hkeys : keys_of s w = match s with Groq => gk | YouTube => yk end)
    by (destruct s; assumption).
  unfold rotator_ok, key_at in Hok. rewrite Hkeys in Hok.
  destruct (match s with Groq => gk | YouTube => yk end) as [|k0 keys];
    [congruence |].
  destruct Hok as [Hlt Hc]. rewrite Ek in Hc. injection Hc as ->.
  exact (nth_In (k0 :: keys) EmptyString Hlt).
Qed.

Lemma steady_ret gk yk {A} (a : A) (Q : A -> list Event -> Prop) :
  Q a [] -> steady gk yk (ret a) Q.
Proof.
  intros H w Hw. split; [exact Hw |]. exists []. cbn. rewrite app_nil_r. auto.
Qed.

Lemma steady_bind gk yk {A B} (m : M A) (k : A -> M B)
    (Q1 : A -> list Event -> Prop) (Q : B -> list Event -> Prop) :
  steady gk yk m Q1 ->
  (forall a c1, Q1 a c1 -> steady gk yk (k a) (fun b c2 => Q b (c1 ++ c2))) ->
  steady gk yk (bind m k) Q.
Proof.
  intros Hm Hk w Hw. unfold bind.
  destruct (Hm w Hw) as (Hw1 & c1 & Ht1 & H1).
  destruct (m w) as [a w1]. cbn in *.
  destruct (Hk a c1 H1 w1 Hw1) as (Hw2 & c2 & Ht2 & H2).
  split; [exact Hw2 |].
  exists (c1 ++ c2). rewrite Ht2, Ht1, app_assoc. auto.
Qed.

Lemma steady_conseq gk yk {A} (m : M A) (Q Q' : A -> list Event -> Prop) :
  steady gk yk m Q -> (forall a c, Q a c -> Q' a c) -> steady gk yk m Q'.
Proof.
  intros Hm HQ w Hw. destruct (Hm w Hw) as (Hw' & c & Ht & H).
  split; [exact Hw' |]. exists c. auto.
Qed.

Lemma steady_bind_assoc gk yk {A B C} (m : M A) (k1 : A -> M B) (k2 : B -> M C)
    (Q : C -> list Event -> Prop) :
  steady gk yk (bind m (fun a => bind (k1 a) k2)) Q ->
  steady gk yk (bind (bind m k1) k2) Q.
Proof.
  intros H w Hw. specialize (H w Hw). unfold bind in *.
  destruct (m w) as [a w1]. exact H.
Qed.

Lemma steady_emit_bind gk yk {B} (e : Event) (k : unit -> M B)
    (Q : B -> list Event -> Prop) :
  steady gk yk (k tt) (fun b c => Q b (e :: c)) ->
  steady gk yk (bind (emit e) k) Q.
Proof.
  intros H. apply steady_bind with (Q1 := fun _ c => c = [e]).
  - intros w Hw. split.
    + revert Hw. now apply configured_same.
    + exists [e]. cbn. auto.
  - intros [] c1 ->. exact H.
Qed.

Lemma steady_save_bind gk yk {B} (d : Document) (k : unit -> M B)
    (Q : B -> list Event -> Prop) :
  steady gk yk (k tt) (fun b c => Q b (SaveJsonFile d :: c)) ->
  steady gk yk (bind (save_json_file d) k) Q.
Proof.
  intros H. apply steady_bind with (Q1 := fun _ c => c = [SaveJsonFile d]).
  - intros w Hw. split.
    + revert Hw. now apply configured_same.
    + exists [SaveJsonFile d]. cbn. auto.
  - intros [] c1 ->. exact H.
Qed.

Lemma steady_stop_bind gk yk {B} (env : Env) (k : bool -> M B)
    (Q : B -> list Event -> Prop) :
  (forall b, steady gk yk (k b) (fun r c => Q r (StopEventIsSet b :: c))) ->
  steady gk yk (bind (stop_event_is_set env) k) Q.
Proof.
  intros H. apply steady_bind with (Q1 := fun b c => c = [StopEventIsSet b]).
  - intros w Hw. split.
    + revert Hw. now apply configured_same.
    + eexists. cbn. auto.
  - intros b c1 ->. apply H.
Qed.

(** A global that is read has the value it has in some configured
    world. *)
Lemma steady_gets_bind gk yk {A B} (f : World -> A) (k : A -> M B)
    (Q : B -> list Event -> Prop) :
  (forall w0, configured gk yk w0 -> steady gk yk (k (f w0)) Q) ->
  steady gk yk (bind (gets f) k) Q.
Proof.
  intros H w Hw. unfold bind, gets. exact (H w Hw w Hw).
Qed.

Lemma steady_chat_bind gk yk {B} (env : Env) (msgs : list Message)
    (mt : option nat) (k : GroqResponse -> M B) (Q : B -> list Event -> Prop) :
  steady gk yk (k GroqException) Q ->
  (forall key r, In key gk ->
     steady gk yk (k r) (fun b c => Q b (GroqCreate key msgs mt r :: c))) ->
  steady gk yk (bind (chat_completions_create env msgs mt) k) Q.
Proof.
  intros H0 H.
  apply steady_bind with
    (Q1 := fun r c => (r = GroqException /\ c = []) \/
                      exists key, In key gk /\ c = [GroqCreate key msgs mt r]).
  - intros w Hw. unfold chat_completions_create.
    destruct (client w) as [key|] eqn:Ek.
    + split; [revert Hw; now apply configured_same |].
      eexists. cbn. split; [reflexivity |]. right. exists key. split; [| reflexivity].
      exact (configured_client_in Groq gk yk w key Hw Ek).
    + split; [exact Hw |]. exists []. cbn. rewrite app_nil_r. auto.
  - intros r c1 [[-> ->] | (key & Hin & ->)]; [exact H0 | now apply H].
Qed.

Lemma steady_search_bind gk yk {B} (env : Env) (query : string)
    (k : YouTubeResponse -> M B) (Q : B -> list Event -> Prop) :
  steady gk yk (k YouTubeException) Q ->
  (forall key r, In key yk ->
     steady gk yk (k r) (fun b c => Q b (YouTubeSearch key query r :: c))) ->
  steady gk yk (bind (youtube_search_execute env query) k) Q.
Proof.
  intros H0 H.
  apply steady_bind with
    (Q1 := fun r c => (r = YouTubeException /\ c = []) \/
                      exists key, In key yk /\ c = [YouTubeSearch key query r]).
  - intros w Hw. unfold youtube_search_execute.
    destruct (youtube w) as [key|] eqn:Ek.
    + split; [revert Hw; now apply configured_same |].
      eexists. cbn. split; [reflexivity |]. right. exists key. split; [| reflexivity].
      exact (configured_client_in YouTube gk yk w key Hw Ek).
    + split; [exact Hw |]. exists []. cbn. rewrite app_nil_r. auto.
  - intros r c1 [[-> ->] | (key & Hin & ->)]; [exact H0 | now apply H].
Qed.

Lemma searches_logs c :
  Forall (fun e => is_log e = true) c -> searches c = [].
Proof.
  induction 1 as [|e c He _ IH]; cbn; [reflexivity |].
  destruct e; cbn in *; try discriminate; exact IH.
Qed.

Lemma keyed_record gk yk s w0 w1 status :
  configured gk yk w0 -> configured gk yk w1 ->
  keyed gk yk (LogPut (EvApiKey s (cursor_of s w0 + 1) (length (keys_of s w1)) status)).
Proof.
  intros (Hg0 & Hy0 & Hokg0 & Hoky0) (Hg1 & Hy1 & _).
  assert (Hok : rotator_ok s w0) by (destruct s; assumption).
  assert (Hkeys0 : keys_of s w0 = match s with Groq => gk | YouTube => yk end)
    by (destruct s; assumption).
  assert (Hkeys1 : keys_of s w1 = match s with Groq => gk | YouTube => yk end)
    by (destruct s; assumption).
  cbn [keyed]. rewrite Hkeys1. split; [reflexivity |]. intros Hne.
  unfold rotator_ok in Hok. rewrite Hkeys0 in Hok.
  destruct (match s with Groq => gk | YouTube => yk end); [congruence |].
  destruct Hok as [Hlt _]. lia.
Qed.

Lemma keyed_switched gk yk s (keys : list string) i status :
  keys = match s with Groq => gk | YouTube => yk end ->
  keys <> [] ->
  keyed gk yk (LogPut (EvApiKey s ((i + 1) mod length keys + 1) (length keys) status)).
Proof.
  intros E Hne. cbn [keyed]. rewrite <- E. split; [reflexivity |]. intros _.
  assert (length keys <> 0) by (destruct keys; [congruence | discriminate]).
  pose proof (Nat.mod_upper_bound (i + 1) (length keys) ltac:(assumption)). lia.
Qed.

Lemma switch_groq_api_key_steady gk yk :
  steady gk yk switch_groq_api_key (fun _ c => searching gk yk 0 c).
Proof.
  intros w Hw. unfold switch_groq_api_key, bind, gets.
  destruct (GROQ_API_KEYS w) as [|k0 keys] eqn:Ek.
  - split; [exact Hw |]. exists []. cbn. rewrite app_nil_r.
    split; [reflexivity |]. split; [constructor | cbn; lia].
  - cbn [fst snd print log_put emit set_groq_client ret trace].
    destruct Hw as (Hg & Hy & Hok & Hoky). split.
    + unfold configured, rotator_ok, key_at.
      cbn [keys_of cursor_of client_of GROQ_API_KEYS YOUTUBE_API_KEYS
           current_groq_key_index current_yt_key_index client youtube].
      rewrite Ek. split; [now rewrite <- Hg |]. split; [assumption |].
      split; [| assumption]. split; [| reflexivity].
      apply Nat.mod_upper_bound. discriminate.
    + eexists. rewrite <- app_assoc. split; [reflexivity |]. split; [| cbn; lia].
      constructor; [exact I |]. constructor; [| constructor].
      apply (keyed_switched gk yk Groq (k0 :: keys));
        [now rewrite <- Hg | discriminate].
Qed.

Lemma switch_youtube_key_steady gk yk :
  steady gk yk switch_youtube_key (fun _ c => searching gk yk 0 c).
Proof.
  intros w Hw. unfold switch_youtube_key, bind, gets.
  destruct (YOUTUBE_API_KEYS w) as [|k0 keys] eqn:Ek.
  - split; [exact Hw |]. exists []. cbn. rewrite app_nil_r.
    split; [reflexivity |]. split; [constructor | cbn; lia].
  - cbn [fst snd print log_put emit set_youtube_client ret trace].
    destruct Hw as (Hg & Hy & Hok & Hoky). split.
    + unfold configured, rotator_ok, key_at.
      cbn [keys_of cursor_of client_of GROQ_API_KEYS YOUTUBE_API_KEYS
           current_groq_key_index current_yt_key_index client youtube].
      rewrite Ek. split; [assumption |]. split; [now rewrite <- Hy |].
      split; [assumption |]. split; [| reflexivity].
      apply Nat.mod_upper_bound. discriminate.
    + eexists. rewrite <- app_assoc. split; [reflexivity |]. split; [| cbn; lia].
      constructor; [exact I |]. constructor; [| constructor].
      apply (keyed_switched gk yk YouTube (k0 :: keys));
        [now rewrite <- Hy | discriminate].
Qed.

Lemma steady_emit gk yk (e : Event) (Q : unit -> list Event -> Prop) :
  Q tt [e] -> steady gk yk (emit e) Q.
Proof.
  intros H w Hw. split.
  - revert Hw. now apply configured_same.
  - exists [e]. cbn. auto.
Qed.

Lemma steady_ret_bind gk yk {A B} (a : A) (k : A -> M B)
    (Q : B -> list Event -> Prop) :
  steady gk yk (k a) Q -> steady gk yk (bind (ret a) k) Q.
Proof. intros H w Hw. exact (H w Hw). Qed.

Ltac steady_step :=
  lazymatch goal with
  | |- steady _ _ (bind (bind _ _) _) _ => apply steady_bind_assoc
  | |- steady _ _ (bind (print _) _) _ =>
      unfold print at 1; apply steady_emit_bind
  | |- steady _ _ (bind (log_put _) _) _ =>
      unfold log_put at 1; apply steady_emit_bind
  | |- steady _ _ (bind (sleep _) _) _ =>
      unfold sleep at 1; apply steady_emit_bind
  | |- steady _ _ (bind (emit _) _) _ => apply steady_emit_bind
  | |- steady _ _ (bind (save_json_file _) _) _ => apply steady_save_bind
  | |- steady _ _ (bind (gets _) _) _ => apply steady_gets_bind; intros ? ?
  | |- steady _ _ (bind (stop_event_is_set _) _) _ =>
      apply steady_stop_bind; intro
  | |- steady _ _ (bind (switch_groq_api_key) _) _ =>
      eapply steady_bind; [apply switch_groq_api_key_steady | intros ? ? ?]
  | |- steady _ _ (bind (switch_youtube_key) _) _ =>
      eapply steady_bind; [apply switch_youtube_key_steady | intros ? ? ?]
  | |- steady _ _ (bind (assign_video _ _ _ _) _) _ => unfold assign_video at 1
  | |- steady _ _ (bind (assign_solution _ _ _ _) _) _ =>
      unfold assign_solution at 1
  | |- steady _ _ (bind (ret _) _) _ => apply steady_ret_bind
  | |- steady _ _ (ret _) _ => apply steady_ret
  | |- steady _ _ (print _) _ => unfold print; apply steady_emit
  | |- steady _ _ (log_put _) _ => unfold log_put; apply steady_emit
  | |- steady _ _ (sleep _) _ => unfold sleep; apply steady_emit
  | |- steady _ _ (if ?c then _ else _) _ => destruct c eqn:?
  | |- steady _ _ (bind (if ?c then _ else _) _) _ => destruct c eqn:?
  | |- steady _ _ (match ?x with _ => _ end) _ => destruct x eqn:?
  | |- steady _ _ (bind (match ?x with _ => _ end) _) _ => destruct x eqn:?
  end.

Ltac searching_solve :=
  cbn beta in *;
  unfold searching in *;
  repeat match goal with
         | H : configured _ _ _ |- _ => revert H
         end;
  repeat match goal with H : _ /\ _ |- _ => destruct H end;
  intros;
  split;
  [ forall_split;
    solve [ exact I | assumption | cbn; assumption
          | eapply (keyed_record _ _ Groq); eassumption
          | eapply (keyed_record _ _ YouTube); eassumption ]
  | repeat first
      [ progress cbn [searches app length]
      | rewrite searches_app
      | rewrite length_app ];
    lia ].

Lemma generate_attempts_steady gk yk env msgs mt n : forall k,
  steady gk yk (generate_attempts env n k msgs mt)
         (fun _ c => searching gk yk 0 c).
Proof.
  induction n as [|n IH]; intros k; cbn [generate_attempts].
  - repeat steady_step. searching_solve.
  - apply steady_chat_bind.
    + repeat steady_step. eapply steady_conseq; [apply IH |].
      intros ? c Hc. searching_solve.
    + intros key [text | |] Hin.
      * repeat steady_step. searching_solve.
      * repeat steady_step;
          (eapply steady_conseq; [apply IH |]); intros ? c Hc; searching_solve.
      * repeat steady_step. eapply steady_conseq; [apply IH |].
        intros ? c Hc. searching_solve.
Qed.

Lemma generate_with_retry_steady gk yk env msgs N mt :
  steady gk yk (generate_with_retry env msgs N mt)
         (fun _ c => searching gk yk 0 c).
Proof.
  unfold generate_with_retry. steady_step. steady_step.
  - apply generate_attempts_steady.
  - repeat steady_step. searching_solve.
Qed.

Lemma search_attempts_steady gk yk env query n :
  steady gk yk (search_attempts env n query) (fun _ c => searching gk yk n c).
Proof.
  induction n as [|n IH]; cbn [search_attempts].
  - repeat steady_step. searching_solve.
  - apply steady_search_bind.
    + repeat steady_step. searching_solve.
    + intros key [items | status |] Hin.
      * repeat steady_step; searching_solve.
      * repeat steady_step; try searching_solve.
        eapply steady_conseq; [apply IH |]. intros ? c Hc. searching_solve.
      * repeat steady_step. searching_solve.
Qed.

Lemma search_youtube_video_steady gk yk env query :
  steady gk yk (search_youtube_video env query)
         (fun _ c => searching gk yk (max_attempts yk) c).
Proof.
  unfold search_youtube_video. steady_step.
  - steady_step. searching_solve.
  - steady_step. steady_step.
    + apply steady_gets_bind. intros w1 (_ & -> & _).
      apply search_attempts_steady.
    + repeat steady_step. searching_solve.
Qed.

Ltac key_step :=
  lazymatch goal with
  | |- steady _ _ (bind (get_youtube_search_query _ _) _) _ =>
      eapply steady_bind;
      [unfold get_youtube_search_query; apply generate_with_retry_steady
      | intros ? ? ?]
  | |- steady _ _ (bind (get_detailed_solution _ _ _ _) _) _ =>
      eapply steady_bind;
      [unfold get_detailed_solution; apply generate_with_retry_steady
      | intros ? ? ?]
  | |- steady _ _ (bind (search_youtube_video _ _) _) _ =>
      eapply steady_bind; [apply search_youtube_video_steady | intros ? ? ?]
  | _ => steady_step
  end.

Lemma video_step_steady gk yk env u q counter q_text f :
  steady gk yk (video_step env u q counter q_text f)
         (fun _ c => searching gk yk (max_attempts yk) c).
Proof. unfold video_step. repeat key_step; searching_solve. Qed.

Lemma solution_step_steady gk yk env u q counter q_text unit_title f anoms :
  steady gk yk (solution_step env u q counter q_text unit_title f anoms)
         (fun _ c => searching gk yk 0 c).
Proof. unfold solution_step. repeat key_step; searching_solve. Qed.

Lemma process_question_steady gk yk env total_qs u unit_title q_idx q st :
  steady gk yk (process_question env total_qs u unit_title q_idx q st)
         (fun _ c => searching gk yk (max_attempts yk) c).
Proof.
  unfold process_question. repeat key_step; try searching_solve.
  eapply steady_bind; [apply video_step_steady |].
  intros [[[] f1] m1] c1 H1; repeat key_step; try searching_solve.
  eapply steady_bind; [apply solution_step_steady |].
  intros [[[[] f2] a2] m2] c2 H2; repeat key_step; searching_solve.
Qed.

Lemma walk_questions_steady gk yk env total_qs u unit_title qs :
  forall q_idx st,
    steady gk yk (walk_questions env total_qs u unit_title qs q_idx st)
           (fun _ c => searching gk yk (max_attempts yk * length qs) c).
Proof.
  induction qs as [|q qs IH]; intros q_idx st; cbn [walk_questions].
  - apply steady_ret. searching_solve.
  - eapply steady_bind; [apply process_question_steady |].
    intros [[] st1] c1 H1.
    + eapply steady_conseq; [apply IH |]. intros ? c2 H2. searching_solve.
    + apply steady_ret. searching_solve.
Qed.

Lemma walk_units_steady gk yk env total_qs us :
  forall u_idx st,
    steady gk yk (walk_units env total_qs us u_idx st)
           (fun _ c => searching gk yk (max_attempts yk * total_questions us) c).
Proof.
  induction us as [|unit us IH]; intros u_idx st; cbn [walk_units].
  - apply steady_ret. searching_solve.
  - cbn [total_questions fold_right]. fold (total_questions us).
    steady_step. steady_step.
    + repeat steady_step. searching_solve.
    + eapply steady_bind; [apply walk_questions_steady |].
      intros [[] st1] c1 H1.
      * eapply steady_conseq; [apply IH |]. intros ? c2 H2. searching_solve.
      * apply steady_ret. searching_solve.
Qed.

Lemma print_anomalies_steady gk yk l :
  steady gk yk (print_anomalies l) (fun _ c => searching gk yk 0 c).
Proof.
  induction l as [|anomaly l IH]; cbn [print_anomalies].
  - apply steady_ret. searching_solve.
  - steady_step. eapply steady_conseq; [apply IH |].
    intros ? c Hc. searching_solve.
Qed.

Lemma process_subject_steady gk yk env data :
  steady gk yk (process_subject env data)
         (fun _ c => searching gk yk (max_attempts yk * count_total_questions data) c).
Proof.
  unfold process_subject. repeat steady_step.
  eapply steady_bind; [apply walk_units_steady |].
  change (count_total_questions data) with (total_questions (units data)).
  intros [[] st] c Hwalk.
  - steady_step.
    eapply steady_bind with (Q1 := fun _ c => searching gk yk 0 c).
    { destruct (anomalies st); [apply steady_ret; searching_solve |].
      steady_step. eapply steady_bind; [apply print_anomalies_steady |].
      intros ? c1 Hc1. steady_step. searching_solve. }
    intros ? c1 Hc1. repeat steady_step; searching_solve.
  - apply steady_ret. searching_solve.
Qed.

Lemma runs_steady gk yk envs : forall data,
  steady gk yk (runs envs data) (fun _ c => Forall (keyed gk yk) c).
Proof.
  induction envs as [|env envs IH]; intros data; cbn [runs].
  - apply steady_ret. constructor.
  - eapply steady_bind; [apply process_subject_steady |].
    intros data' c1 [H1 _]. eapply steady_conseq; [apply IH |].
    intros ? c2 H2. apply Forall_app; auto.
Qed.

Lemma configured_load gk yk : configured gk yk (load_module gk yk).
Proof.
  unfold configured, rotator_ok, key_at. cbn.
  repeat split; try reflexivity.
  - destruct gk; cbn; [reflexivity | split; [lia | reflexivity]].
  - destruct yk; cbn; [reflexivity | split; [lia | reflexivity]].
Qed.

Lemma rotator_ok_client s w :
  rotator_ok s w -> (client_of s w <> None <-> keys_of s w <> []).
Proof.
  unfold rotator_ok. destruct (keys_of s w).
  - intros ->. tauto.
  - intros [_ ->]. split; discriminate.
Qed.

Section Keys.
Local Open Scope string_scope.
Local Open Scope list_scope.
Local Open Scope nat_scope.

(** X13.  From the loading of the module on, through any number of
    walks and whatever the services answer, the key lists are the ones
    parsed from the environment, the cursor of each rotator is inside
    its list, each client is built on the key at its cursor, and a
    client exists exactly when its list has a key. *)
Theorem rotators_stay_in_order
    (groq_api_keys youtube_api_keys youtube_api_key : string)
    (envs : list Env) (data : Document) :
  let gk := parse_keys groq_api_keys in
  let yk := parse_keys (youtube_keys_env youtube_api_keys youtube_api_key) in
  let w := snd (runs envs data
                  (configure groq_api_keys youtube_api_keys youtube_api_key)) in
  GROQ_API_KEYS w = gk /\ YOUTUBE_API_KEYS w = yk /\
  rotator_ok Groq w /\ rotator_ok YouTube w /\
  (client w <> None <-> gk <> []) /\
  (youtube w <> None <-> yk <> []).
Proof.
  intros gk yk w.
  destruct (runs_steady gk yk envs data
              (configure groq_api_keys youtube_api_keys youtube_api_key)
              (configured_load gk yk)) as ((Hg & Hy & Hokg & Hoky) & _).
  fold w in Hg, Hy, Hokg, Hoky.
  repeat split; try assumption.
  - intros H. apply (rotator_ok_client Groq w Hokg) in H. cbn in H. now rewrite Hg in H.
  - intros H. apply (rotator_ok_client Groq w Hokg). cbn. now rewrite Hg.
  - intros H. apply (rotator_ok_client YouTube w Hoky) in H. cbn in H. now rewrite Hy in H.
  - intros H. apply (rotator_ok_client YouTube w Hoky). cbn. now rewrite Hy.
Qed.

(** X14.  A walk that starts in a world whose rotators are in order
    ends in such a world and makes at most one search for each question
    and each video-search key (one for each question when there is no
    key or one key), whatever the services answer. *)
Theorem walk_searches_bounded (env : Env) (data : Document)
    (gk yk : list string) (w : World) (Hw : configured gk yk w) :
  let w' := snd (process_subject env data w) in
  configured gk yk w' /\
  exists c,
    trace w' = trace w ++ c /\
    length (searches c) <= Nat.max 1 (length yk) * count_total_questions data.
Proof.
  intros w'.
  destruct (process_subject_steady gk yk env data w Hw) as (Hw' & c & Ht & Hk & Hn).
  split; [exact Hw' |]. exists c. rewrite <- max_attempts_max. auto.
Qed.

(** Two video-search keys and a service that refuses both: the only
    question is searched twice. *)
Lemma walk_searches_bounded_witness :
  let env := scripted [Completion "a query"; Completion "a solution"]
               [HttpError 403; HttpError 403] [] in
  let data := single (sample_question None None) in
  let w := load_module ["k1"] ["y1"; "y2"] in
  configured ["k1"] ["y1"; "y2"] w /\
  exists c,
    trace (snd (process_subject env data w)) = c /\
    length (searches c) <= 2 /\
    count is_youtube_search (trace (snd (process_subject env data w))) = 2.
Proof.
  intros env data w.
  assert (Hw : configured ["k1"] ["y1"; "y2"] w)
    by (unfold configured, rotator_ok; cbn; repeat split; lia).
  split; [exact Hw |].
  destruct (walk_searches_bounded env data ["k1"] ["y1"; "y2"] w Hw)
    as (_ & c & Ht & Hn).
  exists c. split; [exact Ht |]. split; [exact Hn |].
  vm_compute. reflexivity.
Defined.

(** X17.  From the loading of the module on, through any number of
    walks, every completion request carries a key of the Groq list,
    every search carries a key of the YouTube list, and every key record
    put on the queue gives the length of the list of its service as the
    total and, when that list has a key, a current key between 1 and the
    total. *)
Theorem requests_and_key_records_in_order
    (groq_api_keys youtube_api_keys youtube_api_key : string)
    (envs : list Env) (data : Document) :
  let gk := parse_keys groq_api_keys in
  let yk := parse_keys (youtube_keys_env youtube_api_keys youtube_api_key) in
  let w := snd (runs envs data
                  (configure groq_api_keys youtube_api_keys youtube_api_key)) in
  (forall key msgs mt response,
     In (GroqCreate key msgs mt response) (trace w) -> In key gk) /\
  (forall key q response,
     In (YouTubeSearch key q response) (trace w) -> In key yk) /\
  (forall s current total status,
     In (LogPut (EvApiKey s current total status)) (trace w) ->
     total = length (keys_of s w) /\
     (total <> 0 -> 1 <= current <= total)).
Proof.
  intros gk yk w.
  destruct (runs_steady gk yk envs data
              (configure groq_api_keys youtube_api_keys youtube_api_key)
              (configured_load gk yk)) as ((Hg & Hy & _) & c & Ht & Hc).
  fold w in Hg, Hy, Ht. cbn [configure load_module trace app] in Ht.
  rewrite Ht. split; [| split].
  - intros key msgs mt response Hin.
    exact (proj1 (List.Forall_forall _ _) Hc _ Hin).
  - intros key q response Hin.
    exact (proj1 (List.Forall_forall _ _) Hc _ Hin).
  - intros s current total status Hin.
    destruct (proj1 (List.Forall_forall _ _) Hc _ Hin) as [Htot Hcur].
    assert (Hkeys : keys_of s w = match s with Groq => gk | YouTube => yk end)
      by (destruct s; assumption).
    rewrite Hkeys. split; [exact Htot |]. intros Hne. apply Hcur.
    intros E. rewrite E in Htot. cbn in Htot. contradiction.
Qed.

End Keys.

(** ** A property of the trace of a walk *)

(** A property of traces that holds of the empty trace, of the entries
    of the log, of the readings of the flag and of the traces of the two
    steps, and that two traces pass on to their concatenation, holds of
    the trace of a walk. *)
Section WalkerChunks.
Variable Pc : list Event -> Prop.
Variable env : Env.
Hypothesis Pc_nil : Pc [].
Hypothesis Pc_app : forall a b, Pc a -> Pc b -> Pc (a ++ b).
Hypothesis Pc_log : forall e, is_log e = true -> Pc [e].
Hypothesis Pc_reading : forall b, Pc [StopEventIsSet b].
Hypothesis Pc_video_step : forall u q counter q_text f,
  does (video_step env u q counter q_text f) (fun _ c => Pc c).
Hypothesis Pc_solution_step : forall u q counter q_text unit_title f anoms,
  does (solution_step env u q counter q_text unit_title f anoms)
       (fun _ c => Pc c).

Lemma Pc_logs c : Forall (fun e => is_log e = true) c -> Pc c.
Proof.
  induction 1 as [|e c He _ IH]; [exact Pc_nil |].
  apply (Pc_app [e] c); [now apply Pc_log | exact IH].
Qed.

Ltac chunk_solve :=
  cbn beta in *;
  repeat lazymatch goal with
         | |- Pc [] => apply Pc_nil
         | |- Pc [StopEventIsSet _] => apply Pc_reading
         | |- Pc [_] => apply Pc_log; reflexivity
         | |- Pc (?e :: ?l) => apply (Pc_app [e] l)
         | |- Pc (_ ++ _) => apply Pc_app
         | |- Pc _ => first [assumption | apply Pc_logs; assumption]
         end.

Lemma process_question_chunks total_qs u unit_title q_idx q st :
  does (process_question env total_qs u unit_title q_idx q st)
       (fun _ c => Pc c).
Proof.
  unfold process_question. repeat walker_step; try solve [chunk_solve].
  eapply does_bind; [apply Pc_video_step |].
  intros [[[] f1] m1] c1 H1; repeat walker_step; try solve [chunk_solve].
  eapply does_bind; [apply Pc_solution_step |].
  intros [[[[] f2] a2] m2] c2 H2; repeat walker_step; solve [chunk_solve].
Qed.

Lemma walk_questions_chunks total_qs u unit_title qs :
  forall q_idx st,
    does (walk_questions env total_qs u unit_title qs q_idx st)
         (fun _ c => Pc c).
Proof.
  induction qs as [|q qs IH]; intros q_idx st; cbn [walk_questions].
  - apply does_ret. exact Pc_nil.
  - eapply does_bind; [apply process_question_chunks |].
    intros [[] st1] c1 H1.
    + eapply does_conseq; [apply IH |]. intros ? c2 H2. solve [chunk_solve].
    + apply does_ret. solve [chunk_solve].
Qed.

Lemma walk_units_chunks total_qs us :
  forall u_idx st,
    does (walk_units env total_qs us u_idx st) (fun _ c => Pc c).
Proof.
  induction us as [|unit us IH]; intros u_idx st; cbn [walk_units].
  - apply does_ret. exact Pc_nil.
  - does_step. does_step.
    + does_steps. solve [chunk_solve].
    + eapply does_bind; [apply walk_questions_chunks |].
      intros [[] st1] c1 H1.
      * eapply does_conseq; [apply IH |]. intros ? c2 H2. solve [chunk_solve].
      * apply does_ret. solve [chunk_solve].
Qed.

Lemma process_subject_chunks data :
  does (process_subject env data) (fun _ c => Pc c).
Proof.
  unfold process_subject. repeat walker_step.
  eapply does_bind; [apply walk_units_chunks |].
  intros [[] st] c Hwalk.
  - does_step.
    eapply does_bind with (Q1 := fun _ c => Forall (fun e => is_log e = true) c).
    { destruct (anomalies st); [apply does_ret; constructor |].
      does_step. eapply does_bind; [apply print_anomalies_does |].
      intros ? c1 Hc1. does_step. constructor; [reflexivity |].
      apply Forall_app; split; [exact Hc1 | repeat constructor]. }
    intros ? c1 Hc1. does_steps; solve [chunk_solve].
  - apply does_ret. solve [chunk_solve].
Qed.

End WalkerChunks.

(** The same for a property of the events. *)
Lemma process_subject_forall (P : Event -> Prop) (env : Env) :
  (forall e, is_log e = true -> P e) ->
  (forall b, P (StopEventIsSet b)) ->
  (forall u q counter q_text f,
     does (video_step env u q counter q_text f) (fun _ c => Forall P c)) ->
  (forall u q counter q_text unit_title f anoms,
     does (solution_step env u q counter q_text unit_title f anoms)
          (fun _ c => Forall P c)) ->
  forall data, does (process_subject env data) (fun _ c => Forall P c).
Proof.
  intros Hlog Hreading Hvideo Hsolution.
  apply (process_subject_chunks (Forall P) env); auto.
  - intros a b Ha Hb. apply Forall_app. auto.
Qed.

(** ** What is stored *)

Lemma quiet_stored_clean e : quiet e -> stored_clean e.
Proof. destruct e; cbn; auto; contradiction. Qed.

Lemma generated_stripped msgs mt s c :
  generated msgs mt (Some s) c -> PyStr.strip s = s.
Proof. intros (_ & pre & key & text & _ & -> & _). apply strip_idem. Qed.

Lemma video_of_response_query query response v :
  video_of_response query response = Some v -> searchQuery v = query.
Proof.
  destruct response as [[[|item items] | |] |]; cbn; try discriminate.
  now intros [= <-].
Qed.

Ltac clean_step :=
  lazymatch goal with
  | |- does (bind (get_youtube_search_query _ _) _) _ =>
      eapply does_bind;
      [unfold get_youtube_search_query; apply generate_with_retry_generated
      | intros ? ? ?]
  | |- does (bind (get_detailed_solution _ _ _ _) _) _ =>
      eapply does_bind; [apply get_detailed_solution_generated | intros ? ? ?]
  | |- does (bind (search_youtube_video _ _) _) _ =>
      eapply does_bind; [apply search_youtube_video_result | intros ? ? ?]
  | _ => walker_step
  end.

Ltac clean_solve :=
  cbn beta in *;
  repeat match goal with
         | H : generated _ _ (Some _) _ |- _ =>
             let Hs := fresh "Hs" in
             pose proof (generated_stripped _ _ _ _ H) as Hs; destruct H as [H _]
         | H : generated _ _ _ _ |- _ => destruct H as [H _]
         | H : _ /\ _ |- _ => destruct H
         end;
  forall_split;
  try solve
    [ exact I
    | eapply Forall_impl; [eassumption |];
      intros ? ?; eapply quiet_stored_clean, groq_event_quiet; eassumption
    | eapply Forall_impl; [eassumption |];
      intros ? ?; eapply quiet_stored_clean, youtube_event_quiet; eassumption ].

Lemma video_step_clean env u q counter q_text f :
  does (video_step env u q counter q_text f) (fun _ c => Forall stored_clean c).
Proof.
  unfold video_step. repeat clean_step; clean_solve.
  match goal with
  | Hv : Some ?v = video_of_response ?s _ |- _ =>
      symmetry in Hv; apply video_of_response_query in Hv; cbn; rewrite Hv
  end.
  auto.
Qed.

Lemma solution_step_clean env u q counter q_text unit_title f anoms :
  does (solution_step env u q counter q_text unit_title f anoms)
       (fun _ c => Forall stored_clean c).
Proof.
  unfold solution_step. repeat clean_step; clean_solve; cbn; auto.
Qed.

Lemma solution_step_clean_events env u q counter q_text unit_title f anoms :
  does (solution_step env u q counter q_text unit_title f anoms)
       (fun _ c => Forall (fun e => is_found_assignment e = false) c).
Proof.
  unfold solution_step. repeat walker_step; cbn beta in *; forall_split;
    try reflexivity;
    (eapply Forall_impl; [eassumption |]); intros [] He; cbn in *;
    auto; contradiction.
Qed.

Lemma unique_split (p : Event -> bool) (before_ : list Event) e after_ :
  count p before_ = 0 ->
  forall pre e' post,
    p e' = true ->
    before_ ++ e :: after_ = pre ++ e' :: post ->
    count p after_ = 0 ->
    pre = before_ /\ e' = e.
Proof.
  induction before_ as [|x l IH]; intros Hl pre e' post He E Ha.
  - destruct pre as [|y pre]; cbn in E.
    + injection E as -> _. auto.
    + injection E as _ E. subst after_. rewrite count_app in Ha. cbn in Ha.
      rewrite He in Ha. lia.
  - cbn in Hl. destruct (p x) eqn:Hx; [discriminate |].
    destruct pre as [|y pre]; cbn in E; injection E as E1 E2.
    + subst x. congruence.
    + subst y. destruct (IH Hl pre e' post He E2 Ha) as [-> ->]. auto.
Qed.

Lemma count_zero_split (p : Event -> bool) c pre e post :
  count p c = 0 -> c = pre ++ e :: post -> p e = false.
Proof.
  intros H ->. rewrite count_app in H. cbn in H.
  destruct (p e); [lia | reflexivity].
Qed.

Lemma query_answered_none c :
  count is_found_assignment c = 0 -> query_answered c.
Proof.
  intros H pre u q v d post E.
  pose proof (count_zero_split _ _ _ _ _ H E). discriminate.
Qed.

Lemma query_answered_app a b :
  query_answered a -> query_answered b -> query_answered (a ++ b).
Proof.
  intros Ha Hb pre u q v d post E.
  apply app_eq_inv in E as [(k & -> & E) | (k & -> & E)].
  - destruct k as [|x k]; cbn in E.
    + subst b. destruct (Hb [] u q v d post eq_refl)
        as (key & msgs & text & [] & _).
    + injection E as <- ->. exact (Ha _ _ _ _ _ _ eq_refl).
  - destruct (Hb _ _ _ _ _ _ E) as (key & msgs & text & Hin & Hs).
    exists key, msgs, text. split; [| exact Hs]. apply in_or_app. now right.
Qed.

Lemma count_found_forall (P : Event -> Prop) c :
  (forall e, P e -> is_found_assignment e = false) ->
  Forall P c -> count is_found_assignment c = 0.
Proof.
  intros HP. induction 1 as [|e c He _ IH]; cbn; [reflexivity |].
  now rewrite (HP e He).
Qed.

Lemma count_found_quiet c :
  Forall quiet c -> count is_found_assignment c = 0.
Proof.
  apply count_found_forall. intros [] H; cbn in *; auto; contradiction.
Qed.

Lemma solution_step_keeps_found env u q counter q_text unit_title f anoms :
  does (solution_step env u q counter q_text unit_title f anoms)
       (fun _ c => count is_found_assignment c = 0).
Proof.
  eapply does_conseq; [apply solution_step_clean_events |].
  intros ? c H. cbn beta in H.
  apply (count_found_forall (fun e => is_found_assignment e = false)); auto.
Qed.

Lemma video_step_answered env u q counter q_text f :
  does (video_step env u q counter q_text f) (fun _ c => query_answered c).
Proof.
  eapply does_conseq; [apply video_step_outcome |].
  intros [[flow f'] modified] c H. unfold video_outcome in H.
  destruct (video_truthy (question f)).
  { destruct H as (_ & _ & _ & ->). now apply query_answered_none. }
  destruct H as (query & gen & b & rest & -> & Hgen & H).
  assert (Hq : count is_found_assignment gen = 0).
  { apply count_found_quiet. destruct Hgen as [Hgen _].
    eapply Forall_impl; [exact Hgen |]. apply groq_event_quiet. }
  destruct b.
  { destruct H as (_ & _ & _ & ->). apply query_answered_none.
    rewrite !count_app, Hq. reflexivity. }
  destruct H as (_ & H).
  destruct query as [qy|]; [destruct (PyStr.truthy qy) |].
  2, 3: destruct H as (_ & _ & ->); apply query_answered_none;
    rewrite !count_app, Hq; reflexivity.
  destruct H as (search & Hs & -> & _ & ->).
  assert (Hsq : count is_found_assignment search = 0).
  { apply count_found_quiet. eapply Forall_impl; [exact Hs |].
    apply youtube_event_quiet. }
  destruct (video_of_response qy (last (searches search))) as [found|] eqn:Ev.
  2: { apply query_answered_none. rewrite !count_app, Hq. cbn.
       rewrite !count_app, Hsq. reflexivity. }
  intros pre u' q' v d post E.
  destruct Hgen as (_ & pre0 & key & text & -> & -> & _).
  set (lead := [PrintLine LnStep1; PrintLine LnGeneratingQuery;
                LogPut (EvActiveStep (GeneratingQuery counter))]) in *.
  set (logs := [PrintLine (LnQueryDone (PyStr.strip text));
                LogPut (EvQDetails (DSearchQuery (PyStr.strip text)));
                PrintLine LnSearching;
                LogPut (EvActiveStep (SearchingYouTube counter))]) in *.
  assert (Hpre :
    pre = lead ++ (pre0 ++ [GroqCreate key (query_messages q_text) None
                               (Completion text)]) ++
          StopEventIsSet false :: logs ++ search /\
    AssignVideo u' q' (Some v) d =
      AssignVideo u q (Some found)
        (data (with_video u q (Some found) f))).
  { eapply (unique_split is_found_assignment); [| reflexivity | |].
    - unfold lead, logs.
      repeat first [ rewrite count_app
                   | progress cbn [count is_found_assignment] ].
      rewrite count_app in Hq. cbn [count is_found_assignment] in Hq.
      rewrite Hsq. lia.
    - rewrite <- E. unfold lead, logs. cbn [app].
      rewrite <- ?app_assoc. cbn [app]. reflexivity.
    - reflexivity. }
  destruct Hpre as [-> Hv]. injection Hv as _ _ -> _.
  exists key, (query_messages q_text), text. split.
  - apply in_or_app. right. apply in_or_app. left. apply in_or_app. right.
    now left.
  - now apply video_of_response_query in Ev.
Qed.

Lemma solution_step_answered env u q counter q_text unit_title f anoms :
  does (solution_step env u q counter q_text unit_title f anoms)
       (fun _ c => query_answered c).
Proof.
  eapply does_conseq; [apply solution_step_keeps_found |].
  intros ? c H. now apply query_answered_none.
Qed.

Section Stored.
Local Open Scope string_scope.
Local Open Scope list_scope.
Local Open Scope nat_scope.

(** X15.  Whatever the services answer, every solution a walk stores on
    a question is a non-empty text with no white space at either end;
    every video it stores carries a search query that is such a text
    too, and that is the stripped text of a completion that a request
    for a query received earlier in the walk. *)
Theorem stored_values_are_clean (env : Env) (data : Document) :
  does (process_subject env data)
       (fun _ c =>
          (forall u_idx q_idx s d,
             In (AssignSolution u_idx q_idx s d) c ->
             PyStr.truthy s = true /\ PyStr.strip s = s /\ trimmed s) /\
          (forall u_idx q_idx v d,
             In (AssignVideo u_idx q_idx (Some v) d) c ->
             PyStr.truthy (searchQuery v) = true /\
             PyStr.strip (searchQuery v) = searchQuery v /\
             trimmed (searchQuery v)) /\
          (forall pre u_idx q_idx v d post,
             c = pre ++ AssignVideo u_idx q_idx (Some v) d :: post ->
             exists key msgs text,
               In (GroqCreate key msgs None (Completion text)) pre /\
               searchQuery v = PyStr.strip text)).
Proof.
  assert (Hclean : does (process_subject env data)
                     (fun _ c => Forall stored_clean c)).
  { apply (process_subject_forall stored_clean env).
    - intros [] He; cbn in *; auto; discriminate.
    - intros b. exact I.
    - apply video_step_clean.
    - apply solution_step_clean. }
  assert (Hanswered : does (process_subject env data)
                        (fun _ c => query_answered c)).
  { apply (process_subject_chunks query_answered env).
    - now apply query_answered_none.
    - apply query_answered_app.
    - intros [] He; try discriminate; now apply query_answered_none.
    - intros b. now apply query_answered_none.
    - apply video_step_answered.
    - apply solution_step_answered. }
  intros w. destruct (Hclean w) as (c & Ht & Ho & Hc).
  destruct (Hanswered w) as (c' & Ht' & _ & Ha).
  rewrite Ht in Ht'. apply app_inv_head in Ht'. subst c'.
  exists c. split; [exact Ht |]. split; [exact Ho |].
  split; [| split; [| exact Ha]].
  - intros u_idx q_idx s d Hin.
    destruct (proj1 (List.Forall_forall _ _) Hc _ Hin) as [Hy Hs].
    split; [exact Hy | split; [exact Hs | rewrite <- Hs; apply strip_trimmed]].
  - intros u_idx q_idx v d Hin.
    destruct (proj1 (List.Forall_forall _ _) Hc _ Hin) as [Hy Hs].
    split; [exact Hy | split; [exact Hs | rewrite <- Hs; apply strip_trimmed]].
Qed.

End Stored.

(** ** The video search with nothing to search *)

Section NoSearch.
Local Open Scope string_scope.
Local Open Scope list_scope.
Local Open Scope nat_scope.

(** X16.  With an empty query, [search_youtube_video] returns [None] and
    does nothing at all; with a query and no video-search client it
    returns [None] and all it does is print one line.  In both cases no
    search is made, no key is rotated and the world is otherwise as it
    was. *)
Theorem search_youtube_video_without_search (env : Env) (query : string)
    (w : World) (H : PyStr.truthy query = false \/ youtube w = None) :
  let r := fst (search_youtube_video env query w) in
  let w' := snd (search_youtube_video env query w) in
  r = None /\
  trace w' =
    trace w ++ (if PyStr.truthy query then [PrintLine LnNoYouTubeClient] else []) /\
  youtube_requests w' = youtube_requests w /\
  current_yt_key_index w' = current_yt_key_index w /\
  youtube w' = youtube w /\
  output_file w' = output_file w.
Proof.
  intros r w'. unfold r, w', search_youtube_video.
  destruct (PyStr.truthy query) eqn:Eq; cbn [negb].
  - destruct H as [H | H]; [discriminate |].
    unfold bind, gets. rewrite H. cbn. repeat split; auto.
  - cbn. rewrite app_nil_r. repeat split.
Qed.

Lemma search_youtube_video_without_search_witness :
  let env := scripted [] [SearchItems [sample_item]] [] in
  let w := load_module ["k1"] [] in
  (PyStr.truthy "a query" = false \/ youtube w = None) /\
  fst (search_youtube_video env "a query" w) = None /\
  trace (snd (search_youtube_video env "a query" w)) =
    [PrintLine LnNoYouTubeClient].
Proof.
  intros env w.
  assert (H : PyStr.truthy "a query" = false \/ youtube w = None)
    by (right; reflexivity).
  split; [exact H |].
  destruct (search_youtube_video_without_search env "a query" w H)
    as (Hr & Ht & _).
  split; [exact Hr | exact Ht].
Defined.

End NoSearch.

(** ** The entry point and the files *)


Section Files.
Local Open Scope string_scope.
Local Open Scope list_scope.
Local Open Scope nat_scope.






End Files.
